(** * UniformSpread: spreading / interpolation between scattered points and a lattice

    Shallow embedding of [pyxu/operator/linop/spread.py].

    Conventions of the embedding.
    - Floating-point numbers are idealised as exact rationals [Q]: arithmetic
      is exact, equality of values is [Qeq], and a cast between widths only
      changes the dtype tag of an array.
    - An N-D array is its backend, dtype and shape together with the map from
      multi-indices to values.  Indices and sizes are integers [Z], as in
      Python.
    - Exceptions are values of [exn]; a fallible routine returns a [result].
    - The thread pool over clusters is run sequentially, in the order of the
      cluster map; warnings are collected in a list.
    - The precision of the runtime, ambient state that [getPrecision] reads,
      is an explicit argument of the calls that read it. *)

From Stdlib Require Import String.
From Stdlib Require Import List ZArith QArith Qround Qabs Qminmax.
From Stdlib Require Import Lia Lqa Bool Permutation FinFun.
Import ListNotations.

Local Open Scope Z_scope.

(* ###################################################################### *)
(** * Exceptions *)

Inductive exn : Type :=
| AssertionError (msg : string)
| NotImplementedError
| SyntaxError
| AttributeError (name : string)
| ValueError
| KeyError.

Inductive result (A : Type) : Type :=
| Ok (a : A)
| Raise (e : exn).

Arguments Ok {A} a.
Arguments Raise {A} e.

Definition bind {A B : Type} (r : result A) (k : A -> result B) : result B :=
  match r with
  | Ok a => k a
  | Raise e => Raise e
  end.

Notation "x <- e ;; k" := (bind e (fun x => k))
  (at level 61, e at next level, right associativity).

Definition assert (b : bool) (msg : string) : result unit :=
  if b then Ok tt else Raise (AssertionError msg).

Definition is_ok {A : Type} (r : result A) : bool :=
  match r with Ok _ => true | Raise _ => false end.

(* ###################################################################### *)
(** * Numbers and ranges *)

Definition Qlt_bool (a b : Q) : bool := negb (Qle_bool b a).

(** [range(a, b)] *)
Definition zrange (a b : Z) : list Z :=
  map (fun i => a + Z.of_nat i) (seq 0 (Z.to_nat (b - a))).

(** [np.ndindex] over a shape: multi-indices in row-major order. *)
Fixpoint ndindex (shape : list Z) : list (list Z) :=
  match shape with
  | [] => [[]]
  | n :: rest => flat_map (fun i => map (cons i) (ndindex rest)) (zrange 0 n)
  end.

Definition Qsum (l : list Q) : Q := fold_right Qplus 0%Q l.


Definition Zprod (l : list Z) : Z := fold_left Z.mul l 1.

(** [l.min()] and [l.max()] of a non-empty vector. *)
Definition Qmin_list (l : list Q) : Q :=
  match l with
  | [] => 0%Q
  | a :: r => fold_left Qmin r a
  end.

Definition Qmax_list (l : list Q) : Q :=
  match l with
  | [] => 0%Q
  | a :: r => fold_left Qmax r a
  end.

Definition Zmax_list (l : list Z) : Z :=
  match l with
  | [] => 0
  | a :: r => fold_left Z.max r a
  end.

Fixpoint map2 {A B C : Type} (f : A -> B -> C) (l1 : list A) (l2 : list B)
  : list C :=
  match l1, l2 with
  | a :: r1, b :: r2 => f a b :: map2 f r1 r2
  | _, _ => []
  end.

Definition list_eqb (l1 l2 : list Z) : bool :=
  if list_eq_dec Z.eq_dec l1 l2 then true else false.

(* ###################################################################### *)
(** * Arrays *)

Inductive NDArrayInfo : Type := NUMPY | DASK | CUPY.

(** [Width] of the runtime: the machine-dependent floating-point types.
    It is the dtype of an array and the precision of the runtime. *)
Inductive Width : Type := HALF | SINGLE | DOUBLE | QUAD.

Definition Width_eqb (a b : Width) : bool :=
  match a, b with
  | HALF, HALF | SINGLE, SINGLE | DOUBLE, DOUBLE | QUAD, QUAD => true
  | _, _ => false
  end.

Record NDArray : Type := mkNDArray {
  ndi : NDArrayInfo;
  dtype : Width;
  shape : list Z;
  chunks : list (list Z);   (* block sizes per axis; DASK arrays only *)
  item : list Z -> Q
}.

Definition ndim (a : NDArray) : Z := Z.of_nat (length (shape a)).

(** [a.astype(dtype=dt)] *)
Definition astype (a : NDArray) (dt : Width) : NDArray :=
  {| ndi := ndi a; dtype := dt; shape := shape a; chunks := chunks a;
     item := item a |}.

(** [xp.zeros(sh, dtype=dt)] on the NUMPY backend. *)
Definition zeros (sh : list Z) (dt : Width) : NDArray :=
  {| ndi := NUMPY; dtype := dt; shape := sh; chunks := [];
     item := fun _ => 0%Q |}.

(** [x[:, np.newaxis]] for a 1-D array. *)
Definition newaxis (x : NDArray) : NDArray :=
  {| ndi := ndi x; dtype := dtype x;
     shape := shape x ++ [1];
     chunks := chunks x ++ [[1]];
     item := fun idx => item x (removelast idx) |}.

(** Does a multi-index address a cell of an array of the given shape? *)
Fixpoint in_shape (sh idx : list Z) : bool :=
  match sh, idx with
  | [], [] => true
  | n :: sh', i :: idx' => (0 <=? i) && (i <? n) && in_shape sh' idx'
  | _, _ => false
  end.


(* ###################################################################### *)
(** * Constructor arguments *)

(** A scalar or an iterable, as accepted by [_as_seq]. *)
Inductive arg (A : Type) : Type :=
| Scalar (a : A)
| Iterable (l : list A).

Arguments Scalar {A} a.
Arguments Iterable {A} l.

(** An axial kernel: a ufunc and its [support()]. *)
Record Kernel : Type := mkKernel {
  phi : Q -> Q;
  support : Q
}.

(** The lattice specifier [z] as given by the caller ... *)
Record LatticeArg : Type := mkLatticeArg {
  arg_start : arg Q;
  arg_stop : arg Q;
  arg_num : arg Z
}.

(** ... and in canonical form. *)
Record Lattice : Type := mkLattice {
  start : list Q;
  stop : list Q;
  num : list Z
}.

(** [**kwargs] of the constructor: [None] when a key is not given. *)
Record Kwargs : Type := mkKwargs {
  kw_max_cluster_size : option Z;
  kw_max_window_ratio : option Q;
  kw_workers : option (option Z)
}.

Record Config : Type := mkConfig {
  max_cluster_size : Z;
  max_window_ratio : Q;
  workers : option Z
}.

Definition get {A : Type} (o : option A) (default : A) : A :=
  match o with Some a => a | None => default end.

Definition _as_seq {A : Type} (x : arg A) (N : Z) : result (list A) :=
  let _x := match x with Iterable l => l | Scalar a => [a] end in
  let _x := if Z.of_nat (length _x) =? 1
            then concat (repeat _x (Z.to_nat N))   (* broadcast *)
            else _x in
  _ <- assert (Z.of_nat (length _x) =? N) ""%string ;;
  Ok _x.

(** The loop over the kernels: [s = k.support(); assert s > 0]. *)
Fixpoint check_kernel (kernel : list Kernel) : result unit :=
  match kernel with
  | [] => Ok tt
  | k :: rest =>
      let s := support k in
      _ <- assert (Qlt_bool 0 s) "[Kernel] Support must be non-zero."%string ;;
      check_kernel rest
  end.

Definition msg_lattice : string :=
  "[z] Degenerate lattice detected."%string.

(** The loop [for d in range(D)] over the canonical lattice. *)
Fixpoint check_lattice (start stop : list Q) (num : list Z) : result unit :=
  match start, stop, num with
  | alpha :: start', beta :: stop', N :: num' =>
      _ <- assert (Qle_bool alpha beta) msg_lattice ;;
      _ <- (if Qlt_bool alpha beta
            then assert (1 <=? N) msg_lattice
            else assert (N =? 1) msg_lattice) ;;
      check_lattice start' stop' num'
  | _, _, _ => Ok tt
  end.

(* ###################################################################### *)
(** * Clustering of the support points ([pyxu.math.cluster]) *)

Module cluster.

(** Position of a point along one axis. *)
Definition coord (x : list (list Q)) (d : nat) (i : nat) : Q :=
  nth d (nth i x []) 0%Q.

(** Grid cell of a point, for cells of size [bbox_dim]. *)
Definition cell (bbox_dim : list Q) (p : list Q) : list Z :=
  map2 (fun c b => Qfloor (c / b)) p bbox_dim.

(** Record point [i] under its cell; cells are kept in order of first use. *)
Fixpoint add_to (key : list Z) (i : nat) (cl : list (list Z * list nat))
  : list (list Z * list nat) :=
  match cl with
  | [] => [(key, [i])]
  | (k, l) :: rest =>
      if list_eqb k key then (k, l ++ [i]) :: rest
      else (k, l) :: add_to key i rest
  end.

(** Modelled from the spec: [grid_cluster] of [pyxu.math.cluster], which is
    not among the sources.  "Coarse bucketing: assign remaining points to a
    regular grid of cells sized 2s*max_window_ratio; each non-empty cell is a
    candidate cluster."  The result maps a cluster id to the indices (into
    [x]) of its points. *)
Definition grid_cluster (x : list (list Q)) (bbox_dim : list Q)
  : list (Z * list nat) :=
  let cells :=
    fold_left (fun acc ip => add_to (cell bbox_dim (snd ip)) (fst ip) acc)
              (combine (seq 0 (length x)) x) [] in
  combine (zrange 0 (Z.of_nat (length cells))) (map snd cells).

(** Side of the bounding box of a cluster along axis [d]. *)
Definition extent (x : list (list Q)) (c : list nat) (d : nat) : Q :=
  (Qmax_list (map (coord x d) c) - Qmin_list (map (coord x d) c))%Q.

Definition longest_axis (x : list (list Q)) (D : nat) (c : list nat) : nat :=
  fold_left (fun best d =>
               if Qlt_bool (extent x c best) (extent x c d) then d else best)
            (seq 0 D) 0%nat.

Fixpoint insert_by (key : nat -> Q) (i : nat) (l : list nat) : list nat :=
  match l with
  | [] => [i]
  | j :: r => if Qle_bool (key i) (key j) then i :: l
              else j :: insert_by key i r
  end.

Definition sort_by (key : nat -> Q) (l : list nat) : list nat :=
  fold_right (insert_by key) [] l.

(** Split at the median along the longest axis: the lower and the upper
    half of the points in coordinate order. *)
Definition split_median (x : list (list Q)) (D : nat) (c : list nat)
  : list nat * list nat :=
  let d := longest_axis x D c in
  let s := sort_by (coord x d) c in
  let h := (length s / 2)%nat in
  (firstn h s, skipn h s).

Fixpoint bisect (fuel : nat) (x : list (list Q)) (D : nat) (N_max : Z)
  (c : list nat) : list (list nat) :=
  if Z.of_nat (length c) <=? N_max then [c]
  else match fuel with
       | O => [c]
       | S fuel' =>
           let lr := split_median x D c in
           bisect fuel' x D N_max (fst lr) ++ bisect fuel' x D N_max (snd lr)
       end.

(** Modelled from the spec: [bisect_cluster] of [pyxu.math.cluster], which
    is not among the sources.  "Recursive bisection: any cluster exceeding
    max_cluster_size points is split along its longest axis at the median,
    recursively, until all clusters satisfy the cap." *)
Definition bisect_cluster (x : list (list Q)) (clusters : list (Z * list nat))
  (N_max : Z) : list (Z * list nat) :=
  let D := length (hd [] x) in
  let parts :=
    flat_map (fun c => bisect (length (snd c)) x D N_max (snd c)) clusters in
  combine (zrange 0 (Z.of_nat (length parts))) parts.

End cluster.

(* ###################################################################### *)
(** * Cluster metadata: [_build_info] *)

Record ClInfo : Type := mkClInfo {
  x_idx : list Z;      (* indices into [x] of the points of the sub-grid *)
  z_anchor : list Z;   (* lower-left corner of the sub-grid *)
  z_num : list Z       (* size of the sub-grid in each direction *)
}.

(** The rows of an (M, D) array. *)
Definition row (x : NDArray) (m : Z) : list Q :=
  map (fun d => item x [m; d]) (zrange 0 (nth 1 (shape x) 0)).

Definition rows (x : NDArray) : list (list Q) :=
  map (row x) (zrange 0 (nth 0 (shape x) 0)).

(** [np.all(a <= b)] on two vectors. *)
Definition all_le (a b : list Q) : bool :=
  forallb (fun t => t) (map2 Qle_bool a b).

(** [np.all(alpha - s <= x, axis=1) & np.all(x <= beta + s, axis=1)] *)
Definition is_active (s alpha beta : list Q) (p : list Q) : bool :=
  all_le (map2 Qminus alpha s) p && all_le p (map2 Qplus beta s).

(** [np.flatnonzero(mask)] *)
Definition flatnonzero (mask : list bool) : list Z :=
  map fst (filter snd (combine (zrange 0 (Z.of_nat (length mask))) mask)).

(** [x[mask]] *)
Definition select {A : Type} (x : list A) (mask : list bool) : list A :=
  map fst (filter snd (combine x mask)).

(** [ratio = N - 1.0; ratio[N > 1] /= (beta - alpha)[N > 1]], one axis. *)
Definition ratio (alpha beta : Q) (N : Z) : Q :=
  if 1 <? N then ((inject_Z N - 1) / (beta - alpha))%Q
  else (inject_Z N - 1)%Q.

Definition LL_idx (LL alpha beta : Q) (N : Z) : Z :=
  Z.max 0 (Qfloor ((LL - alpha) * ratio alpha beta N)).

Definition UR_idx (UR alpha beta : Q) (N : Z) : Z :=
  Z.min (Qceiling ((UR - alpha) * ratio alpha beta N)) (N - 1).

(** The body of the loop over the clusters. *)
Definition cluster_info (x : list (list Q)) (s alpha beta : list Q)
  (N : list Z) (active2global : list Z) (xi : list nat) : ClInfo :=
  let _x := map (fun i => nth i x []) xi in
  let axes := seq 0 (length s) in
  let col d := map (fun p => nth d p 0%Q) _x in
  let LL d := (Qmin_list (col d) - nth d s 0)%Q in
  let UR d := (Qmax_list (col d) + nth d s 0)%Q in
  let LLi d := LL_idx (LL d) (nth d alpha 0%Q) (nth d beta 0%Q) (nth d N 0) in
  let URi d := UR_idx (UR d) (nth d alpha 0%Q) (nth d beta 0%Q) (nth d N 0) in
  {| x_idx := map (fun i => nth i active2global 0) xi;
     z_anchor := map LLi axes;
     z_num := map (fun d => URi d - LLi d + 1) axes |}.

Definition _build_info (x : NDArray) (z : Lattice) (kernel : list Kernel)
  (kwargs : Config) : list (Z * ClInfo) :=
  let s := map support kernel in
  let alpha := start z in
  let beta := stop z in
  let N := num z in
  let active := map (is_active s alpha beta) (rows x) in
  let active2global := flatnonzero active in
  let x := select (rows x) active in
  if (length x =? 0)%nat then []
  else
    let bbox_dim := map (fun sd => (2 * sd * max_window_ratio kwargs)%Q) s in
    let clusters := cluster.grid_cluster x bbox_dim in
    let clusters := cluster.bisect_cluster x clusters (max_cluster_size kwargs) in
    map (fun c => (fst c, cluster_info x s alpha beta N active2global (snd c)))
        clusters.

(* ###################################################################### *)
(** * The operator *)

Record UniformSpread : Type := mkUniformSpread {
  dim_shape : list Z;                    (* (M,) *)
  codim_shape : list Z;                  (* (N1,...,ND) *)
  _x : NDArray;                          (* (M, D) support points *)
  _z : Lattice;
  _kernel : list Kernel;
  _enable_warnings : bool;
  _kwargs : Config;
  _cl_info : option (list (Z * ClInfo))  (* set for NUMPY points only *)
}.

Definition dim_rank (op : UniformSpread) : nat := length (dim_shape op).
Definition codim_rank (op : UniformSpread) : nat := length (codim_shape op).
Definition dim_size (op : UniformSpread) : Z := Zprod (dim_shape op).

(** Modelled from the spec: [pxrt.coerce] of [pyxu.runtime], which is not
    among the sources.  "The operator is bound to the dtype/backend of the
    constructor's points array." *)
Definition coerce (x : NDArray) : NDArray := x.

(** Modelled from the spec: the constructor of the operator base class
    [pxa.LinOp], which is not among the sources.  The spec has a sample set
    of "M points" and a count of at least 1 on every lattice axis; the base
    class asserts that both shapes hold at least one element per axis. *)
Definition LinOp_init (dim_shape codim_shape : list Z) : result unit :=
  assert (forallb (fun ax => 1 <=? ax) dim_shape
          && forallb (fun ax => 1 <=? ax) codim_shape) "".

(** [_gen_code] and the [exec] of the code it returns.  [_gen_code] looks
    the width up in a table that holds [SINGLE] and [DOUBLE] only, a
    [KeyError] for another width.  The template then receives
    ["(" + support + ",)"] where [support] joins one term per axis with
    commas; for [dim_rank = 0] this is the text "(,)", which Python refuses
    to compile. *)
Definition exec_gen_code (dim_rank : Z) (dt : Width) : result unit :=
  match dt with
  | SINGLE | DOUBLE => if dim_rank =? 0 then Raise SyntaxError else Ok tt
  | HALF | QUAD => Raise KeyError
  end.

(** [UniformSpread.__init__] *)
Definition __init__ (x : NDArray) (z : LatticeArg) (kernel : arg Kernel)
  (enable_warnings : bool) (kwargs : Kwargs) : result UniformSpread :=
  _ <- assert ((ndim x =? 1) || (ndim x =? 2)) "" ;;
  let x := if ndim x =? 1 then newaxis x else x in
  let M := nth 0 (shape x) 0 in
  let D := nth 1 (shape x) 0 in
  kernel <- _as_seq kernel D ;;
  _ <- check_kernel kernel ;;
  z_start <- _as_seq (arg_start z) D ;;
  z_stop <- _as_seq (arg_stop z) D ;;
  z_num <- _as_seq (arg_num z) D ;;
  _ <- check_lattice z_start z_stop z_num ;;
  let z := {| start := z_start; stop := z_stop; num := z_num |} in
  let kwargs :=
    {| max_cluster_size := get (kw_max_cluster_size kwargs) 10000;
       max_window_ratio := get (kw_max_window_ratio kwargs) 100%Q;
       workers := get (kw_workers kwargs) (Some 2) |} in
  _ <- assert (0 <? max_cluster_size kwargs) "" ;;
  _ <- assert (Qle_bool 3 (max_window_ratio kwargs)) "" ;;
  _ <- LinOp_init [M] z_num ;;
  let x := coerce x in
  let self cl_info :=
    {| dim_shape := [M]; codim_shape := z_num;
       _x := x; _z := z; _kernel := kernel;
       _enable_warnings := enable_warnings; _kwargs := kwargs;
       _cl_info := cl_info |} in
  match ndi x with
  | DASK =>
      _ <- assert (list_eqb (nth 1 (chunks x) []) [D])
             "[x] Chunking along last dimension unsupported." ;;
      Ok (self None)
  | CUPY => Raise NotImplementedError
  | NUMPY =>
      _ <- exec_gen_code D (dtype x) ;;
      Ok (self (Some (_build_info x z kernel kwargs)))
  end.

(* ###################################################################### *)
(** * Lattice coordinates: [_lattice] *)

(** Bound of a slice of a length-[N] axis. *)
Definition slice_bound (N i : Z) : Z :=
  if i <? 0 then Z.max 0 (i + N) else Z.min i N.

(** [xp.arange(N)[_roi]] *)
Definition arange_roi (N : Z) (roi : option (Z * Z)) : list Z :=
  match roi with
  | None => zrange 0 N
  | Some (a, b) => zrange (slice_bound N a) (slice_bound N b)
  end.

(** [step = 0 if (N == 1) else (beta - alpha) / (N - 1)] *)
Definition lattice_step (alpha beta : Q) (N : Z) : Q :=
  if N =? 1 then 0%Q else ((beta - alpha) / inject_Z (N - 1))%Q.

Definition lattice_axis (alpha beta : Q) (N : Z) (roi : option (Z * Z))
  : list Q :=
  let step := lattice_step alpha beta N in
  map (fun n => (alpha + inject_Z n * step)%Q) (arange_roi N roi).

(** The 1-D lattice nodes per axis ([flatten=True]). *)
Definition _lattice (op : UniformSpread) (roi : option (list (Z * Z)))
  : list (list Q) :=
  map (fun d =>
         lattice_axis (nth d (start (_z op)) 0%Q) (nth d (stop (_z op)) 0%Q)
                      (nth d (num (_z op)) 0)
                      (match roi with
                       | None => None
                       | Some r => Some (nth d r (0, 0))
                       end))
      (seq 0 (codim_rank op)).

(* ###################################################################### *)
(** * Generated kernels: [find_bounds], [f_spread], [f_interpolate] *)

Fixpoint find_bounds_loop (x : list Q) (N : Z) (range : list Z)
  (a : Z) (a_found : bool) (b : Z) (b_found : bool) : Z * Z :=
  match range with
  | [] => (a, b)
  | i :: range' =>
      let lhs := nth (Z.to_nat i) x 0%Q in
      let rhs := nth (Z.to_nat (N - 1 - i)) x 0%Q in
      let '(a, a_found) :=
        if negb a_found && Qlt_bool 0 (Qabs lhs) then (i, true)
        else (a, a_found) in
      let '(b, b_found) :=
        if negb b_found && Qlt_bool 0 (Qabs rhs) then (N - i, true)
        else (b, b_found) in
      if a_found && b_found then (a, b)   (* early exit *)
      else find_bounds_loop x N range' a a_found b b_found
  end.

Definition find_bounds (x : list Q) : Z * Z :=
  let N := Z.of_nat (length x) in
  find_bounds_loop x N (zrange 0 N) N false N false.

(** [kernel[m, d, : Sd]] and [kernel[m, d, i]] of an (M, D, S_max) array. *)
Definition kernel_row (kernel : list (list (list Q))) (m : Z) (d : nat)
  : list Q :=
  nth d (nth (Z.to_nat m) kernel []) [].

Definition kernel_at (kernel : list (list (list Q))) (m : Z) (d : nat) (i : Z)
  : Q :=
  nth (Z.to_nat i) (kernel_row kernel m d) 0%Q.

(** [a[i] = v] on the map from indices to values. *)
Definition upd (a : list Z -> Q) (i : list Z) (v : Q) : list Z -> Q :=
  fun j => if list_eqb j i then v else a j.

(** The code shared by both kernels: bounds of the non-zero segment of the
    weights of point [m] on every axis, then the multi-indices [idx] of the
    box they span together with the weight [k] of each. *)
Definition bounds (kernel : list (list (list Q))) (S : list Z) (m : Z)
  : list (Z * Z) :=
  map (fun d => find_bounds (firstn (Z.to_nat (nth d S 0)) (kernel_row kernel m d)))
      (seq 0 (length S)).

Definition weight (kernel : list (list (list Q))) (D : nat) (m : Z)
  (idx : list Z) : Q :=
  fold_left (fun k d => (k * kernel_at kernel m d (nth d idx 0%Z))%Q) (seq 0 D) 1%Q.

Definition box (kernel : list (list (list Q))) (S : list Z) (m : Z)
  : list (list Z) :=
  let lb := map fst (bounds kernel S m) in
  let ub := map snd (bounds kernel S m) in
  let support := map2 Z.sub ub lb in
  map (fun offset => map2 Z.add lb offset) (ndindex support).

(** [f_spread(w, kernel, out)] with [w] of shape (Ns, M) and [out] of shape
    (Ns, S1,...,SD).  Row [ns] of the two reshaped views is addressed by the
    leading multi-index it stands for; [stack] lists these in row order. *)
Definition f_spread (stack : list (list Z)) (M : Z) (S : list Z)
  (w : list Z -> Q) (kernel : list (list (list Q))) (out : list Z -> Q)
  : list Z -> Q :=
  let D := length S in
  fold_left (fun out m =>
    fold_left (fun out idx =>
      let k := weight kernel D m idx in
      fold_left (fun out ns =>
                   upd out (ns ++ idx) (out (ns ++ idx) + k * w (ns ++ [m]))%Q)
                stack out)
      (box kernel S m) out)
    (zrange 0 M) out.

(** [f_interpolate(v, kernel, out)] with [v] of shape (Ns, S1,...,SD) and
    [out] of shape (Ns, M). *)
Definition f_interpolate (stack : list (list Z)) (M : Z) (S : list Z)
  (v : list Z -> Q) (kernel : list (list (list Q))) (out : list Z -> Q)
  : list Z -> Q :=
  let D := length S in
  fold_left (fun out m =>
    fold_left (fun out idx =>
      let k := weight kernel D m idx in
      fold_left (fun out ns =>
                   upd out (ns ++ [m]) (out (ns ++ [m]) + k * v (ns ++ idx))%Q)
                stack out)
      (box kernel S m) out)
    (zrange 0 M) out.

(* ###################################################################### *)
(** * Methods *)

Inductive Warning : Type :=
| PrecisionWarning (msg : string).

Definition _cast_warn (op : UniformSpread) (arr : NDArray)
  : NDArray * list Warning :=
  if Width_eqb (dtype arr) (dtype (_x op)) then (arr, [])
  else
    (astype arr (dtype (_x op)),
     if _enable_warnings op
     then [PrecisionWarning
             "Computation may not be performed at the requested precision."%string]
     else []).

(** [slice(n0, n0 + num)] per axis. *)
Definition roi_of (cl_info : ClInfo) : list (Z * Z) :=
  map2 (fun n0 num => (n0, n0 + num)) (z_anchor cl_info) (z_num cl_info).

Fixpoint in_roi (roi : list (Z * Z)) (n : list Z) : bool :=
  match roi, n with
  | [], [] => true
  | (a, b) :: roi', i :: n' => (a <=? i) && (i <? b) && in_roi roi' n'
  | _, _ => false
  end.

Definition no_kernel : Kernel := {| phi := fun _ => 0%Q; support := 0%Q |}.

(** The (Mq, D, S_max) array of 1-D kernel weights per support point:
    [kernel[:, d, : S[d]] = self._kernel[d](lattice[d] - x[:, [d]])] on a
    zero array. *)
Definition kernel_weights (op : UniformSpread) (lattice : list (list Q))
  (x : list (list Q)) (D : nat) (S : list Z) : list (list (list Q)) :=
  let S_max := Zmax_list S in
  map (fun p =>
         map (fun d =>
                let vals :=
                  map (fun l => phi (nth d (_kernel op) no_kernel)
                                    (l - nth d p 0)%Q)
                      (nth d lattice []) in
                vals ++ repeat 0%Q (Z.to_nat S_max - length vals))
             (seq 0 D))
      x.

Definition set_item (a : NDArray) (f : list Z -> Q) : NDArray :=
  {| ndi := ndi a; dtype := dtype a; shape := shape a; chunks := chunks a;
     item := f |}.

(** [w[..., x_idx]] *)
Definition take_last (a : list Z -> Q) (x_idx : list Z) : list Z -> Q :=
  fun idx => a (removelast idx ++ [nth (Z.to_nat (last idx 0)) x_idx 0]).

Definition _spread (op : UniformSpread) (w out : NDArray) (cl_info : ClInfo)
  : NDArray :=
  let roi := roi_of cl_info in
  let lattice := _lattice op (Some roi) in
  let x_idx := x_idx cl_info in
  let x := map (row (_x op)) x_idx in
  let w' := take_last (item w) x_idx in
  let Mq := Z.of_nat (length x_idx) in
  let D := Z.to_nat (nth 1 (shape (_x op)) 0) in
  let S := z_num cl_info in
  let kernel := kernel_weights op lattice x D S in
  let v := f_spread (ndindex (removelast (shape w))) Mq S w' kernel
                    (fun _ => 0%Q) in
  (* out[..., *roi] += v *)
  let lead := (length (shape out) - length roi)%nat in
  set_item out
    (fun idx =>
       let s := firstn lead idx in
       let n := skipn lead idx in
       if in_roi roi n
       then (item out idx + v (s ++ map2 Z.sub n (z_anchor cl_info)))%Q
       else item out idx).

Definition _interpolate (op : UniformSpread) (v out : NDArray)
  (cl_info : ClInfo) : NDArray :=
  let roi := roi_of cl_info in
  let lattice := _lattice op (Some roi) in
  let x_idx := x_idx cl_info in
  let x := map (row (_x op)) x_idx in
  let D := Z.to_nat (nth 1 (shape (_x op)) 0) in
  (* v[..., *roi] *)
  let lead := (length (shape v) - length roi)%nat in
  let v' := fun idx =>
              item v (firstn lead idx
                      ++ map2 Z.add (skipn lead idx) (z_anchor cl_info)) in
  let Mq := Z.of_nat (length x_idx) in
  let S := z_num cl_info in
  let kernel := kernel_weights op lattice x D S in
  let w := f_interpolate (ndindex (firstn lead (shape v))) Mq S v' kernel
                         (fun _ => 0%Q) in
  (* out[..., x_idx] = w *)
  set_item out
    (fold_left (fun o j =>
                  fun idx =>
                    if last idx 0 =? nth (Z.to_nat j) x_idx 0
                    then w (removelast idx ++ [j])
                    else o idx)
               (zrange 0 Mq) (item out)).

(** [cf.ThreadPoolExecutor(max_workers=...)] of the standard library: a
    number of workers that is not positive is a [ValueError]; [None] lets
    the pool choose. *)
Definition ThreadPoolExecutor (max_workers : option Z) : result unit :=
  match max_workers with
  | Some n => if n <=? 0 then Raise ValueError else Ok tt
  | None => Ok tt
  end.

(** A call returns the warnings it emitted and its outcome.  The outcome is
    [None] when the input is not a NUMPY array: chunked (DASK) inputs are
    handed to the [blockwise] primitive of the array backend, which this
    development does not follow.

    [apply_wrapped] and [adjoint_wrapped] are the two methods as written,
    [apply.__wrapped__] and [adjoint.__wrapped__]; [apply] and [adjoint]
    are what a caller gets, under [enforce_precision]. *)
Definition apply_wrapped (op : UniformSpread) (arr : NDArray)
  : list Warning * option (result NDArray) :=
  let '(arr, warns) := _cast_warn op arr in
  let sh := firstn (length (shape arr) - dim_rank op) (shape arr) in
  (warns,
   match ndi arr with
   | NUMPY =>
       let out := zeros (sh ++ codim_shape op) (dtype arr) in
       Some (_ <- ThreadPoolExecutor (workers (_kwargs op)) ;;
             match _cl_info op with
             | None => Raise (AttributeError "_cl_info")
             | Some cl =>
                 Ok (fold_left (fun out c => _spread op arr out (snd c)) cl out)
             end)
   | _ => None
   end).

Definition adjoint_wrapped (op : UniformSpread) (arr : NDArray)
  : list Warning * option (result NDArray) :=
  let '(arr, warns) := _cast_warn op arr in
  let sh := firstn (length (shape arr) - codim_rank op) (shape arr) in
  (warns,
   match ndi arr with
   | NUMPY =>
       let out := zeros (sh ++ [dim_size op]) (dtype arr) in
       Some (_ <- ThreadPoolExecutor (workers (_kwargs op)) ;;
             match _cl_info op with
             | None => Raise (AttributeError "_cl_info")
             | Some cl =>
                 Ok (fold_left (fun out c => _interpolate op arr out (snd c))
                               cl out)
             end)
   | _ => None
   end).

(** The decorator [enforce_precision(i="arr")] of the runtime
    (pycsou/runtime.py), on a method that takes an array and returns one:
    [dtype = getPrecision().value], the argument becomes
    [arr.astype(dtype, copy=False)], and so does what the method returns.
    [width] is the precision of the runtime when the call is made. *)
Definition enforce_precision (width : Width)
  (func : NDArray -> list Warning * option (result NDArray)) (arr : NDArray)
  : list Warning * option (result NDArray) :=
  let arr := astype arr width in
  let (warns, out) := func arr in
  (warns,
   match out with
   | Some (Ok out) => Some (Ok (astype out width))
   | other => other
   end).

Definition apply (width : Width) (op : UniformSpread) (arr : NDArray)
  : list Warning * option (result NDArray) :=
  enforce_precision width (apply_wrapped op) arr.

Definition adjoint (width : Width) (op : UniformSpread) (arr : NDArray)
  : list Warning * option (result NDArray) :=
  enforce_precision width (adjoint_wrapped op) arr.

(** Entry [(n1,...,nD, m)] of the dense matrix: the running product
    [A *= _phi(_l[..., np.newaxis] - _x)] over the axes. *)
Definition dense_entry (op : UniformSpread) (n : list Z) (m : Z) : Q :=
  let lattice := _lattice op None in
  fold_left (fun A d =>
               (A * phi (nth d (_kernel op) no_kernel)
                        (nth (Z.to_nat (nth d n 0%Z)) (nth d lattice []) 0
                         - item (_x op) [m; Z.of_nat d]))%Q)
            (seq 0 (codim_rank op)) 1%Q.


(* ###################################################################### *)
(** * Chunked evaluation: [_blockwise_spread], [_blockwise_interpolate] *)

(** [**self._kwargs]: every key of the stored configuration is given. *)
Definition as_kwargs (c : Config) : Kwargs :=
  {| kw_max_cluster_size := Some (max_cluster_size c);
     kw_max_window_ratio := Some (max_window_ratio c);
     kw_workers := Some (workers c) |}.

(** Both routines start alike.  From the bounds [z_spec] of a chunk of the
    lattice, one (start, stop) pair of node indices per axis, they take the
    first node [_l[0]], the last node [_l[-1]] and the number of nodes
    [_l.size] of [_lattice(roi=z_spec)] on every axis.  [None] stands for
    the [IndexError] of [_l[0]] on an axis without nodes. *)
Definition chunk_z (op : UniformSpread) (z_spec : list (Z * Z))
  : option LatticeArg :=
  let lattice := _lattice op (Some z_spec) in
  if forallb (fun _l => negb (length _l =? 0)%nat) lattice
  then Some {| arg_start := Iterable (map (fun _l => nth 0 _l 0%Q) lattice);
               arg_stop := Iterable (map (fun _l => last _l 0%Q) lattice);
               arg_num := Iterable (map (fun _l => Z.of_nat (length _l))
                                        lattice) |}
  else None.

(** They then build the operator of the chunk:
    [UniformSpread(x=x, z=z_spec, kernel=self._kernel,
                   enable_warnings=self._enable_warnings, **self._kwargs)]. *)
Definition chunk_op (op : UniformSpread) (x : NDArray)
  (z_spec : list (Z * Z)) : option (result UniformSpread) :=
  match chunk_z op z_spec with
  | None => None
  | Some z =>
      Some (__init__ x z (Iterable (_kernel op)) (_enable_warnings op)
                     (as_kwargs (_kwargs op)))
  end.

(** [np.cumsum] *)
Fixpoint cumsum_from (acc : Z) (l : list Z) : list Z :=
  match l with
  | [] => []
  | a :: r => (acc + a) :: cumsum_from (acc + a) r
  end.

Definition cumsum (l : list Z) : list Z := cumsum_from 0 l.

(** The bounds of the chunks, as [apply] and [adjoint] compute them on a
    DASK input from the chunk sizes [z_chunks] of the lattice axes:
    [z_bcount = [len(chks) for chks in z_chunks]],
    [z_bounds = [np.r_[0, chks].cumsum() for chks in z_chunks]] and the
    (Bz1,...,BzD, D, 2) array [z_spec], filled by the loop
    over the indices [*c_idx, d, i] of [np.ndindex] on its shape. *)
Definition z_bcount (z_chunks : list (list Z)) : list Z :=
  map (fun chks => Z.of_nat (length chks)) z_chunks.

Definition z_bounds (z_chunks : list (list Z)) : list (list Z) :=
  map (fun chks => cumsum (0 :: chks)) z_chunks.

Definition z_spec (codim_rank : nat) (z_chunks : list (list Z))
  : list Z -> Z :=
  let z_bounds := z_bounds z_chunks in
  fold_left (fun z_spec idx =>
               let c_idx := firstn (length idx - 2) idx in
               let d := nth (length idx - 2) idx 0 in
               let i := nth (length idx - 1) idx 0 in
               fun j =>
                 if list_eqb j idx
                 then nth (Z.to_nat (nth (Z.to_nat d) c_idx 0 + i))
                          (nth (Z.to_nat d) z_bounds []) 0
                 else z_spec j)
            (ndindex (z_bcount z_chunks ++ [Z.of_nat codim_rank; 2]))
            (fun _ => 0).

(** The block of [z_spec] at block index [c_idx], chunked as
    [(1,) * codim_rank + (codim_rank, 2)], once reduced to its (D, 2) rows
    by [z_spec[(0,) * self.codim_rank]]. *)
Definition z_spec_block (z_spec : list Z -> Z) (codim_rank : nat)
  (c_idx : list Z) : list (Z * Z) :=
  map (fun d => (z_spec (c_idx ++ [Z.of_nat d; 0]),
                 z_spec (c_idx ++ [Z.of_nat d; 1])))
      (seq 0 codim_rank).

(** [_blockwise_spread(x, w, z_spec)]: [op.apply(w)[..., np.newaxis]],
    called under the precision [width] of the runtime.  The outer [None] is
    the [IndexError] above; the inner one is that of [apply]. *)
Definition _blockwise_spread (width : Width) (op : UniformSpread)
  (x w : NDArray) (z_spec : list (Z * Z))
  : option (result (list Warning * option (result NDArray))) :=
  match chunk_op op x z_spec with
  | None => None
  | Some r =>
      Some (sub <- r ;;
            let (warns, v) := apply width sub w in
            Ok (warns,
                match v with
                | Some (Ok v) => Some (Ok (newaxis v))
                | other => other
                end))
  end.

(** [_blockwise_interpolate(x, v, z_spec)]: [op.adjoint(v)[..., *expand]]
    with one new axis per lattice axis. *)
Definition _blockwise_interpolate (width : Width) (op : UniformSpread)
  (x v : NDArray) (z_spec : list (Z * Z))
  : option (result (list Warning * option (result NDArray))) :=
  match chunk_op op x z_spec with
  | None => None
  | Some r =>
      Some (sub <- r ;;
            let (warns, w) := adjoint width sub v in
            Ok (warns,
                match w with
                | Some (Ok w) => Some (Ok (Nat.iter (codim_rank op) newaxis w))
                | other => other
                end))
  end.

(* ###################################################################### *)
(** * Vocabulary of the statements *)

(** The elements an argument stands for, and its canonical form: what
    [_as_seq] returns when its assertion holds. *)
Definition elems {A : Type} (x : arg A) : list A :=
  match x with Iterable l => l | Scalar a => [a] end.

Definition canon {A : Type} (x : arg A) (N : Z) : list A :=
  if Z.of_nat (length (elems x)) =? 1
  then concat (repeat (elems x) (Z.to_nat N))
  else elems x.

(** What the lattice loop accepts on one axis. *)
Definition axis_ok (alpha beta : Q) (N : Z) : Prop :=
  (alpha <= beta)%Q /\ ((alpha < beta)%Q -> 1 <= N) /\
  ((alpha == beta)%Q -> N = 1).

(** The points array once [__init__] has put it in (M, D) form. *)
Definition canon_x (x : NDArray) : NDArray :=
  if ndim x =? 1 then newaxis x else x.

Definition defaults (kwargs : Kwargs) : Config :=
  {| max_cluster_size := get (kw_max_cluster_size kwargs) 10000;
     max_window_ratio := get (kw_max_window_ratio kwargs) 100%Q;
     workers := get (kw_workers kwargs) (Some 2) |}.

(** An argument of [_as_seq] has an admissible length: one element, which
    is broadcast, or one element per axis. *)
Definition len_ok {A : Type} (a : arg A) (D : Z) : Prop :=
  (length (elems a) = 1%nat /\ 0 <= D) \/ Z.of_nat (length (elems a)) = D.

(** What the last part of [__init__] requires of the backend of [x]. *)
Definition backend_ok (x : NDArray) (D : Z) : Prop :=
  match ndi x with
  | NUMPY => (dtype x = SINGLE \/ dtype x = DOUBLE) /\ D <> 0
  | DASK => nth 1 (chunks x) [] = [D]
  | CUPY => False
  end.

(** Everything [__init__] requires of its arguments. *)
Definition well_formed (x : NDArray) (z : LatticeArg) (kernel : arg Kernel)
  (kwargs : Kwargs) : Prop :=
  let D := nth 1 (shape (canon_x x)) 0 in
  (ndim x = 1 \/ ndim x = 2) /\
  len_ok kernel D /\
  (forall k, In k (canon kernel D) -> (0 < support k)%Q) /\
  len_ok (arg_start z) D /\ len_ok (arg_stop z) D /\ len_ok (arg_num z) D /\
  (forall d, (d < Z.to_nat D)%nat ->
     axis_ok (nth d (canon (arg_start z) D) 0%Q)
             (nth d (canon (arg_stop z) D) 0%Q)
             (nth d (canon (arg_num z) D) 0)) /\
  0 < max_cluster_size (defaults kwargs) /\
  (3 <= max_window_ratio (defaults kwargs))%Q /\
  1 <= nth 0 (shape (canon_x x)) 0 /\
  backend_ok (canon_x x) D.

(** The configuration errors the specification lists: a lattice axis with
    start > stop or with a count other than 1 when start = stop, a kernel
    with non-positive support, [max_cluster_size <= 0] or
    [max_window_ratio < 3]. *)
Definition spec_malformed (x : NDArray) (z : LatticeArg) (kernel : arg Kernel)
  (kwargs : Kwargs) : Prop :=
  let D := nth 1 (shape (canon_x x)) 0 in
  (exists d, (d < Z.to_nat D)%nat /\
     let alpha := nth d (canon (arg_start z) D) 0%Q in
     let beta := nth d (canon (arg_stop z) D) 0%Q in
     let N := nth d (canon (arg_num z) D) 0 in
     (beta < alpha)%Q \/ ((alpha == beta)%Q /\ N <> 1)) \/
  (exists k, In k (canon kernel D) /\ (support k <= 0)%Q) \/
  max_cluster_size (defaults kwargs) <= 0 \/
  (max_window_ratio (defaults kwargs) < 3)%Q.

(** The operator [__init__] returns when it returns one. *)
Definition built (x : NDArray) (z : LatticeArg) (kernel : arg Kernel)
  (enable_warnings : bool) (kwargs : Kwargs) : UniformSpread :=
  let x := canon_x x in
  let D := nth 1 (shape x) 0 in
  let z := {| start := canon (arg_start z) D; stop := canon (arg_stop z) D;
              num := canon (arg_num z) D |} in
  let kernel := canon kernel D in
  {| dim_shape := [nth 0 (shape x) 0]; codim_shape := num z;
     _x := x; _z := z; _kernel := kernel;
     _enable_warnings := enable_warnings; _kwargs := defaults kwargs;
     _cl_info := match ndi x with
                 | NUMPY => Some (_build_info x z kernel (defaults kwargs))
                 | _ => None
                 end |}.

(** The point indices held by the clusters, cluster after cluster. *)
Definition members (info : list (Z * ClInfo)) : list Z :=
  concat (map (fun c => x_idx (snd c)) info).

(** Is support point [m] of the operator active, as [_build_info] tests? *)
Definition active (op : UniformSpread) (m : Z) : bool :=
  is_active (map support (_kernel op)) (start (_z op)) (stop (_z op))
            (row (_x op) m).

(** Coordinate of lattice node [n] along axis [d], read off [_lattice]. *)
Definition node (op : UniformSpread) (d : nat) (n : Z) : Q :=
  nth (Z.to_nat n) (nth d (_lattice op None) []) 0%Q.

(** Support point [m] lies within the reach of the lattice: inside
    [alpha_d - s_d, beta_d + s_d] on every axis. *)
Definition in_reach (op : UniformSpread) (m : Z) : Prop :=
  forall d, (d < codim_rank op)%nat ->
    let sd := support (nth d (_kernel op) no_kernel) in
    (nth d (start (_z op)) 0 - sd <= item (_x op) [m; Z.of_nat d])%Q /\
    (item (_x op) [m; Z.of_nat d] <= nth d (stop (_z op)) 0 + sd)%Q.

(** What [__init__] establishes about the operator it returns. *)
Record wf_op (op : UniformSpread) : Prop := mk_wf_op {
  wf_shape_x :
    shape (_x op) = [nth 0 (shape (_x op)) 0; nth 1 (shape (_x op)) 0];
  wf_dim : dim_shape op = [nth 0 (shape (_x op)) 0];
  wf_codim : codim_shape op = num (_z op);
  wf_rank : Z.of_nat (codim_rank op) = nth 1 (shape (_x op)) 0;
  wf_len_start : length (start (_z op)) = codim_rank op;
  wf_len_stop : length (stop (_z op)) = codim_rank op;
  wf_len_kernel : length (_kernel op) = codim_rank op;
  wf_support : forall k, In k (_kernel op) -> (0 < support k)%Q;
  wf_axis : forall d, (d < codim_rank op)%nat ->
              axis_ok (nth d (start (_z op)) 0%Q) (nth d (stop (_z op)) 0%Q)
                      (nth d (num (_z op)) 0);
  wf_cluster_size : 0 < max_cluster_size (_kwargs op);
  wf_window_ratio : (3 <= max_window_ratio (_kwargs op))%Q;
  wf_cl_info :
    ndi (_x op) = NUMPY ->
    _cl_info op
    = Some (_build_info (_x op) (_z op) (_kernel op) (_kwargs op)) /\
    (0 < codim_rank op)%nat
}.

(** The points of cluster [cl] of operator [op] along axis [d]. *)
Definition column (op : UniformSpread) (cl : ClInfo) (d : nat) : list Q :=
  map (fun g => item (_x op) [g; Z.of_nat d]) (x_idx cl).

(** The entries of a vector outside the segment [a, b) vanish. *)
Definition zero_outside (x : list Q) (ab : Z * Z) : Prop :=
  forall i, 0 <= i < Z.of_nat (length x) -> ~ (fst ab <= i < snd ab) ->
            (nth (Z.to_nat i) x 0 == 0)%Q.

(** Entry of the linear map restricted to the window of a cluster: the
    dense entry at the lattice nodes of the window, nothing elsewhere. *)
Definition window_entry (op : UniformSpread) (cl : ClInfo) (n : list Z)
  (g : Z) : Q :=
  if in_roi (roi_of cl) n then dense_entry op n g else 0%Q.

(** Every axial kernel vanishes outside [-s, s], its declared support. *)
Definition compact_kernels (op : UniformSpread) : Prop :=
  forall d t, (d < codim_rank op)%nat ->
    let k := nth d (_kernel op) no_kernel in
    (t < - support k \/ support k < t)%Q -> (phi k t == 0)%Q.

(** The arrays [apply_wrapped] and [adjoint_wrapped] return on a NUMPY
    input with leading (stacking) shape [sh], for the cluster map [info]. *)
Definition apply_out (op : UniformSpread) (info : list (Z * ClInfo))
  (sh : list Z) (arr : NDArray) : NDArray :=
  fold_left (fun out c => _spread op (fst (_cast_warn op arr)) out (snd c))
            info
            (zeros (sh ++ codim_shape op) (dtype (fst (_cast_warn op arr)))).

Definition adjoint_out (op : UniformSpread) (info : list (Z * ClInfo))
  (sh : list Z) (arr : NDArray) : NDArray :=
  fold_left (fun out c => _interpolate op (fst (_cast_warn op arr)) out (snd c))
            info
            (zeros (sh ++ [dim_size op]) (dtype (fst (_cast_warn op arr)))).

(** The bounds are those of the non-zero segment: both are [N] when
    nothing was found, and otherwise the entries at [a] and at [b - 1] are
    non-zero. *)
Definition tight_bounds (x : list Q) (ab : Z * Z) : Prop :=
  let N := Z.of_nat (length x) in
  (fst ab = N /\ snd ab = N) \/
  (0 <= fst ab < N /\ 0 < snd ab <= N /\
   ~ (nth (Z.to_nat (fst ab)) x 0 == 0)%Q /\
   ~ (nth (Z.to_nat (snd ab - 1)) x 0 == 0)%Q).

(** [l[a:b]] for a Python slice with bounds [a] and [b]. *)
Definition py_slice {A : Type} (l : list A) (ab : Z * Z) : list A :=
  let N := Z.of_nat (length l) in
  let a := slice_bound N (fst ab) in
  let b := slice_bound N (snd ab) in
  firstn (Z.to_nat (b - a)) (skipn (Z.to_nat a) l).

(** [a * u + b * v], elementwise, for two arrays of one shape. *)
Definition lincomb (a : Q) (u : NDArray) (b : Q) (v : NDArray) : NDArray :=
  set_item u (fun idx => (a * item u idx + b * item v idx)%Q).

(** [arr[s]]: the sub-array at the leading multi-index [s]. *)
Definition take_lead (arr : NDArray) (s : list Z) : NDArray :=
  {| ndi := ndi arr; dtype := dtype arr;
     shape := skipn (length s) (shape arr);
     chunks := skipn (length s) (chunks arr);
     item := fun idx => item arr (s ++ idx) |}.

(** Every axial kernel takes equal values at equal rationals. *)
Definition extensional_kernels (op : UniformSpread) : Prop :=
  forall d t t', (d < codim_rank op)%nat -> (t == t')%Q ->
    (phi (nth d (_kernel op) no_kernel) t
     == phi (nth d (_kernel op) no_kernel) t')%Q.

(** [z_spec] bounds a chunk of the lattice of [op] that holds at least one
    node on every axis. *)
Definition chunk_ok (op : UniformSpread) (z_spec : list (Z * Z)) : Prop :=
  forall d, (d < codim_rank op)%nat ->
    0 <= fst (nth d z_spec (0, 0)) < snd (nth d z_spec (0, 0)) /\
    snd (nth d z_spec (0, 0)) <= nth d (codim_shape op) 0.

(** Number of nodes of the chunk per axis. *)
Definition chunk_shape (op : UniformSpread) (z_spec : list (Z * Z))
  : list Z :=
  map (fun d => snd (nth d z_spec (0, 0)) - fst (nth d z_spec (0, 0)))
      (seq 0 (codim_rank op)).

(** Product of the axial kernels between node [n] of the chunk, node
    [start + n] of the lattice of [op], and point [m] of the array [x]. *)
Definition chunk_entry (op : UniformSpread) (x : NDArray)
  (z_spec : list (Z * Z)) (n : list Z) (m : Z) : Q :=
  fold_left (fun A d =>
               (A * phi (nth d (_kernel op) no_kernel)
                        (node op d (fst (nth d z_spec (0%Z, 0%Z)) + nth d n 0%Z)
                         - item x [m; Z.of_nat d]))%Q)
            (seq 0 (codim_rank op)) 1%Q.

Definition Zsum (l : list Z) : Z := fold_right Z.add 0 l.

(** The chunk sizes [z_chunks] are those of an array whose last axes are
    the lattice axes of [op]: positive, and summing to [N_d] on axis [d]. *)
Definition chunks_ok (op : UniformSpread) (z_chunks : list (list Z)) : Prop :=
  length z_chunks = codim_rank op /\
  forall d, (d < codim_rank op)%nat ->
    (forall c, In c (nth d z_chunks []) -> 0 < c) /\
    Zsum (nth d z_chunks []) = nth d (codim_shape op) 0.

(** The [workers] setting lets the thread pool start: it is [None] or
    positive. *)
Definition workers_ok (op : UniformSpread) : Prop :=
  match workers (_kwargs op) with Some n => 0 < n | None => True end.

(** [round], to the nearest integer and to the even one on a tie. *)
Definition round (q : Q) : Z :=
  let f := Qfloor q in
  let r := (q - inject_Z f)%Q in
  if Qlt_bool r (1 # 2) then f
  else if Qlt_bool (1 # 2) r then f + 1
  else if Z.even f then f else f + 1.

(** The window bound as the specification words it:
    [round((coord - alpha) / step)] clipped to [0, N - 1]. *)
Definition spec_window_idx (coord alpha beta : Q) (N : Z) : Z :=
  Z.min (Z.max 0 (round ((coord - alpha) / lattice_step alpha beta N))) (N - 1).

(* ###################################################################### *)
(** * Sample inputs *)

(** The triangular kernel of radius 1. *)
Definition tri : Kernel :=
  {| phi := fun t => Qmax 0 (1 - Qabs t); support := 1%Q |}.

(** A 1-D array holding the values of a list. *)
Definition vec (xp : NDArrayInfo) (dt : Width) (l : list Q) : NDArray :=
  {| ndi := xp; dtype := dt; shape := [Z.of_nat (length l)]; chunks := [];
     item := fun idx => nth (Z.to_nat (nth 0 idx 0)) l 0%Q |}.

(** A 2-D array holding the rows of a list of lists with [D] columns. *)
Definition mat (xp : NDArrayInfo) (dt : Width) (D : Z) (l : list (list Q))
  : NDArray :=
  {| ndi := xp; dtype := dt; shape := [Z.of_nat (length l); D]; chunks := [];
     item := fun idx => nth (Z.to_nat (nth 1 idx 0))
                            (nth (Z.to_nat (nth 0 idx 0)) l []) 0%Q |}.

Definition lattice1 (a b : Q) (n : Z) : LatticeArg :=
  {| arg_start := Scalar a; arg_stop := Scalar b; arg_num := Scalar n |}.

Definition no_kwargs : Kwargs :=
  {| kw_max_cluster_size := None; kw_max_window_ratio := None;
     kw_workers := None |}.

(** [workers=n], the other options left to their defaults. *)
Definition with_workers (n : Z) : Kwargs :=
  {| kw_max_cluster_size := None; kw_max_window_ratio := None;
     kw_workers := Some (Some n) |}.

(** A DASK vector of two points in one chunk. *)
Definition vec_dask : NDArray :=
  {| ndi := DASK; dtype := DOUBLE; shape := [2]; chunks := [[2]];
     item := fun idx => nth (Z.to_nat (nth 0 idx 0)) [1#2; 5#2]%Q 0%Q |}.

(** The operator of the worked example: triangular kernel, lattice
    0, 1, 2, 3, 4 and the two points 1/2 and 5/2. *)
Definition op_tri : UniformSpread :=
  built (vec NUMPY DOUBLE [1#2; 5#2]%Q) (lattice1 0 4 5) (Scalar tri) true
        no_kwargs.

(* ###################################################################### *)
(** * Construction *)

Lemma bind_Ok {A B : Type} (r : result A) (k : A -> result B) (b : B) :
  bind r k = Ok b -> exists a, r = Ok a /\ k a = Ok b.
Proof.
  destruct r as [a|e]; simpl; intros H; [eauto | discriminate].
Qed.

Lemma assert_Ok (b : bool) (msg : string) (u : unit) :
  assert b msg = Ok u -> b = true.
Proof.
  destruct b; simpl; [reflexivity | discriminate].
Qed.

Lemma is_ok_bind {A B : Type} (r : result A) (k : A -> result B) :
  is_ok (bind r k) = true <-> exists a, r = Ok a /\ is_ok (k a) = true.
Proof.
  destruct r as [a|e]; simpl; split.
  - eauto.
  - intros (a' & Ha & H). now inversion Ha; subst.
  - discriminate.
  - intros (a' & Ha & _). discriminate.
Qed.

Lemma is_ok_assert (b : bool) (msg : string) :
  is_ok (assert b msg) = true <-> b = true.
Proof. destruct b; simpl; intuition congruence. Qed.

Lemma Qlt_bool_iff (a b : Q) : Qlt_bool a b = true <-> (a < b)%Q.
Proof.
  unfold Qlt_bool. rewrite negb_true_iff.
  split; intros H.
  - apply Qnot_le_lt. intros Hle. apply Qle_bool_iff in Hle. congruence.
  - destruct (Qle_bool b a) eqn:E; [|reflexivity].
    apply Qle_bool_iff in E. exfalso. apply (Qlt_not_le _ _ H E).
Qed.

Tactic Notation "inv_bind" hyp(H) "as" ident(a) ident(Ha) :=
  apply bind_Ok in H; destruct H as (a & Ha & H).

Lemma _as_seq_Ok {A : Type} (x : arg A) (N : Z) (l : list A) :
  _as_seq x N = Ok l <-> l = canon x N /\ Z.of_nat (length (canon x N)) = N.
Proof.
  unfold _as_seq, canon. fold (elems x).
  destruct (Z.of_nat (length (elems x)) =? 1) eqn:E1.
  - destruct (Z.of_nat (length (concat (repeat (elems x) (Z.to_nat N)))) =? N)
      eqn:E2; simpl.
    + apply Z.eqb_eq in E2. split; [intros [= <-]; auto | intros [-> _]; auto].
    + apply Z.eqb_neq in E2. split; [discriminate | intros [_ H]; lia].
  - destruct (Z.of_nat (length (elems x)) =? N) eqn:E2; simpl.
    + apply Z.eqb_eq in E2. split; [intros [= <-]; auto | intros [-> _]; auto].
    + apply Z.eqb_neq in E2. split; [discriminate | intros [_ H]; lia].
Qed.

Lemma length_concat_repeat1 {A : Type} (l : list A) (n : nat) :
  length l = 1%nat -> length (concat (repeat l n)) = n.
Proof.
  intros Hl. induction n as [|n IH]; simpl; [reflexivity|].
  rewrite length_app, IH, Hl. reflexivity.
Qed.

(** An argument has an admissible length: one element, broadcast to the
    [N] axes, or exactly [N] elements. *)
Lemma length_canon {A : Type} (x : arg A) (N : Z) :
  Z.of_nat (length (canon x N)) = N <->
  (length (elems x) = 1%nat /\ 0 <= N) \/ Z.of_nat (length (elems x)) = N.
Proof.
  unfold canon. destruct (Z.of_nat (length (elems x)) =? 1) eqn:E.
  - apply Z.eqb_eq in E.
    rewrite length_concat_repeat1 by lia. lia.
  - apply Z.eqb_neq in E. lia.
Qed.

Lemma check_kernel_Ok (kernel : list Kernel) :
  is_ok (check_kernel kernel) = true <->
  forall k, In k kernel -> (0 < support k)%Q.
Proof.
  induction kernel as [|k rest IH]; simpl.
  - split; [intros _ k [] | reflexivity].
  - rewrite is_ok_bind. split.
    + intros (u & Hu & H) k' [<-|Hin].
      * apply assert_Ok in Hu. now apply Qlt_bool_iff.
      * apply IH; assumption.
    + intros H. exists tt. split.
      * assert (Hk : Qlt_bool 0 (support k) = true)
          by (apply Qlt_bool_iff, H; now left).
        unfold assert. now rewrite Hk.
      * apply IH. intros k' Hk'. apply H. now right.
Qed.

Lemma check_axis (alpha beta : Q) (N : Z) :
  (Qle_bool alpha beta
   && (if Qlt_bool alpha beta then 1 <=? N else N =? 1)) = true
  <-> axis_ok alpha beta N.
Proof.
  unfold axis_ok. rewrite andb_true_iff, Qle_bool_iff.
  destruct (Qlt_bool alpha beta) eqn:E.
  - apply Qlt_bool_iff in E. rewrite Z.leb_le. split.
    + intros [H1 H2]. repeat split; auto. intros Heq. lra.
    + intros (H1 & H2 & _). auto.
  - assert (Hn : ~ (alpha < beta)%Q).
    { intros H. apply Qlt_bool_iff in H. congruence. }
    rewrite Z.eqb_eq. split.
    + intros [H1 H2]. repeat split; auto. intros H; contradiction.
    + intros (H1 & _ & H3). split; auto. apply H3. lra.
Qed.

Lemma check_lattice_Ok (start stop : list Q) (num : list Z) :
  length start = length num -> length stop = length num ->
  (is_ok (check_lattice start stop num) = true <->
   forall d, (d < length num)%nat ->
     axis_ok (nth d start 0%Q) (nth d stop 0%Q) (nth d num 0)).
Proof.
  revert stop num.
  induction start as [|alpha start IH]; intros [|beta stop] [|N num];
    simpl; try discriminate; intros Hs Ht.
  - split; [intros _ d Hd; lia | reflexivity].
  - injection Hs as Hs. injection Ht as Ht.
    specialize (IH stop num Hs Ht).
    rewrite is_ok_bind. split.
    + intros (u & Hu & H). apply is_ok_bind in H. destruct H as (u' & Hu' & H).
      apply assert_Ok in Hu.
      assert (Hax : axis_ok alpha beta N).
      { apply check_axis. rewrite Hu. simpl.
        destruct (Qlt_bool alpha beta); now apply assert_Ok in Hu'. }
      intros [|d] Hd; [exact Hax|]. apply IH; [exact H | lia].
    + intros H. pose proof (H 0%nat ltac:(lia)) as H0. simpl in H0.
      apply check_axis in H0. apply andb_true_iff in H0. destruct H0 as [E1 E2].
      exists tt. rewrite E1. split; [reflexivity|].
      apply is_ok_bind. exists tt. split.
      * destruct (Qlt_bool alpha beta); now rewrite E2.
      * apply IH. intros d Hd. apply (H (S d)). lia.
Qed.

Lemma is_ok_Ok {A : Type} (r : result A) :
  is_ok r = true <-> exists a, r = Ok a.
Proof.
  destruct r; simpl; split; eauto; try discriminate.
  intros [a H]; discriminate.
Qed.

Lemma _as_seq_is_ok {A : Type} (x : arg A) (N : Z) :
  is_ok (_as_seq x N) = true <-> len_ok x N.
Proof.
  rewrite is_ok_Ok. unfold len_ok. rewrite <- length_canon. split.
  - intros [l Hl]. now apply _as_seq_Ok in Hl.
  - intros H. exists (canon x N). now apply _as_seq_Ok.
Qed.

Lemma _as_seq_canon {A : Type} (x : arg A) (N : Z) :
  len_ok x N -> _as_seq x N = Ok (canon x N).
Proof.
  intros H. apply _as_seq_Ok. split; [reflexivity|]. now apply length_canon.
Qed.

Lemma length_canon_ok {A : Type} (x : arg A) (N : Z) :
  len_ok x N -> length (canon x N) = Z.to_nat N.
Proof.
  intros H. apply length_canon in H. lia.
Qed.

Lemma list_eqb_eq (l1 l2 : list Z) : list_eqb l1 l2 = true <-> l1 = l2.
Proof.
  unfold list_eqb. destruct (list_eq_dec Z.eq_dec l1 l2); intuition congruence.
Qed.

Lemma list_eqb_refl (l : list Z) : list_eqb l l = true.
Proof. now apply list_eqb_eq. Qed.

Lemma list_eqb_neq (l1 l2 : list Z) : list_eqb l1 l2 = false <-> l1 <> l2.
Proof.
  unfold list_eqb. destruct (list_eq_dec Z.eq_dec l1 l2); intuition congruence.
Qed.

Lemma axis_ok_count (alpha beta : Q) (N : Z) : axis_ok alpha beta N -> 1 <= N.
Proof.
  intros (H1 & H2 & H3).
  destruct (Qlt_le_dec alpha beta) as [Hlt|Hle]; [auto|].
  rewrite H3; [lia | now apply Qle_antisym].
Qed.

Lemma LinOp_init_Ok (M : Z) (l : list Z) :
  1 <= M -> (forall d, (d < length l)%nat -> 1 <= nth d l 0) ->
  LinOp_init [M] l = Ok tt.
Proof.
  intros HM Hl. unfold LinOp_init. cbn [forallb].
  replace (1 <=? M) with true by (symmetry; now apply Z.leb_le).
  replace (forallb (fun ax => 1 <=? ax) l) with true; [reflexivity|].
  symmetry. apply forallb_forall. intros n Hn.
  apply (In_nth _ _ 0) in Hn. destruct Hn as (d & Hd & <-).
  apply Z.leb_le. now apply Hl.
Qed.

Lemma LinOp_init_inv (M : Z) (l : list Z) (u : unit) :
  LinOp_init [M] l = Ok u -> 1 <= M.
Proof.
  unfold LinOp_init. cbn [forallb]. intros H. apply assert_Ok in H.
  rewrite !andb_true_iff, Z.leb_le in H. tauto.
Qed.

(** [__init__] returns an operator exactly on well-formed arguments, and the
    operator is then [built]. *)
Lemma init_well_formed x z kernel ew kwargs :
  well_formed x z kernel kwargs ->
  __init__ x z kernel ew kwargs = Ok (built x z kernel ew kwargs).
Proof.
  unfold well_formed, __init__, built. fold (canon_x x). fold (defaults kwargs).
  set (D := nth 1 (shape (canon_x x)) 0).
  intros (Hnd & Hk & Hs & Ha & Hb & Hn & Hax & Hm & Hr & HM & Hback).
  assert (E : (ndim x =? 1) || (ndim x =? 2) = true).
  { apply orb_true_iff. rewrite !Z.eqb_eq. exact Hnd. }
  rewrite E. cbn [assert bind].
  rewrite (_as_seq_canon _ _ Hk). cbn [bind].
  assert (Ek : check_kernel (canon kernel D) = Ok tt).
  { apply check_kernel_Ok in Hs. destruct (check_kernel (canon kernel D)) as [[]|];
      [reflexivity | discriminate]. }
  rewrite Ek. cbn [bind].
  rewrite (_as_seq_canon _ _ Ha), (_as_seq_canon _ _ Hb), (_as_seq_canon _ _ Hn).
  cbn [bind].
  assert (El : check_lattice (canon (arg_start z) D) (canon (arg_stop z) D)
                             (canon (arg_num z) D) = Ok tt).
  { assert (H : is_ok (check_lattice (canon (arg_start z) D)
                         (canon (arg_stop z) D) (canon (arg_num z) D)) = true).
    { apply check_lattice_Ok.
      - now rewrite !length_canon_ok.
      - now rewrite !length_canon_ok.
      - intros d Hd. apply Hax. now rewrite length_canon_ok in Hd. }
    destruct (check_lattice _ _ _) as [[]|]; [reflexivity | discriminate]. }
  rewrite El. cbn [bind].
  apply Z.ltb_lt in Hm. rewrite Hm. cbn [assert bind].
  apply Qle_bool_iff in Hr. rewrite Hr. cbn [assert bind].
  rewrite LinOp_init_Ok; [cbn [bind] | exact HM |].
  2:{ intros d Hd. rewrite length_canon_ok in Hd by exact Hn.
      exact (axis_ok_count _ _ _ (Hax d Hd)). }
  unfold coerce, backend_ok in *.
  destruct (ndi (canon_x x)).
  - destruct Hback as [Hdt Hback].
    unfold exec_gen_code. apply Z.eqb_neq in Hback. rewrite Hback.
    destruct Hdt as [-> | ->]; reflexivity.
  - rewrite <- list_eqb_eq in Hback. rewrite Hback. reflexivity.
  - contradiction.
Qed.

Lemma init_Ok x z kernel ew kwargs op :
  __init__ x z kernel ew kwargs = Ok op ->
  well_formed x z kernel kwargs /\ op = built x z kernel ew kwargs.
Proof.
  intros H.
  assert (W : well_formed x z kernel kwargs).
  { revert H. unfold well_formed, __init__.
    fold (canon_x x). fold (defaults kwargs).
    set (D := nth 1 (shape (canon_x x)) 0).
    intros H.
    inv_bind H as u0 H0. apply assert_Ok, orb_true_iff in H0.
    rewrite !Z.eqb_eq in H0.
    inv_bind H as ker H1. apply _as_seq_Ok in H1. destruct H1 as [-> Hk].
    inv_bind H as u2 H2.
    assert (Hs := proj1 (check_kernel_Ok _) ltac:(now rewrite H2)).
    inv_bind H as st H3. apply _as_seq_Ok in H3. destruct H3 as [-> Hst].
    inv_bind H as sp H4. apply _as_seq_Ok in H4. destruct H4 as [-> Hsp].
    inv_bind H as nm H5. apply _as_seq_Ok in H5. destruct H5 as [-> Hn].
    inv_bind H as u6 H6.
    assert (Hax : forall d, (d < length (canon (arg_num z) D))%nat ->
              axis_ok (nth d (canon (arg_start z) D) 0%Q)
                      (nth d (canon (arg_stop z) D) 0%Q)
                      (nth d (canon (arg_num z) D) 0)).
    { apply check_lattice_Ok; [lia | lia | now rewrite H6]. }
    inv_bind H as u7 H7. apply assert_Ok, Z.ltb_lt in H7.
    inv_bind H as u8 H8. apply assert_Ok, Qle_bool_iff in H8.
    inv_bind H as u10 H10. apply LinOp_init_inv in H10.
    repeat apply conj; try assumption; try (now apply length_canon).
    - intros d Hd. apply Hax. lia.
    - unfold coerce, backend_ok in *. destruct (ndi (canon_x x)).
      + inv_bind H as u9 H9. unfold exec_gen_code in H9.
        destruct (D =? 0) eqn:E.
        * destruct (dtype (canon_x x)); discriminate.
        * apply Z.eqb_neq in E.
          destruct (dtype (canon_x x)); try discriminate; auto.
      + inv_bind H as u9 H9. now apply assert_Ok, list_eqb_eq in H9.
      + discriminate. }
  split; [exact W|].
  rewrite (init_well_formed _ _ _ ew _ W) in H. congruence.
Qed.

Lemma init_is_ok x z kernel ew kwargs :
  is_ok (__init__ x z kernel ew kwargs) = true <-> well_formed x z kernel kwargs.
Proof.
  rewrite is_ok_Ok. split.
  - intros [op H]. now apply init_Ok in H.
  - intros W. eexists. now apply init_well_formed.
Qed.

(* ###################################################################### *)
(** * Ranges and masks *)

Lemma zrange_of_nat (n : nat) : zrange 0 (Z.of_nat n) = map Z.of_nat (seq 0 n).
Proof.
  unfold zrange. rewrite Z.sub_0_r, Nat2Z.id. apply map_ext. intros; lia.
Qed.

Lemma zrange_to_nat (n : Z) : zrange 0 (Z.of_nat (Z.to_nat n)) = zrange 0 n.
Proof.
  unfold zrange. rewrite !Z.sub_0_r, Nat2Z.id. reflexivity.
Qed.

Lemma length_zrange (a b : Z) : length (zrange a b) = Z.to_nat (b - a).
Proof. unfold zrange. now rewrite length_map, length_seq. Qed.

Lemma In_zrange (a b i : Z) : In i (zrange a b) <-> a <= i < b.
Proof.
  unfold zrange. rewrite in_map_iff. split.
  - intros (k & <- & Hk). apply in_seq in Hk. lia.
  - intros H. exists (Z.to_nat (i - a)). split; [lia|]. apply in_seq. lia.
Qed.

Lemma NoDup_zrange (a b : Z) : NoDup (zrange a b).
Proof.
  unfold zrange. apply Finite.Injective_map_NoDup; [|apply seq_NoDup].
  intros i j H. lia.
Qed.

Lemma nth_zrange (a b d : Z) (i : nat) :
  (i < Z.to_nat (b - a))%nat -> nth i (zrange a b) d = a + Z.of_nat i.
Proof.
  intros H. unfold zrange.
  rewrite (nth_indep _ d (a + Z.of_nat 0))
    by (now rewrite length_map, length_seq).
  rewrite (map_nth (fun i => a + Z.of_nat i)), seq_nth by assumption.
  reflexivity.
Qed.

Lemma filter_combine_map {A : Type} (q : A -> bool) (l : list A) :
  map fst (filter snd (combine l (map q l))) = filter q l.
Proof.
  induction l as [|a l IH]; simpl; [reflexivity|].
  destruct (q a); simpl; now rewrite IH.
Qed.

Lemma select_map {A B : Type} (f : A -> B) (p : B -> bool) (l : list A) :
  select (map f l) (map p (map f l)) = map f (filter (fun a => p (f a)) l).
Proof.
  unfold select. induction l as [|a l IH]; simpl; [reflexivity|].
  destruct (p (f a)); simpl; now rewrite IH.
Qed.

Lemma map_nth_seq {A : Type} (l : list A) (d : A) :
  map (fun i => nth i l d) (seq 0 (length l)) = l.
Proof.
  induction l as [|a l IH]; simpl; [reflexivity|].
  f_equal. rewrite <- seq_shift, map_map. exact IH.
Qed.

Lemma map_snd_combine {A B : Type} (l1 : list A) (l2 : list B) :
  length l1 = length l2 -> map snd (combine l1 l2) = l2.
Proof.
  revert l2. induction l1 as [|a l1 IH]; intros [|b l2]; simpl;
    try discriminate; intros H; [reflexivity|].
  f_equal. apply IH. now injection H.
Qed.

Lemma map_snd_enumerate {B : Type} (l : list B) :
  map snd (combine (zrange 0 (Z.of_nat (length l))) l) = l.
Proof.
  apply map_snd_combine. rewrite length_zrange. lia.
Qed.

(** An element of a duplicate-free concatenation lies in one block only. *)
Lemma NoDup_concat_unique {A : Type} (ls : list (list A)) (a : A) (i j : nat) :
  NoDup (concat ls) ->
  In a (nth i ls []) -> In a (nth j ls []) -> i = j.
Proof.
  revert i j. induction ls as [|l ls IH]; intros i j Hnd Hi Hj.
  - destruct i; contradiction.
  - simpl in Hnd. apply NoDup_app_remove_l in Hnd as Hnd'.
    assert (Hdisj : forall k, In a l -> In a (nth k ls []) -> False).
    { intros k Hl Hk.
      assert (Hin : In a (concat ls)).
      { apply in_concat. exists (nth k ls []). split; [|exact Hk].
        destruct (Nat.lt_ge_cases k (length ls)) as [Hlt|Hge].
        - now apply nth_In.
        - rewrite nth_overflow in Hk by assumption. contradiction. }
      clear - Hnd Hl Hin. induction l as [|b l IHl]; [contradiction|].
      simpl in Hnd. inversion Hnd as [|? ? Hnb Hnd2]; subst.
      destruct Hl as [->|Hl].
      - apply Hnb. apply in_or_app. now right.
      - now apply IHl. }
    destruct i as [|i], j as [|j]; simpl in Hi, Hj.
    + reflexivity.
    + exfalso. eapply Hdisj; eauto.
    + exfalso. eapply Hdisj; eauto.
    + f_equal. now apply IH.
Qed.

(* ###################################################################### *)
(** * The clustering returns a partition *)

Module cluster_facts.
Import cluster.

Lemma add_to_perm key i cl :
  Permutation (concat (map snd (add_to key i cl))) (concat (map snd cl) ++ [i]).
Proof.
  induction cl as [|[k l] rest IH]; simpl.
  - reflexivity.
  - destruct (list_eqb k key); simpl.
    + rewrite <- !app_assoc. apply Permutation_app_head.
      apply Permutation_app_comm.
    + rewrite IH. now rewrite app_assoc.
Qed.

Lemma add_to_nonempty key i cl :
  Forall (fun c => snd c <> []) cl ->
  Forall (fun c => snd c <> []) (add_to key i cl).
Proof.
  induction 1 as [|[k l] rest Hl Hrest IH]; simpl.
  - constructor; [discriminate | constructor].
  - destruct (list_eqb k key).
    + constructor; [|assumption]. simpl. now destruct l.
    + constructor; assumption.
Qed.

Lemma cells_perm bbox_dim (l : list (nat * list Q)) acc :
  Permutation
    (concat (map snd (fold_left
       (fun acc ip => add_to (cell bbox_dim (snd ip)) (fst ip) acc) l acc)))
    (concat (map snd acc) ++ map fst l).
Proof.
  revert acc. induction l as [|[i p] l IH]; intros acc; simpl.
  - now rewrite app_nil_r.
  - rewrite IH, add_to_perm, <- app_assoc. reflexivity.
Qed.

Lemma cells_nonempty bbox_dim (l : list (nat * list Q)) acc :
  Forall (fun c => snd c <> []) acc ->
  Forall (fun c => snd c <> [])
    (fold_left (fun acc ip => add_to (cell bbox_dim (snd ip)) (fst ip) acc)
               l acc).
Proof.
  revert acc. induction l as [|[i p] l IH]; intros acc H; simpl.
  - exact H.
  - apply IH. now apply add_to_nonempty.
Qed.

Lemma map_fst_combine_seq {B : Type} (l : list B) :
  map fst (combine (seq 0 (length l)) l) = seq 0 (length l).
Proof.
  generalize 0%nat. induction l as [|b l IH]; intros k; simpl;
    [reflexivity|]. now rewrite IH.
Qed.

Lemma grid_cluster_perm x bbox_dim :
  Permutation (concat (map snd (grid_cluster x bbox_dim))) (seq 0 (length x)).
Proof.
  unfold grid_cluster. rewrite map_snd_combine.
  - rewrite cells_perm. simpl. now rewrite map_fst_combine_seq.
  - rewrite length_zrange, length_map. lia.
Qed.

Lemma grid_cluster_nonempty x bbox_dim :
  Forall (fun c => c <> []) (map snd (grid_cluster x bbox_dim)).
Proof.
  unfold grid_cluster. rewrite map_snd_combine.
  - apply Forall_map. apply cells_nonempty. constructor.
  - rewrite length_zrange, length_map. lia.
Qed.

Lemma insert_by_perm key i l : Permutation (insert_by key i l) (i :: l).
Proof.
  induction l as [|j r IH]; simpl; [reflexivity|].
  destruct (Qle_bool (key i) (key j)); [reflexivity|].
  rewrite IH. apply perm_swap.
Qed.

Lemma sort_by_perm key l : Permutation (sort_by key l) l.
Proof.
  induction l as [|i l IH]; simpl; [reflexivity|].
  rewrite insert_by_perm. now constructor.
Qed.

Lemma split_median_perm x D c :
  Permutation (fst (split_median x D c) ++ snd (split_median x D c)) c.
Proof.
  unfold split_median. cbn [fst snd]. rewrite firstn_skipn. apply sort_by_perm.
Qed.

Lemma split_median_length x D c :
  (2 <= length c)%nat ->
  (0 < length (fst (split_median x D c)) < length c)%nat /\
  (0 < length (snd (split_median x D c)) < length c)%nat.
Proof.
  intros H. unfold split_median. cbn [fst snd].
  rewrite length_firstn, length_skipn.
  rewrite (Permutation_length (sort_by_perm _ c)).
  assert (1 <= length c / 2)%nat
    by (apply (Nat.div_le_lower_bound (length c) 2 1); lia).
  assert (length c / 2 < length c)%nat by (apply Nat.div_lt; lia).
  lia.
Qed.

Lemma bisect_perm fuel x D N_max c :
  Permutation (concat (bisect fuel x D N_max c)) c.
Proof.
  revert c. induction fuel as [|fuel IH]; intros c; cbn [bisect].
  - destruct (Z.of_nat (length c) <=? N_max); cbn [concat];
      now rewrite app_nil_r.
  - destruct (Z.of_nat (length c) <=? N_max); cbn [concat].
    + now rewrite app_nil_r.
    + rewrite concat_app, !IH. apply split_median_perm.
Qed.

Lemma bisect_nonempty fuel x D N_max c :
  1 <= N_max -> c <> [] ->
  Forall (fun c' => c' <> []) (bisect fuel x D N_max c).
Proof.
  intros HN. revert c. induction fuel as [|fuel IH]; intros c Hc; cbn [bisect].
  - destruct (Z.of_nat (length c) <=? N_max); repeat constructor; exact Hc.
  - destruct (Z.of_nat (length c) <=? N_max) eqn:E.
    + repeat constructor; exact Hc.
    + apply Z.leb_gt in E.
      destruct (split_median_length x D c ltac:(lia)) as [H1 H2].
      apply Forall_app.
      split; apply IH; intros Heq;
        [rewrite Heq in H1 | rewrite Heq in H2]; simpl in *; lia.
Qed.

(** With as much fuel as the cluster has points, every part respects the
    cap: the recursion never stops for lack of fuel. *)
Lemma bisect_cap fuel x D N_max c :
  1 <= N_max -> (length c <= fuel)%nat ->
  Forall (fun c' => Z.of_nat (length c') <= N_max) (bisect fuel x D N_max c).
Proof.
  intros HN. revert c. induction fuel as [|fuel IH]; intros c Hc; cbn [bisect].
  - destruct (Z.of_nat (length c) <=? N_max) eqn:E.
    + apply Z.leb_le in E. repeat constructor; exact E.
    + repeat constructor. lia.
  - destruct (Z.of_nat (length c) <=? N_max) eqn:E.
    + apply Z.leb_le in E. repeat constructor; exact E.
    + apply Z.leb_gt in E.
      destruct (split_median_length x D c ltac:(lia)) as [H1 H2].
      apply Forall_app. split; apply IH; lia.
Qed.

Lemma parts_perm x D N_max (clusters : list (Z * list nat)) :
  Permutation
    (concat (flat_map (fun c => bisect (length (snd c)) x D N_max (snd c))
                      clusters))
    (concat (map snd clusters)).
Proof.
  induction clusters as [|[k c] rest IH]; simpl; [reflexivity|].
  rewrite concat_app, bisect_perm, IH. reflexivity.
Qed.

Lemma bisect_cluster_perm x clusters N_max :
  Permutation (concat (map snd (bisect_cluster x clusters N_max)))
              (concat (map snd clusters)).
Proof.
  unfold bisect_cluster. rewrite map_snd_enumerate. apply parts_perm.
Qed.

Lemma bisect_cluster_nonempty x clusters N_max :
  1 <= N_max ->
  Forall (fun c => c <> []) (map snd clusters) ->
  Forall (fun c => c <> []) (map snd (bisect_cluster x clusters N_max)).
Proof.
  intros HN H. unfold bisect_cluster. rewrite map_snd_enumerate.
  induction clusters as [|[k c] rest IH]; simpl; [constructor|].
  inversion H; subst. apply Forall_app. split.
  - now apply bisect_nonempty.
  - now apply IH.
Qed.

Lemma bisect_cluster_cap x clusters N_max :
  1 <= N_max ->
  Forall (fun c => Z.of_nat (length c) <= N_max)
         (map snd (bisect_cluster x clusters N_max)).
Proof.
  intros HN. unfold bisect_cluster. rewrite map_snd_enumerate.
  induction clusters as [|[k c] rest IH]; simpl; [constructor|].
  apply Forall_app. split; [|exact IH]. now apply bisect_cap.
Qed.

End cluster_facts.

(* ###################################################################### *)
(** * Cluster metadata *)

Lemma concat_map_snd {A B C : Type} (g : B -> C) (l : list (A * list B)) :
  concat (map (fun c => map g (snd c)) l) = map g (concat (map snd l)).
Proof.
  induction l as [|c l IH]; simpl; [reflexivity|].
  now rewrite map_app, IH.
Qed.

Section BuildInfo.

Variables (x : NDArray) (z : Lattice) (kernel : list Kernel) (kwargs : Config).

Let s := map support kernel.
Let M := nth 0 (shape x) 0.
Let is_act (m : Z) : bool := is_active s (start z) (stop z) (row x m).

(** [active2global]: the active point indices, in increasing order. *)
Let a2g : list Z := filter is_act (zrange 0 M).

Lemma active2global_eq :
  flatnonzero (map (is_active s (start z) (stop z)) (rows x)) = a2g.
Proof.
  unfold flatnonzero, rows, a2g. fold M.
  rewrite !length_map, length_zrange, Z.sub_0_r, zrange_to_nat, map_map.
  apply (filter_combine_map is_act).
Qed.

Lemma active_points_eq :
  select (rows x) (map (is_active s (start z) (stop z)) (rows x))
  = map (row x) a2g.
Proof.
  unfold rows. fold M. apply (select_map (row x)).
Qed.

Lemma In_a2g (m : Z) : In m a2g <-> 0 <= m < M /\ is_act m = true.
Proof.
  unfold a2g. rewrite filter_In, In_zrange. reflexivity.
Qed.

Lemma NoDup_a2g : NoDup a2g.
Proof. apply NoDup_filter, NoDup_zrange. Qed.

(** The clusters [_build_info] iterates over. *)
Let clusters : list (Z * list nat) :=
  cluster.bisect_cluster (map (row x) a2g)
    (cluster.grid_cluster (map (row x) a2g)
       (map (fun sd => (2 * sd * max_window_ratio kwargs)%Q) s))
    (max_cluster_size kwargs).

Lemma build_info_eq :
  _build_info x z kernel kwargs =
  if (length a2g =? 0)%nat then []
  else map (fun c => (fst c,
                      cluster_info (map (row x) a2g) s (start z) (stop z)
                                   (num z) a2g (snd c)))
           clusters.
Proof.
  unfold _build_info. fold s.
  rewrite active2global_eq, active_points_eq, length_map.
  reflexivity.
Qed.

Lemma clusters_perm :
  Permutation (concat (map snd clusters)) (seq 0 (length a2g)).
Proof.
  unfold clusters.
  rewrite cluster_facts.bisect_cluster_perm, cluster_facts.grid_cluster_perm.
  now rewrite length_map.
Qed.

Lemma clusters_nonempty :
  1 <= max_cluster_size kwargs ->
  Forall (fun c => c <> []) (map snd clusters).
Proof.
  intros H. apply cluster_facts.bisect_cluster_nonempty; [exact H|].
  apply cluster_facts.grid_cluster_nonempty.
Qed.

Lemma clusters_in_range c i :
  In c clusters -> In i (snd c) -> (i < length a2g)%nat.
Proof.
  intros Hc Hi.
  assert (H : In i (concat (map snd clusters))).
  { apply in_concat. exists (snd c). split; [exact (in_map snd clusters c Hc) | exact Hi]. }
  apply (Permutation_in _ clusters_perm) in H. apply in_seq in H. lia.
Qed.

Lemma members_build_info :
  Permutation (members (_build_info x z kernel kwargs)) a2g.
Proof.
  rewrite build_info_eq. unfold members.
  destruct (length a2g =? 0)%nat eqn:E.
  - apply Nat.eqb_eq in E. destruct a2g; [reflexivity | discriminate].
  - rewrite map_map. cbn [snd x_idx cluster_info].
    rewrite (concat_map_snd (fun i => nth i a2g 0)).
    rewrite clusters_perm. now rewrite map_nth_seq.
Qed.

(** Every entry of the cluster map describes a non-empty set of active
    points through [cluster_info]. *)
Lemma build_info_inv c :
  1 <= max_cluster_size kwargs ->
  In c (_build_info x z kernel kwargs) ->
  exists xi, xi <> [] /\ (forall i, In i xi -> (i < length a2g)%nat) /\
             snd c = cluster_info (map (row x) a2g) s (start z) (stop z)
                                  (num z) a2g xi.
Proof.
  intros HN. rewrite build_info_eq.
  destruct (length a2g =? 0)%nat; [intros []|].
  rewrite in_map_iff. intros (c' & <- & Hc'). exists (snd c').
  repeat apply conj.
  - pose proof (clusters_nonempty HN) as H. rewrite Forall_forall in H.
    apply H. exact (in_map snd clusters c' Hc').
  - intros i Hi. exact (clusters_in_range c' i Hc' Hi).
  - reflexivity.
Qed.

End BuildInfo.

(* ###################################################################### *)
(** * Invariant of a constructed operator *)

Lemma shape_canon_x x :
  ndim x = 1 \/ ndim x = 2 ->
  shape (canon_x x)
  = [nth 0 (shape (canon_x x)) 0; nth 1 (shape (canon_x x)) 0].
Proof.
  unfold canon_x, ndim. intros [H|H].
  - replace (Z.of_nat (length (shape x)) =? 1) with true
      by (symmetry; now apply Z.eqb_eq).
    simpl. destruct (shape x) as [|a [|b l]]; simpl in *; try lia.
    reflexivity.
  - replace (Z.of_nat (length (shape x)) =? 1) with false
      by (symmetry; apply Z.eqb_neq; lia).
    destruct (shape x) as [|a [|b [|c l]]]; simpl in *; try lia.
    reflexivity.
Qed.

Lemma init_wf x z kernel ew kwargs op :
  __init__ x z kernel ew kwargs = Ok op -> wf_op op.
Proof.
  intros H. apply init_Ok in H. destruct H as [W ->].
  destruct W as (Hnd & Hk & Hs & Ha & Hb & Hn & Hax & Hm & Hr & HM & Hback).
  assert (HD : Z.of_nat (length (canon (arg_num z)
                 (nth 1 (shape (canon_x x)) 0)))
               = nth 1 (shape (canon_x x)) 0) by now apply length_canon.
  constructor; unfold codim_rank;
    cbn [built dim_shape codim_shape _x _z _kernel _kwargs _cl_info
         start stop num].
  - now apply shape_canon_x.
  - reflexivity.
  - reflexivity.
  - exact HD.
  - rewrite !length_canon_ok by assumption. reflexivity.
  - rewrite !length_canon_ok by assumption. reflexivity.
  - rewrite !length_canon_ok by assumption. reflexivity.
  - exact Hs.
  - intros d Hd. apply Hax. lia.
  - exact Hm.
  - exact Hr.
  - intros E. rewrite E. split; [reflexivity|].
    unfold backend_ok in Hback. rewrite E in Hback. lia.
Qed.

(* ###################################################################### *)
(** * The activity test *)

Lemma nth_map2 {A B C : Type} (f : A -> B -> C) (l1 : list A) (l2 : list B)
  (d : nat) (a : A) (b : B) (c : C) :
  (d < length l1)%nat -> (d < length l2)%nat ->
  nth d (map2 f l1 l2) c = f (nth d l1 a) (nth d l2 b).
Proof.
  revert l2 d. induction l1 as [|x1 l1 IH]; intros [|x2 l2] [|d]; simpl;
    intros H1 H2; try lia; [reflexivity|].
  apply IH; lia.
Qed.

Lemma length_map2 {A B C : Type} (f : A -> B -> C) (l1 : list A)
  (l2 : list B) :
  length (map2 f l1 l2) = Nat.min (length l1) (length l2).
Proof.
  revert l2. induction l1 as [|x1 l1 IH]; intros [|x2 l2]; simpl;
    try reflexivity. now rewrite IH.
Qed.

Lemma all_le_iff (a b : list Q) :
  length a = length b ->
  (all_le a b = true <->
   forall d, (d < length a)%nat -> (nth d a 0 <= nth d b 0)%Q).
Proof.
  unfold all_le. revert b. induction a as [|x a IH]; intros [|y b]; simpl;
    try discriminate; intros Hl.
  - split; [intros _ d Hd; lia | reflexivity].
  - injection Hl as Hl. rewrite andb_true_iff, Qle_bool_iff, (IH b Hl).
    split.
    + intros [H1 H2] [|d] Hd; [exact H1 | apply H2; lia].
    + intros H. split; [apply (H 0%nat); lia|].
      intros d Hd. apply (H (S d)). lia.
Qed.

Lemma length_row x m : length (row x m) = Z.to_nat (nth 1 (shape x) 0).
Proof.
  unfold row. now rewrite length_map, length_zrange, Z.sub_0_r.
Qed.

Lemma nth_row x m d :
  (d < Z.to_nat (nth 1 (shape x) 0%Z))%nat ->
  nth d (row x m) 0%Q = item x [m; Z.of_nat d].
Proof.
  intros Hd. unfold row.
  rewrite (nth_indep _ 0%Q (item x [m; 0]))
    by (now rewrite length_map, length_zrange, Z.sub_0_r).
  rewrite (map_nth (fun d => item x [m; d])).
  rewrite nth_zrange by (now rewrite Z.sub_0_r). reflexivity.
Qed.

Lemma nth_map_support (kernel : list Kernel) d :
  nth d (map support kernel) 0%Q = support (nth d kernel no_kernel).
Proof. apply (map_nth support kernel no_kernel). Qed.

Lemma active_iff op m : wf_op op -> (active op m = true <-> in_reach op m).
Proof.
  intros W. unfold active, is_active, in_reach.
  pose proof (wf_rank op W) as HD.
  assert (Hrow : length (row (_x op) m) = codim_rank op)
    by (rewrite length_row; lia).
  rewrite andb_true_iff.
  rewrite !all_le_iff
    by (rewrite length_map2, ?length_map, ?(wf_len_start op W),
          ?(wf_len_stop op W), ?(wf_len_kernel op W), Hrow; lia).
  rewrite length_map2, length_map, (wf_len_start op W), (wf_len_kernel op W),
    Hrow, Nat.min_id.
  split.
  - intros [H1 H2] d Hd. specialize (H1 d Hd). specialize (H2 d Hd).
    rewrite (nth_map2 _ _ _ _ 0%Q 0%Q) in H1
      by (rewrite ?length_map, ?(wf_len_start op W), ?(wf_len_kernel op W);
          lia).
    rewrite (nth_map2 _ _ _ _ 0%Q 0%Q) in H2
      by (rewrite ?length_map, ?(wf_len_stop op W), ?(wf_len_kernel op W);
          lia).
    rewrite nth_map_support, nth_row in H1 by lia.
    rewrite nth_map_support, nth_row in H2 by lia.
    split; assumption.
  - intros H. split; intros d Hd; destruct (H d Hd) as [H1 H2];
      rewrite (nth_map2 _ _ _ _ 0%Q 0%Q)
        by (rewrite ?length_map, ?(wf_len_start op W), ?(wf_len_stop op W),
              ?(wf_len_kernel op W); lia);
      rewrite nth_map_support, nth_row by lia; assumption.
Qed.

Lemma dim_size_eq op : wf_op op -> dim_size op = nth 0 (shape (_x op)) 0.
Proof.
  intros W. unfold dim_size, Zprod. rewrite (wf_dim op W). simpl.
  destruct (nth 0 (shape (_x op)) 0); reflexivity.
Qed.

(** The clusters hold exactly the active points, each once. *)
Lemma members_active op info :
  wf_op op -> _cl_info op = Some info ->
  ndi (_x op) = NUMPY ->
  Permutation (members info) (filter (active op) (zrange 0 (dim_size op))).
Proof.
  intros W Hinfo Hnp. destruct (wf_cl_info op W Hnp) as [E _].
  rewrite E in Hinfo. injection Hinfo as <-.
  rewrite dim_size_eq by assumption.
  apply members_build_info.
Qed.

(* ###################################################################### *)
(** * Minimum and maximum of a vector *)

Lemma Qmin_cases (a b : Q) : Qmin a b = a \/ Qmin a b = b.
Proof.
  unfold Qmin, GenericMinMax.gmin. destruct (a ?= b)%Q; auto.
Qed.

Lemma Qmax_cases (a b : Q) : Qmax a b = a \/ Qmax a b = b.
Proof.
  unfold Qmax, GenericMinMax.gmax. destruct (a ?= b)%Q; auto.
Qed.

Lemma fold_Qmin_In (l : list Q) (a : Q) :
  In (fold_left Qmin l a) (a :: l).
Proof.
  revert a. induction l as [|b l IH]; intros a; simpl; [now left|].
  destruct (IH (Qmin a b)) as [H|H].
  - rewrite <- H. destruct (Qmin_cases a b) as [E|E]; rewrite E; auto.
  - auto.
Qed.

Lemma fold_Qmin_le (l : list Q) (a b : Q) :
  In b (a :: l) -> (fold_left Qmin l a <= b)%Q.
Proof.
  revert a b. induction l as [|c l IH]; intros a b; simpl.
  - intros [->|[]]. apply Qle_refl.
  - intros [->|[->|H]].
    + eapply Qle_trans; [apply IH; now left | apply Q.le_min_l].
    + eapply Qle_trans; [apply IH; now left | apply Q.le_min_r].
    + apply IH. now right.
Qed.

Lemma fold_Qmax_In (l : list Q) (a : Q) :
  In (fold_left Qmax l a) (a :: l).
Proof.
  revert a. induction l as [|b l IH]; intros a; simpl; [now left|].
  destruct (IH (Qmax a b)) as [H|H].
  - rewrite <- H. destruct (Qmax_cases a b) as [E|E]; rewrite E; auto.
  - auto.
Qed.

Lemma fold_Qmax_ge (l : list Q) (a b : Q) :
  In b (a :: l) -> (b <= fold_left Qmax l a)%Q.
Proof.
  revert a b. induction l as [|c l IH]; intros a b; simpl.
  - intros [->|[]]. apply Qle_refl.
  - intros [->|[->|H]].
    + eapply Qle_trans; [apply Q.le_max_l | apply IH; now left].
    + eapply Qle_trans; [apply Q.le_max_r | apply IH; now left].
    + apply IH. now right.
Qed.

Lemma Qmin_list_In (l : list Q) : l <> [] -> In (Qmin_list l) l.
Proof. destruct l; [congruence|]. intros _. apply fold_Qmin_In. Qed.

Lemma Qmin_list_le (l : list Q) (b : Q) : In b l -> (Qmin_list l <= b)%Q.
Proof. destruct l; [intros []|]. apply fold_Qmin_le. Qed.

Lemma Qmax_list_In (l : list Q) : l <> [] -> In (Qmax_list l) l.
Proof. destruct l; [congruence|]. intros _. apply fold_Qmax_In. Qed.

Lemma Qmax_list_ge (l : list Q) (b : Q) : In b l -> (b <= Qmax_list l)%Q.
Proof. destruct l; [intros []|]. apply fold_Qmax_ge. Qed.

(* ###################################################################### *)
(** * The window along one axis *)

Lemma inject_Z_pred (N : Z) : (inject_Z (N - 1) == inject_Z N - 1)%Q.
Proof. unfold Z.sub. rewrite inject_Z_plus. simpl. ring. Qed.

Section Axis.

Variables (alpha beta : Q) (N : Z).
Hypothesis Hax : axis_ok alpha beta N.

Lemma axis_count : 1 <= N.
Proof.
  destruct Hax as (H1 & H2 & H3).
  destruct (Qlt_le_dec alpha beta) as [Hlt|Hle]; [auto|].
  rewrite H3; [lia | lra].
Qed.

Lemma axis_strict : 1 < N -> (alpha < beta)%Q.
Proof.
  destruct Hax as (H1 & H2 & H3). intros HN.
  destruct (Qlt_le_dec alpha beta) as [Hlt|Hle]; [exact Hlt|].
  assert (N = 1) by (apply H3; lra). lia.
Qed.

Lemma ratio_nonneg : (0 <= ratio alpha beta N)%Q.
Proof.
  unfold ratio. destruct (1 <? N) eqn:E.
  - apply Z.ltb_lt in E. pose proof (axis_strict E) as Hlt.
    assert (HN : (1 < inject_Z N)%Q) by (rewrite (Zlt_Qlt 1 N) in E; exact E).
    apply Qle_shift_div_l; lra.
  - apply Z.ltb_ge in E. pose proof axis_count as HN.
    assert (N = 1) by lia. subst N. vm_compute. discriminate.
Qed.

(** On a lattice with several nodes, [ratio] is the inverse of the step. *)
Lemma ratio_step :
  1 < N -> (lattice_step alpha beta N * ratio alpha beta N == 1)%Q.
Proof.
  intros HN. pose proof (axis_strict HN) as Hlt.
  unfold lattice_step, ratio.
  replace (N =? 1) with false by (symmetry; apply Z.eqb_neq; lia).
  replace (1 <? N) with true by (symmetry; now apply Z.ltb_lt).
  assert (HQ : (1 < inject_Z N)%Q) by (rewrite (Zlt_Qlt 1 N) in HN; exact HN).
  rewrite inject_Z_pred. field. split; lra.
Qed.

(** Grid position of a lattice node. *)
Lemma node_ratio (n : Z) :
  0 <= n < N ->
  ((alpha + inject_Z n * lattice_step alpha beta N - alpha)
   * ratio alpha beta N == inject_Z n)%Q.
Proof.
  intros Hn. destruct (Z.eq_dec N 1) as [->|HN].
  - assert (n = 0) by lia. subst n. unfold lattice_step, ratio.
    change (1 =? 1) with true. change (1 <? 1) with false. cbv iota.
    change (inject_Z 0) with 0%Q. change (inject_Z 1) with 1%Q. ring.
  - assert (H1 : 1 < N) by lia. pose proof (ratio_step H1) as Hr.
    transitivity (inject_Z n * (lattice_step alpha beta N * ratio alpha beta N))%Q;
      [ring | rewrite Hr; ring].
Qed.

Lemma node_in_lattice (n : Z) :
  0 <= n < N ->
  (alpha <= alpha + inject_Z n * lattice_step alpha beta N <= beta)%Q.
Proof.
  intros Hn. destruct (Z.eq_dec N 1) as [->|HN].
  - assert (n = 0) by lia. subst n. destruct Hax as (H1 & _).
    unfold lattice_step. change (1 =? 1) with true. cbv iota.
    change (inject_Z 0) with 0%Q. lra.
  - assert (H1 : 1 < N) by lia. pose proof (axis_strict H1) as Hlt.
    unfold lattice_step.
    replace (N =? 1) with false by (symmetry; apply Z.eqb_neq; lia).
    assert (HQ : (1 < inject_Z N)%Q) by (rewrite (Zlt_Qlt 1 N) in H1; exact H1).
    assert (Hn0 : (0 <= inject_Z n)%Q) by (rewrite (Zle_Qle 0 n) in Hn; tauto).
    assert (Hn1 : (inject_Z n <= inject_Z N - 1)%Q).
    { assert (n <= N - 1) by lia. rewrite (Zle_Qle n (N - 1)) in H.
      rewrite inject_Z_pred in H. lra. }
    rewrite inject_Z_pred.
    set (t := (inject_Z n / (inject_Z N - 1))%Q).
    assert (Ht : (0 <= t <= 1)%Q).
    { unfold t. split.
      - apply Qle_shift_div_l; lra.
      - apply Qle_shift_div_r; lra. }
    assert (E : (inject_Z n * ((beta - alpha) / (inject_Z N - 1))
                 == t * (beta - alpha))%Q)
      by (unfold t; field; lra).
    rewrite E. split; nra.
Qed.

Variables (sd lo hi : Q).
Hypothesis Hs : (0 < sd)%Q.
Hypothesis Hlo : (alpha - sd <= lo)%Q.
Hypothesis Hlohi : (lo <= hi)%Q.
Hypothesis Hhi : (hi <= beta + sd)%Q.

Let a := LL_idx (lo - sd) alpha beta N.
Let u := UR_idx (hi + sd) alpha beta N.

(** The clipped bounds delimit a non-empty range of lattice indices. *)
Lemma window_in_lattice : 0 <= a /\ a <= u /\ u <= N - 1.
Proof.
  unfold a, u, LL_idx, UR_idx.
  pose proof axis_count as HN. pose proof ratio_nonneg as Hr.
  set (qL := ((lo - sd - alpha) * ratio alpha beta N)%Q).
  set (qU := ((hi + sd - alpha) * ratio alpha beta N)%Q).
  assert (HLU : (qL <= qU)%Q) by (unfold qL, qU; nra).
  assert (HU0 : (0 <= qU)%Q) by (unfold qU; nra).
  assert (HL1 : (qL <= inject_Z (N - 1))%Q).
  { unfold qL. destruct (Z.eq_dec N 1) as [->|HN1].
    - unfold ratio. change (1 <? 1) with false. cbv iota.
      change (inject_Z 1) with 1%Q. change (inject_Z (1 - 1)) with 0%Q. lra.
    - assert (H1 : 1 < N) by lia. pose proof (axis_strict H1) as Hlt.
      assert (E : ((beta - alpha) * ratio alpha beta N == inject_Z (N - 1))%Q).
      { unfold ratio.
        replace (1 <? N) with true by (symmetry; now apply Z.ltb_lt).
        rewrite inject_Z_pred. field. lra. }
      rewrite <- E. nra. }
  assert (F1 : Qfloor qL <= N - 1).
  { rewrite Zle_Qle. eapply Qle_trans; [apply Qfloor_le | exact HL1]. }
  assert (C0 : 0 <= Qceiling qU).
  { rewrite Zle_Qle. eapply Qle_trans; [exact HU0 | apply Qle_ceiling]. }
  assert (FC : Qfloor qL <= Qceiling qU).
  { rewrite Zle_Qle. eapply Qle_trans; [apply Qfloor_le|].
    eapply Qle_trans; [exact HLU | apply Qle_ceiling]. }
  lia.
Qed.

(** A lattice node within the kernel support of a point between [lo] and
    [hi] has its index inside the bounds. *)
Lemma window_covers (p : Q) (n : Z) :
  (lo <= p <= hi)%Q -> 0 <= n < N ->
  (p - sd <= alpha + inject_Z n * lattice_step alpha beta N <= p + sd)%Q ->
  a <= n <= u.
Proof.
  intros Hp Hn Hz. unfold a, u, LL_idx, UR_idx.
  pose proof ratio_nonneg as Hr. pose proof (node_ratio n Hn) as E.
  set (zn := (alpha + inject_Z n * lattice_step alpha beta N)%Q) in *.
  assert (HL : ((lo - sd - alpha) * ratio alpha beta N <= inject_Z n)%Q)
    by (rewrite <- E; nra).
  assert (HU : (inject_Z n <= (hi + sd - alpha) * ratio alpha beta N)%Q)
    by (rewrite <- E; nra).
  assert (F : Qfloor ((lo - sd - alpha) * ratio alpha beta N) <= n).
  { rewrite Zle_Qle. eapply Qle_trans; [apply Qfloor_le | exact HL]. }
  assert (C : n <= Qceiling ((hi + sd - alpha) * ratio alpha beta N)).
  { rewrite Zle_Qle. eapply Qle_trans; [exact HU | apply Qle_ceiling]. }
  lia.
Qed.

End Axis.

(* ###################################################################### *)
(** * The clusters of a constructed operator *)

Lemma nth_map_seq {A : Type} (f : nat -> A) (n d : nat) (a : A) :
  (d < n)%nat -> nth d (map f (seq 0 n)) a = f d.
Proof.
  intros H. rewrite (nth_indep _ a (f 0%nat))
    by (now rewrite length_map, length_seq).
  rewrite (map_nth f), seq_nth by assumption. reflexivity.
Qed.

Lemma init_numpy x z kernel ew kwargs op info :
  __init__ x z kernel ew kwargs = Ok op ->
  _cl_info op = Some info -> ndi (_x op) = NUMPY.
Proof.
  intros Hop Hinfo. apply init_Ok in Hop. destruct Hop as [_ ->].
  unfold built in Hinfo |- *. cbn [_cl_info _x] in *.
  destruct (ndi (canon_x x)); [reflexivity | discriminate | discriminate].
Qed.

Lemma cluster_window op info c :
  wf_op op -> ndi (_x op) = NUMPY -> _cl_info op = Some info -> In c info ->
  x_idx (snd c) <> [] /\
  (forall g, In g (x_idx (snd c)) -> 0 <= g < dim_size op /\ in_reach op g) /\
  length (z_anchor (snd c)) = codim_rank op /\
  length (z_num (snd c)) = codim_rank op /\
  forall d, (d < codim_rank op)%nat ->
    let sd := support (nth d (_kernel op) no_kernel) in
    let alpha := nth d (start (_z op)) 0%Q in
    let beta := nth d (stop (_z op)) 0%Q in
    let N := nth d (num (_z op)) 0 in
    let a := LL_idx (Qmin_list (column op (snd c) d) - sd) alpha beta N in
    let u := UR_idx (Qmax_list (column op (snd c) d) + sd) alpha beta N in
    nth d (z_anchor (snd c)) 0 = a /\ nth d (z_num (snd c)) 0 = u - a + 1.
Proof.
  intros W Hnp Hinfo Hc.
  destruct (wf_cl_info op W Hnp) as [E HD]. rewrite E in Hinfo.
  injection Hinfo as <-.
  pose proof (wf_cluster_size op W) as Hcap.
  apply build_info_inv in Hc; [|lia].
  destruct Hc as (xi & Hne & Hrange & ->).
  set (a2g := filter _ _) in *.
  assert (Hs : length (map support (_kernel op)) = codim_rank op)
    by (rewrite length_map; apply (wf_len_kernel op W)).
  assert (Hmem : forall g, In g (map (fun i => nth i a2g 0) xi) ->
                           0 <= g < dim_size op /\ in_reach op g).
  { intros g Hg. apply in_map_iff in Hg. destruct Hg as (i & <- & Hi).
    assert (Hin : In (nth i a2g 0) a2g) by (apply nth_In, Hrange, Hi).
    unfold a2g in Hin. apply filter_In in Hin. destruct Hin as [H1 H2].
    apply In_zrange in H1. rewrite dim_size_eq by assumption.
    split; [exact H1|]. now apply active_iff. }
  cbn [cluster_info x_idx z_anchor z_num].
  repeat apply conj.
  - destruct xi; [congruence | discriminate].
  - exact Hmem.
  - now rewrite length_map, length_seq.
  - now rewrite length_map, length_seq.
  - intros d Hd. cbv zeta.
    assert (Hcol : map (fun p : list Q => nth d p 0%Q)
                       (map (fun i => nth i (map (row (_x op)) a2g) []) xi)
                   = column op
                       {| x_idx := map (fun i => nth i a2g 0) xi;
                          z_anchor := []; z_num := [] |} d).
    { unfold column. cbn [x_idx]. rewrite !map_map. apply map_ext_in.
      intros i Hi.
      rewrite (nth_indep _ [] (row (_x op) 0))
        by (rewrite length_map; now apply Hrange).
      rewrite (map_nth (row (_x op))). apply nth_row.
      pose proof (wf_rank op W). lia. }
    unfold column in *. cbn [x_idx] in *.
    rewrite !nth_map_seq by (rewrite Hs; exact Hd).
    rewrite nth_map_support, Hcol. split; reflexivity.
Qed.

Lemma column_bounds op cl d g :
  In g (x_idx cl) ->
  (Qmin_list (column op cl d) <= item (_x op) [g; Z.of_nat d])%Q /\
  (item (_x op) [g; Z.of_nat d] <= Qmax_list (column op cl d))%Q.
Proof.
  intros Hg.
  assert (H : In (item (_x op) [g; Z.of_nat d]) (column op cl d))
    by (unfold column; apply in_map_iff; eauto).
  split; [now apply Qmin_list_le | now apply Qmax_list_ge].
Qed.

Lemma column_attained op cl d :
  x_idx cl <> [] ->
  (exists g, In g (x_idx cl) /\
             Qmin_list (column op cl d) = item (_x op) [g; Z.of_nat d]) /\
  (exists g, In g (x_idx cl) /\
             Qmax_list (column op cl d) = item (_x op) [g; Z.of_nat d]).
Proof.
  intros Hne.
  assert (Hc : column op cl d <> [])
    by (unfold column; destruct (x_idx cl); [congruence | discriminate]).
  split.
  - pose proof (Qmin_list_In _ Hc) as H. unfold column in H at 2.
    apply in_map_iff in H. destruct H as (g & Hg & Hin). eauto.
  - pose proof (Qmax_list_In _ Hc) as H. unfold column in H at 2.
    apply in_map_iff in H. destruct H as (g & Hg & Hin). eauto.
Qed.

(** Nodes of the full lattice. *)
Lemma node_eq op d n :
  (d < codim_rank op)%nat -> 0 <= n < nth d (num (_z op)) 0 ->
  node op d n
  = (nth d (start (_z op)) 0
     + inject_Z n * lattice_step (nth d (start (_z op)) 0)
                                 (nth d (stop (_z op)) 0)
                                 (nth d (num (_z op)) 0%Z))%Q.
Proof.
  intros Hd Hn. unfold node, _lattice.
  rewrite nth_map_seq by exact Hd.
  unfold lattice_axis, arange_roi.
  set (f := fun n0 : Z => _).
  rewrite (nth_indep _ 0%Q (f 0)) by (rewrite length_map, length_zrange; lia).
  rewrite (map_nth f), nth_zrange by lia.
  unfold f. f_equal. f_equal. f_equal. lia.
Qed.

(* ###################################################################### *)
(** * Finite sums of rationals *)

Lemma Qsum_app (l1 l2 : list Q) : (Qsum (l1 ++ l2) == Qsum l1 + Qsum l2)%Q.
Proof.
  induction l1 as [|a l1 IH]; simpl; [ring|]. rewrite IH. ring.
Qed.

Lemma Qsum_ext {A : Type} (f g : A -> Q) (l : list A) :
  (forall a, In a l -> (f a == g a)%Q) ->
  (Qsum (map f l) == Qsum (map g l))%Q.
Proof.
  induction l as [|a l IH]; intros H; simpl; [reflexivity|].
  rewrite (H a) by now left. rewrite IH; [reflexivity|].
  intros b Hb. apply H. now right.
Qed.

Lemma Qsum_zero {A : Type} (f : A -> Q) (l : list A) :
  (forall a, In a l -> (f a == 0)%Q) -> (Qsum (map f l) == 0)%Q.
Proof.
  induction l as [|a l IH]; intros H; simpl; [reflexivity|].
  rewrite (H a) by now left. rewrite IH; [ring|].
  intros b Hb. apply H. now right.
Qed.





Lemma Qsum_perm {A : Type} (f : A -> Q) (l1 l2 : list A) :
  Permutation l1 l2 -> (Qsum (map f l1) == Qsum (map f l2))%Q.
Proof.
  induction 1; simpl.
  - reflexivity.
  - now rewrite IHPermutation.
  - ring.
  - now rewrite IHPermutation1.
Qed.

Lemma Qsum_concat {A : Type} (f : A -> Q) (ls : list (list A)) :
  (Qsum (map f (concat ls)) == Qsum (map (fun l => Qsum (map f l)) ls))%Q.
Proof.
  induction ls as [|l ls IH]; simpl; [reflexivity|].
  rewrite map_app, Qsum_app, IH. reflexivity.
Qed.

Lemma Qsum_filter {A : Type} (p : A -> bool) (f : A -> Q) (l : list A) :
  (Qsum (map f (filter p l))
   == Qsum (map (fun a => if p a then f a else 0) l))%Q.
Proof.
  induction l as [|a l IH]; simpl; [reflexivity|].
  destruct (p a); simpl; rewrite IH; ring.
Qed.

(** A sum whose terms vanish except at one element of a duplicate-free
    list. *)
Lemma Qsum_pick {A : Type} (p : A -> bool) (f : A -> Q) (l : list A) (a0 : A) :
  NoDup l -> In a0 l ->
  (forall a, In a l -> (p a = true <-> a = a0)) ->
  (Qsum (map (fun a => if p a then f a else 0) l) == f a0)%Q.
Proof.
  induction l as [|a l IH]; intros Hnd Hin Hp; [contradiction|].
  inversion Hnd as [|? ? Hna Hnd']; subst. simpl.
  destruct Hin as [->|Hin].
  - replace (p a0) with true by (symmetry; apply Hp; [now left | reflexivity]).
    rewrite Qsum_zero; [ring|].
    intros b Hb. destruct (p b) eqn:E; [|reflexivity].
    apply Hp in E; [|now right]. subst b. contradiction.
  - destruct (p a) eqn:E.
    + apply Hp in E; [|now left]. subst a. contradiction.
    + rewrite IH; [ring | assumption | assumption |].
      intros b Hb. apply Hp. now right.
Qed.

Lemma Qsum_none {A : Type} (p : A -> bool) (f : A -> Q) (l : list A) :
  (forall a, In a l -> p a = false) ->
  (Qsum (map (fun a => if p a then f a else 0) l) == 0)%Q.
Proof.
  intros H. apply Qsum_zero. intros a Ha. now rewrite (H a Ha).
Qed.


(* ###################################################################### *)
(** * Loops that accumulate into an array *)

(** A loop whose every pass adds to cell [j] an amount that does not depend
    on the array adds the sum of the amounts. *)
Lemma fold_additive {A T : Type} (proj : T -> Q) (Inv : T -> Prop)
  (step : T -> A -> T) (delta : A -> Q) (l : list A) :
  (forall t a, Inv t -> Inv (step t a)) ->
  (forall t a, Inv t -> (proj (step t a) == proj t + delta a)%Q) ->
  forall t, Inv t ->
    (proj (fold_left step l t) == proj t + Qsum (map delta l))%Q.
Proof.
  intros Hinv Hstep. induction l as [|a l IH]; intros t Ht; simpl.
  - ring.
  - rewrite IH by (now apply Hinv). rewrite Hstep by assumption. ring.
Qed.

Lemma fold_invariant {A T : Type} (Inv : T -> Prop) (step : T -> A -> T)
  (l : list A) :
  (forall t a, Inv t -> Inv (step t a)) ->
  forall t, Inv t -> Inv (fold_left step l t).
Proof.
  intros Hinv. induction l as [|a l IH]; intros t Ht; simpl; auto.
Qed.

Lemma upd_add (out : list Z -> Q) (i j : list Z) (v : Q) :
  (upd out i (out i + v) j == out j + (if list_eqb j i then v else 0))%Q.
Proof.
  unfold upd. destruct (list_eqb j i) eqn:E.
  - apply list_eqb_eq in E. subst. reflexivity.
  - ring.
Qed.

(* ###################################################################### *)
(** * Multi-indices *)

Lemma in_shape_length sh idx :
  in_shape sh idx = true -> length idx = length sh.
Proof.
  revert idx. induction sh as [|n sh IH]; intros [|i idx]; simpl;
    try discriminate; [reflexivity|].
  rewrite !andb_true_iff. intros [_ H]. f_equal. now apply IH.
Qed.

Lemma In_ndindex sh idx : In idx (ndindex sh) <-> in_shape sh idx = true.
Proof.
  revert idx. induction sh as [|n sh IH]; intros idx; simpl.
  - destruct idx as [|i r].
    + split; [reflexivity | intros _; now left].
    + split; [intros [H|[]]; discriminate | discriminate].
  - rewrite in_flat_map. split.
    + intros (i & Hi & H). apply in_map_iff in H. destruct H as (r & <- & Hr).
      apply In_zrange in Hi. apply IH in Hr. rewrite Hr.
      rewrite !andb_true_iff, Z.leb_le, Z.ltb_lt. lia.
    + destruct idx as [|i r]; [discriminate|].
      rewrite !andb_true_iff, Z.leb_le, Z.ltb_lt. intros [[H1 H2] H3].
      exists i. split; [apply In_zrange; lia|].
      apply in_map, IH, H3.
Qed.

Lemma NoDup_ndindex sh : NoDup (ndindex sh).
Proof.
  induction sh as [|n sh IH]; simpl; [repeat constructor; intros []|].
  pose proof (NoDup_zrange 0 n) as Hr. revert Hr.
  generalize (zrange 0 n) as l.
  induction l as [|i l IHl]; intros Hr; simpl; [constructor|].
  inversion Hr as [|? ? Hni Hr']; subst.
  apply NoDup_app.
  - apply Injective_map_NoDup; [|exact IH]. intros a b H. now injection H.
  - now apply IHl.
  - intros a Ha Hb. apply in_map_iff in Ha. destruct Ha as (r & <- & _).
    apply in_flat_map in Hb. destruct Hb as (i' & Hi' & Hb).
    apply in_map_iff in Hb. destruct Hb as (r' & E & _).
    injection E as -> _. contradiction.
Qed.

Lemma app_inj_length {A : Type} (l1 l2 r1 r2 : list A) :
  length l1 = length l2 -> l1 ++ r1 = l2 ++ r2 -> l1 = l2 /\ r1 = r2.
Proof.
  revert l2. induction l1 as [|a l1 IH]; intros [|b l2]; simpl;
    try discriminate; intros Hl H; [auto|].
  injection H as -> H. injection Hl as Hl.
  destruct (IH l2 Hl H) as [-> ->]. auto.
Qed.

Lemma list_eqb_app (l1 l2 r1 r2 : list Z) :
  length l1 = length l2 ->
  list_eqb (l1 ++ r1) (l2 ++ r2) = list_eqb l1 l2 && list_eqb r1 r2.
Proof.
  intros Hl.
  destruct (list_eqb l1 l2) eqn:E1, (list_eqb r1 r2) eqn:E2; simpl.
  - apply list_eqb_eq in E1, E2. subst. apply list_eqb_refl.
  - apply list_eqb_neq. intros H. apply app_inj_length in H; [|exact Hl].
    apply list_eqb_neq in E2. tauto.
  - apply list_eqb_neq. intros H. apply app_inj_length in H; [|exact Hl].
    apply list_eqb_neq in E1. tauto.
  - apply list_eqb_neq. intros H. apply app_inj_length in H; [|exact Hl].
    apply list_eqb_neq in E1. tauto.
Qed.

(* ###################################################################### *)
(** * [find_bounds] *)

Lemma Qabs_not_pos (v : Q) : Qlt_bool 0 (Qabs v) = false -> (v == 0)%Q.
Proof.
  intros H.
  assert (Hle : (Qabs v <= 0)%Q).
  { destruct (Qlt_le_dec 0 (Qabs v)) as [Hlt|Hle]; [|exact Hle].
    apply Qlt_bool_iff in Hlt. congruence. }
  apply Qabs_Qle_condition in Hle. lra.
Qed.

Section FindBounds.

Variable x : list Q.
Let N := Z.of_nat (length x).

Lemma find_bounds_loop_spec (n k : nat) (a : Z) (af : bool) (b : Z)
  (bf : bool) :
  (k + n)%nat = length x ->
  (forall i, 0 <= i < (if af then a else Z.of_nat k) ->
             (nth (Z.to_nat i) x 0 == 0)%Q) ->
  (forall i, (if bf then b else N - Z.of_nat k) <= i < N ->
             (nth (Z.to_nat i) x 0 == 0)%Q) ->
  zero_outside x
    (find_bounds_loop x N (map Z.of_nat (seq k n)) a af b bf).
Proof.
  revert k a af b bf. induction n as [|n IH]; intros k a af b bf Hk Hl Hr.
  - simpl. intros i Hi Hout. simpl in Hout. fold N in Hi.
    assert (Hk' : Z.of_nat k = N) by (unfold N; lia).
    destruct af.
    + destruct bf.
      * destruct (Z_lt_ge_dec i a); [apply Hl; lia | apply Hr; lia].
      * apply Hr. lia.
    + apply Hl. lia.
  - cbn [seq map find_bounds_loop].
    set (lhs := nth (Z.to_nat (Z.of_nat k)) x 0%Q).
    set (rhs := nth (Z.to_nat (N - 1 - Z.of_nat k)) x 0%Q).
    assert (Hl' : forall i,
               0 <= i < (if af || Qlt_bool 0 (Qabs lhs)
                         then (if af then a else Z.of_nat k)
                         else Z.of_nat (S k)) ->
               (nth (Z.to_nat i) x 0 == 0)%Q).
    { intros i Hi. destruct af; simpl in Hi; [now apply Hl|].
      destruct (Qlt_bool 0 (Qabs lhs)) eqn:E; [now apply Hl|].
      destruct (Z.eq_dec i (Z.of_nat k)) as [->|Hne].
      - now apply Qabs_not_pos.
      - apply Hl. lia. }
    assert (Hr' : forall i,
               (if bf || Qlt_bool 0 (Qabs rhs)
                then (if bf then b else N - Z.of_nat k)
                else N - Z.of_nat (S k)) <= i < N ->
               (nth (Z.to_nat i) x 0 == 0)%Q).
    { intros i Hi. destruct bf; simpl in Hi; [now apply Hr|].
      destruct (Qlt_bool 0 (Qabs rhs)) eqn:E; [now apply Hr|].
      destruct (Z.eq_dec i (N - 1 - Z.of_nat k)) as [->|Hne].
      - now apply Qabs_not_pos.
      - apply Hr. lia. }
    destruct af, bf; simpl negb; simpl andb; cbv iota beta.
    + simpl in Hl', Hr'. intros i Hi Hout. simpl in Hout. fold N in Hi.
      destruct (Z_lt_ge_dec i a); [apply Hl; lia | apply Hr; lia].
    + simpl in Hl'. destruct (Qlt_bool 0 (Qabs rhs)) eqn:E; simpl in Hr'.
      * intros i Hi Hout. simpl in Hout. fold N in Hi.
        destruct (Z_lt_ge_dec i a); [apply Hl'; lia | apply Hr'; lia].
      * apply IH; [lia | exact Hl' | exact Hr'].
    + simpl in Hr'. destruct (Qlt_bool 0 (Qabs lhs)) eqn:E; simpl in Hl'.
      * intros i Hi Hout. simpl in Hout. fold N in Hi.
        destruct (Z_lt_ge_dec i (Z.of_nat k)); [apply Hl'; lia | apply Hr'; lia].
      * apply IH; [lia | exact Hl' | exact Hr'].
    + destruct (Qlt_bool 0 (Qabs lhs)) eqn:E1,
               (Qlt_bool 0 (Qabs rhs)) eqn:E2; simpl in Hl', Hr'.
      * intros i Hi Hout. simpl in Hout. fold N in Hi.
        destruct (Z_lt_ge_dec i (Z.of_nat k)); [apply Hl'; lia | apply Hr'; lia].
      * apply IH; [lia | exact Hl' | exact Hr'].
      * apply IH; [lia | exact Hl' | exact Hr'].
      * apply IH; [lia | exact Hl' | exact Hr'].
Qed.

Lemma find_bounds_spec : zero_outside x (find_bounds x).
Proof.
  unfold find_bounds. fold N. unfold N at 2. rewrite zrange_of_nat.
  apply find_bounds_loop_spec.
  - reflexivity.
  - intros i Hi. simpl in Hi. lia.
  - intros i Hi. simpl in Hi. lia.
Qed.

End FindBounds.

(* ###################################################################### *)
(** * The box of non-zero weights of a point *)

Lemma find_bounds_loop_range (x : list Q) (N : Z) (range : list Z)
  (a : Z) (af : bool) (b : Z) (bf : bool) :
  (forall i, In i range -> 0 <= i < N) ->
  0 <= a <= N -> 0 <= b <= N ->
  let ab := find_bounds_loop x N range a af b bf in
  0 <= fst ab <= N /\ 0 <= snd ab <= N.
Proof.
  revert a af b bf. induction range as [|i range IH]; intros a af b bf Hr Ha Hb.
  - simpl. auto.
  - cbn [find_bounds_loop].
    assert (Hi : 0 <= i < N) by (apply Hr; now left).
    assert (Hr' : forall j, In j range -> 0 <= j < N)
      by (intros j Hj; apply Hr; now right).
    destruct (negb af && Qlt_bool 0 (Qabs (nth (Z.to_nat i) x 0%Q)));
      destruct (negb bf
                && Qlt_bool 0 (Qabs (nth (Z.to_nat (N - 1 - i)) x 0%Q)));
      cbv beta iota;
      match goal with
      | |- context [if ?c then _ else _] =>
          destruct c; [simpl; lia | apply IH; auto; lia]
      end.
Qed.

Lemma find_bounds_range (x : list Q) :
  0 <= fst (find_bounds x) <= Z.of_nat (length x) /\
  0 <= snd (find_bounds x) <= Z.of_nat (length x).
Proof.
  unfold find_bounds. apply find_bounds_loop_range; try lia.
  intros i Hi. apply In_zrange in Hi. lia.
Qed.

Lemma in_roi_length roi i : in_roi roi i = true -> length i = length roi.
Proof.
  revert i. induction roi as [|[a b] roi IH]; intros [|n i]; simpl;
    try discriminate; [reflexivity|].
  rewrite !andb_true_iff. intros [_ H]. f_equal. now apply IH.
Qed.

Lemma in_roi_nth roi i :
  in_roi roi i = true <->
  length i = length roi /\
  forall d, (d < length roi)%nat ->
    fst (nth d roi (0, 0)) <= nth d i 0 < snd (nth d roi (0, 0)).
Proof.
  revert i. induction roi as [|[a b] roi IH]; intros [|n i]; simpl.
  - split; [intros _; split; [reflexivity | intros d Hd; lia] | reflexivity].
  - split; [discriminate | intros [H _]; discriminate].
  - split; [discriminate | intros [H _]; discriminate].
  - rewrite !andb_true_iff, Z.leb_le, Z.ltb_lt, IH. split.
    + intros [[H1 H2] [H3 H4]]. split; [now f_equal|].
      intros [|d] Hd; simpl; [lia | apply H4; lia].
    + intros [H1 H2]. split; [|split].
      * pose proof (H2 0%nat ltac:(lia)) as H0. simpl in H0. lia.
      * now injection H1.
      * intros d Hd. apply (H2 (S d)). lia.
Qed.

Lemma in_shape_nth sh i :
  in_shape sh i = true <->
  length i = length sh /\
  forall d, (d < length sh)%nat -> 0 <= nth d i 0 < nth d sh 0.
Proof.
  revert i. induction sh as [|n sh IH]; intros [|k i]; simpl.
  - split; [intros _; split; [reflexivity | intros d Hd; lia] | reflexivity].
  - split; [discriminate | intros [H _]; discriminate].
  - split; [discriminate | intros [H _]; discriminate].
  - rewrite !andb_true_iff, Z.leb_le, Z.ltb_lt, IH. split.
    + intros [[H1 H2] [H3 H4]]. split; [now f_equal|].
      intros [|d] Hd; simpl; [lia | apply H4; lia].
    + intros [H1 H2]. split; [|split].
      * pose proof (H2 0%nat ltac:(lia)) as H0. simpl in H0. lia.
      * now injection H1.
      * intros d Hd. apply (H2 (S d)). lia.
Qed.

(** Offsets within the support, shifted by the lower bounds, are the
    multi-indices between the bounds. *)
Lemma offset_in_roi (bnds : list (Z * Z)) (off : list Z) :
  in_shape (map2 Z.sub (map snd bnds) (map fst bnds)) off = true ->
  in_roi bnds (map2 Z.add (map fst bnds) off) = true /\
  map2 Z.sub (map2 Z.add (map fst bnds) off) (map fst bnds) = off.
Proof.
  revert off. induction bnds as [|[a b] bnds IH]; intros [|o off]; simpl;
    try discriminate; [auto|].
  rewrite !andb_true_iff, !Z.leb_le, !Z.ltb_lt. intros [[H1 H2] H3].
  destruct (IH off H3) as [H4 H5]. rewrite H4, H5.
  repeat split; try lia. f_equal. lia.
Qed.

Lemma roi_offset (bnds : list (Z * Z)) (i : list Z) :
  in_roi bnds i = true ->
  in_shape (map2 Z.sub (map snd bnds) (map fst bnds))
           (map2 Z.sub i (map fst bnds)) = true /\
  map2 Z.add (map fst bnds) (map2 Z.sub i (map fst bnds)) = i.
Proof.
  revert i. induction bnds as [|[a b] bnds IH]; intros [|n i]; simpl;
    try discriminate; [auto|].
  rewrite !andb_true_iff, !Z.leb_le, !Z.ltb_lt. intros [[H1 H2] H3].
  destruct (IH i H3) as [H4 H5]. rewrite H4, H5.
  repeat split; try lia. f_equal. lia.
Qed.

(** The multi-indices between given bounds, as [np.ndindex] of the sizes
    shifted by the lower bounds. *)
Lemma In_offsets (bnds : list (Z * Z)) (i : list Z) :
  In i (map (fun off => map2 Z.add (map fst bnds) off)
            (ndindex (map2 Z.sub (map snd bnds) (map fst bnds))))
  <-> in_roi bnds i = true.
Proof.
  rewrite in_map_iff. split.
  - intros (off & <- & Hoff). apply In_ndindex in Hoff.
    now apply offset_in_roi.
  - intros H. apply roi_offset in H. destruct H as [H1 H2].
    eexists. split; [exact H2 | now apply In_ndindex].
Qed.

Lemma NoDup_offsets (bnds : list (Z * Z)) :
  NoDup (map (fun off => map2 Z.add (map fst bnds) off)
             (ndindex (map2 Z.sub (map snd bnds) (map fst bnds)))).
Proof.
  apply NoDup_map_NoDup_ForallPairs; [|apply NoDup_ndindex].
  intros o1 o2 H1 H2 E.
  apply In_ndindex, offset_in_roi in H1, H2.
  destruct H1 as [_ H1], H2 as [_ H2]. rewrite <- H1, <- H2. now rewrite E.
Qed.

Section Box.

Variables (kernel : list (list (list Q))) (S : list Z) (m : Z).

Lemma length_bounds : length (bounds kernel S m) = length S.
Proof. unfold bounds. now rewrite length_map, length_seq. Qed.

Lemma In_box (i : list Z) :
  In i (box kernel S m) <-> in_roi (bounds kernel S m) i = true.
Proof. apply In_offsets. Qed.

Lemma NoDup_box : NoDup (box kernel S m).
Proof. apply NoDup_offsets. Qed.

(** The box lies inside the window. *)
Lemma box_in_window (i : list Z) :
  in_roi (bounds kernel S m) i = true -> in_shape S i = true.
Proof.
  rewrite in_roi_nth, in_shape_nth, length_bounds. intros [Hl H].
  split; [exact Hl|]. intros d Hd. specialize (H d Hd).
  unfold bounds in H.
  rewrite (nth_indep _ (0, 0)
             (find_bounds (firstn (Z.to_nat (nth 0%nat S 0))
                                  (kernel_row kernel m 0))))
    in H by (now rewrite length_map, length_seq).
  rewrite (map_nth (fun d => find_bounds
                      (firstn (Z.to_nat (nth d S 0)) (kernel_row kernel m d))))
    in H.
  rewrite seq_nth in H by exact Hd. simpl in H.
  pose proof (find_bounds_range
                (firstn (Z.to_nat (nth d S 0)) (kernel_row kernel m d)))
    as [Ha Hb].
  rewrite length_firstn in Ha, Hb. lia.
Qed.

Lemma fold_mult_zero (f : nat -> Q) (l : list nat) (acc : Q) :
  (acc == 0)%Q \/ (exists d, In d l /\ (f d == 0)%Q) ->
  (fold_left (fun k d => (k * f d)%Q) l acc == 0)%Q.
Proof.
  revert acc. induction l as [|d l IH]; intros acc H; simpl.
  - destruct H as [H|(d & [] & _)]. exact H.
  - apply IH. destruct H as [H|(d' & [<-|Hin] & Hz)].
    + left. rewrite H. ring.
    + left. rewrite Hz. ring.
    + right. eauto.
Qed.

(** Inside the window, the weight of a multi-index outside the box is 0. *)
Lemma weight_outside_box (i : list Z) :
  in_shape S i = true -> in_roi (bounds kernel S m) i = false ->
  (weight kernel (length S) m i == 0)%Q.
Proof.
  intros Hs Hb. apply in_shape_nth in Hs. destruct Hs as [Hl Hs].
  assert (Hex : exists d, (d < length S)%nat /\
            ~ (fst (nth d (bounds kernel S m) (0, 0)) <= nth d i 0
               < snd (nth d (bounds kernel S m) (0, 0)))).
  { destruct (existsb (fun d =>
        negb ((fst (nth d (bounds kernel S m) (0, 0)) <=? nth d i 0)
              && (nth d i 0 <? snd (nth d (bounds kernel S m) (0, 0)))))
        (seq 0 (length S))) eqn:E.
    - apply existsb_exists in E. destruct E as (d & Hd & E).
      apply in_seq in Hd. exists d. split; [lia|].
      apply negb_true_iff, andb_false_iff in E.
      rewrite Z.leb_gt, Z.ltb_ge in E. lia.
    - exfalso. assert (in_roi (bounds kernel S m) i = true); [|congruence].
      apply in_roi_nth. rewrite length_bounds. split; [exact Hl|].
      intros d Hd.
      pose proof (existsb_nth _ (seq 0 (length S)) (n := d) 0%nat
                    ltac:(now rewrite length_seq) E) as Hn.
      rewrite seq_nth in Hn by exact Hd. simpl in Hn.
      apply negb_false_iff, andb_true_iff in Hn.
      rewrite Z.leb_le, Z.ltb_lt in Hn. exact Hn. }
  destruct Hex as (d & Hd & Hout). specialize (Hs d Hd).
  unfold weight. apply fold_mult_zero. right. exists d.
  split; [apply in_seq; lia|].
  unfold kernel_at.
  set (row := kernel_row kernel m d) in *.
  set (n := Z.to_nat (nth d S 0)).
  assert (Hbd : nth d (bounds kernel S m) (0, 0) = find_bounds (firstn n row)).
  { unfold bounds.
    rewrite (nth_indep _ (0, 0)
               (find_bounds (firstn (Z.to_nat (nth 0%nat S 0))
                                    (kernel_row kernel m 0))))
      by (now rewrite length_map, length_seq).
    rewrite (map_nth (fun d => find_bounds
               (firstn (Z.to_nat (nth d S 0)) (kernel_row kernel m d)))).
    now rewrite seq_nth by exact Hd. }
  rewrite Hbd in Hout.
  destruct (Nat.lt_ge_cases (Z.to_nat (nth d i 0)) (length row)) as [Hlt|Hge].
  - pose proof (find_bounds_spec (firstn n row) (nth d i 0)) as Hz.
    rewrite nth_firstn in Hz.
    assert (Hin : (Z.to_nat (nth d i 0%Z) <? n)%nat = true)
      by (apply Nat.ltb_lt; unfold n; lia).
    rewrite Hin in Hz.
    apply Hz; [|exact Hout]. rewrite length_firstn. unfold n. lia.
  - rewrite nth_overflow by exact Hge. reflexivity.
Qed.

End Box.

(* ###################################################################### *)
(** * What the generated kernels compute *)

Section Kernels.

Variables (stack : list (list Z)) (M : Z) (S : list Z).
Variables (kernel : list (list (list Q))).
Variable s : list Z.
Hypothesis Hnd : NoDup stack.
Hypothesis Hs : In s stack.
Hypothesis Hlen : forall ns, In ns stack -> length ns = length s.

(** One row of the stack is selected by its leading multi-index. *)
Lemma Qsum_stack (X : list Z -> Q) (i idx : list Z) :
  (Qsum (map (fun ns => if list_eqb (s ++ i) (ns ++ idx) then X ns else 0%Q)
             stack)
   == if list_eqb i idx then X s else 0%Q)%Q.
Proof.
  rewrite (Qsum_ext _ (fun ns => if list_eqb s ns && list_eqb i idx
                                 then X ns else 0%Q)).
  2:{ intros ns Hns. rewrite list_eqb_app by (symmetry; now apply Hlen).
      reflexivity. }
  destruct (list_eqb i idx).
  - rewrite (Qsum_ext _ (fun ns => if list_eqb s ns then X ns else 0%Q)).
    2:{ intros ns _. now rewrite andb_true_r. }
    apply Qsum_pick; [exact Hnd | exact Hs |].
    intros ns _. rewrite list_eqb_eq. split; congruence.
  - apply Qsum_zero. intros ns _. now rewrite andb_false_r.
Qed.

Lemma sum_over_box (m : Z) (W : list Z -> Q) :
  (forall i, in_shape S i = true -> in_roi (bounds kernel S m) i = false ->
             (W i == 0)%Q) ->
  (Qsum (map W (box kernel S m)) == Qsum (map W (ndindex S)))%Q.
Proof.
  intros HW.
  rewrite (Qsum_ext W (fun i => if in_roi (bounds kernel S m) i
                                then W i else 0%Q) (ndindex S)).
  2:{ intros i Hi. apply In_ndindex in Hi.
      destruct (in_roi (bounds kernel S m) i) eqn:E; [reflexivity|].
      now apply HW. }
  rewrite <- Qsum_filter. apply Qsum_perm, NoDup_Permutation.
  - apply NoDup_box.
  - apply NoDup_filter, NoDup_ndindex.
  - intros i. rewrite In_box, filter_In, In_ndindex. split.
    + intros H. split; [now apply (box_in_window kernel S m) | exact H].
    + tauto.
Qed.

Lemma f_spread_spec (w out : list Z -> Q) (i : list Z) :
  in_shape S i = true ->
  (f_spread stack M S w kernel out (s ++ i)
   == out (s ++ i)
      + Qsum (map (fun m => weight kernel (length S) m i * w (s ++ [m]))
                  (zrange 0 M)))%Q.
Proof.
  intros Hi. unfold f_spread.
  apply (fold_additive (fun t : list Z -> Q => t (s ++ i)) (fun _ => True));
    [auto | | exact I].
  intros t m _.
  rewrite (fold_additive (fun t : list Z -> Q => t (s ++ i)) (fun _ => True)
             _ (fun idx => if list_eqb i idx
                           then weight kernel (length S) m idx * w (s ++ [m])
                           else 0%Q)%Q); [ | auto | | exact I].
  - apply Qplus_comp; [reflexivity|].
    destruct (in_roi (bounds kernel S m) i) eqn:E.
    + apply (Qsum_pick (list_eqb i)
               (fun idx => weight kernel (length S) m idx * w (s ++ [m]))%Q).
      * apply NoDup_box.
      * now apply In_box.
      * intros idx _. rewrite list_eqb_eq. split; congruence.
    + rewrite Qsum_none.
      * rewrite weight_outside_box by assumption. ring.
      * intros idx Hidx. apply list_eqb_neq. intros ->.
        apply In_box in Hidx. congruence.
  - intros t' idx _.
    rewrite (fold_additive (fun t : list Z -> Q => t (s ++ i)) (fun _ => True)
               _ (fun ns => if list_eqb (s ++ i) (ns ++ idx)
                            then weight kernel (length S) m idx * w (ns ++ [m])
                            else 0%Q)%Q); [ | auto | | exact I].
    + apply Qplus_comp; [reflexivity|].
      apply (Qsum_stack
               (fun ns => weight kernel (length S) m idx * w (ns ++ [m]))%Q).
    + intros t'' ns _. apply upd_add.
Qed.

Lemma f_interpolate_spec (v out : list Z -> Q) (g : Z) :
  0 <= g < M ->
  (f_interpolate stack M S v kernel out (s ++ [g])
   == out (s ++ [g])
      + Qsum (map (fun i => weight kernel (length S) g i * v (s ++ i))
                  (ndindex S)))%Q.
Proof.
  intros Hg. unfold f_interpolate.
  rewrite (fold_additive (fun t : list Z -> Q => t (s ++ [g]))
             (fun _ => True) _
             (fun m => if list_eqb [g] [m]
                       then Qsum (map (fun i => weight kernel (length S) m i
                                                * v (s ++ i))
                                      (box kernel S m))
                       else 0%Q)%Q); [ | auto | | exact I].
  - apply Qplus_comp; [reflexivity|].
    rewrite (Qsum_pick (fun m => list_eqb [g] [m])
               (fun m => Qsum (map (fun i => weight kernel (length S) m i
                                             * v (s ++ i))
                                   (box kernel S m)))%Q _ g).
    + apply sum_over_box. intros i Hi Hout.
      rewrite weight_outside_box by assumption. ring.
    + apply NoDup_zrange.
    + apply In_zrange. lia.
    + intros m _. rewrite list_eqb_eq. split; congruence.
  - intros t m _.
    rewrite (fold_additive (fun t : list Z -> Q => t (s ++ [g]))
               (fun _ => True) _
               (fun idx => if list_eqb [g] [m]
                           then weight kernel (length S) m idx * v (s ++ idx)
                           else 0%Q)%Q); [ | auto | | exact I].
    + apply Qplus_comp; [reflexivity|].
      destruct (list_eqb [g] [m]); [reflexivity|].
      apply Qsum_zero. reflexivity.
    + intros t' idx _.
      rewrite (fold_additive (fun t : list Z -> Q => t (s ++ [g]))
                 (fun _ => True) _
                 (fun ns => if list_eqb (s ++ [g]) (ns ++ [m])
                            then weight kernel (length S) m idx * v (ns ++ idx)
                            else 0%Q)%Q); [ | auto | | exact I].
      * apply Qplus_comp; [reflexivity|].
        apply (Qsum_stack
                 (fun ns => weight kernel (length S) m idx * v (ns ++ idx))%Q).
      * intros t'' ns _. apply upd_add.
Qed.

End Kernels.

(* ###################################################################### *)
(** * Index bookkeeping *)

Lemma firstn_length_app {A : Type} (s n : list A) :
  firstn (length s) (s ++ n) = s.
Proof.
  rewrite firstn_app, Nat.sub_diag, firstn_all. simpl. apply app_nil_r.
Qed.

Lemma skipn_length_app {A : Type} (s n : list A) :
  skipn (length s) (s ++ n) = n.
Proof.
  rewrite skipn_app, Nat.sub_diag, skipn_all. reflexivity.
Qed.

Lemma map2_add_comm (a b : list Z) : map2 Z.add a b = map2 Z.add b a.
Proof.
  revert b. induction a as [|x a IH]; intros [|y b]; simpl; try reflexivity.
  rewrite IH. f_equal. lia.
Qed.

Lemma map_fst_map2 (a n : list Z) :
  length a = length n ->
  map fst (map2 (fun n0 num => (n0, n0 + num)) a n) = a.
Proof.
  revert n. induction a as [|x a IH]; intros [|y n]; simpl; try discriminate;
    intros H; [reflexivity|]. f_equal. apply IH. now injection H.
Qed.

Lemma sizes_map2 (a n : list Z) :
  length a = length n ->
  map2 Z.sub (map snd (map2 (fun n0 num => (n0, n0 + num)) a n))
             (map fst (map2 (fun n0 num => (n0, n0 + num)) a n)) = n.
Proof.
  revert n. induction a as [|x a IH]; intros [|y n]; simpl; try discriminate;
    intros H; [reflexivity|]. f_equal; [lia|]. apply IH. now injection H.
Qed.

Lemma fold_left_ext_in {A B : Type} (f g : A -> B -> A) (l : list B) (a : A) :
  (forall b k, In b l -> f k b = g k b) -> fold_left f l a = fold_left g l a.
Proof.
  revert a. induction l as [|b l IH]; intros a H; simpl; [reflexivity|].
  rewrite (H b a) by now left. apply IH. intros b' k Hb'. apply H. now right.
Qed.

Lemma map_nth_zrange {A : Type} (F : Z -> A) (l : list Z) :
  map (fun m => F (nth (Z.to_nat m) l 0)) (zrange 0 (Z.of_nat (length l)))
  = map F l.
Proof.
  rewrite zrange_of_nat, map_map.
  transitivity (map F (map (fun k => nth k l 0) (seq 0 (length l)))).
  - rewrite map_map. apply map_ext. intros k. now rewrite Nat2Z.id.
  - now rewrite map_nth_seq.
Qed.

(* ###################################################################### *)
(** * One cluster of a well-formed operator *)

Section Cluster.

Variable op : UniformSpread.
Hypothesis W : wf_op op.
Variable cl : ClInfo.
Hypothesis Hla : length (z_anchor cl) = codim_rank op.
Hypothesis Hln : length (z_num cl) = codim_rank op.
Hypothesis Hwin : forall d, (d < codim_rank op)%nat ->
  0 <= nth d (z_anchor cl) 0 /\ 0 <= nth d (z_num cl) 0 /\
  nth d (z_anchor cl) 0 + nth d (z_num cl) 0 <= nth d (num (_z op)) 0.

Let D := codim_rank op.
Let roi := roi_of cl.

Lemma rank_eq : Z.to_nat (nth 1 (shape (_x op)) 0) = D.
Proof. unfold D. rewrite <- (wf_rank op W). apply Nat2Z.id. Qed.

Lemma length_num : length (num (_z op)) = D.
Proof. unfold D, codim_rank. now rewrite (wf_codim op W). Qed.

Lemma length_roi : length roi = D.
Proof.
  unfold roi, roi_of. rewrite length_map2, Hla, Hln. apply Nat.min_id.
Qed.

Lemma roi_lower : map fst roi = z_anchor cl.
Proof. apply map_fst_map2. now rewrite Hla, Hln. Qed.

Lemma roi_sizes : map2 Z.sub (map snd roi) (map fst roi) = z_num cl.
Proof. apply sizes_map2. now rewrite Hla, Hln. Qed.

Lemma nth_roi d :
  (d < D)%nat ->
  nth d roi (0, 0)
  = (nth d (z_anchor cl) 0, nth d (z_anchor cl) 0 + nth d (z_num cl) 0).
Proof.
  intros Hd. unfold roi, roi_of.
  apply (nth_map2 (fun n0 num => (n0, n0 + num))); [rewrite Hla | rewrite Hln];
    exact Hd.
Qed.

Lemma roi_in_lattice n :
  in_roi roi n = true -> in_shape (num (_z op)) n = true.
Proof.
  rewrite in_roi_nth, in_shape_nth, length_roi, length_num.
  intros [Hl H]. split; [exact Hl|]. intros d Hd.
  specialize (H d Hd). rewrite (nth_roi d Hd) in H. simpl in H.
  specialize (Hwin d Hd). lia.
Qed.

(** Offsets into the window and lattice indices of the window. *)
Lemma window_offset n :
  in_roi roi n = true ->
  in_shape (z_num cl) (map2 Z.sub n (z_anchor cl)) = true /\
  map2 Z.add (z_anchor cl) (map2 Z.sub n (z_anchor cl)) = n.
Proof.
  intros H. apply roi_offset in H. now rewrite roi_sizes, roi_lower in H.
Qed.

Lemma window_indices :
  Permutation (map (fun i => map2 Z.add (z_anchor cl) i) (ndindex (z_num cl)))
              (filter (in_roi roi) (ndindex (num (_z op)))).
Proof.
  apply NoDup_Permutation.
  - pose proof (NoDup_offsets roi) as H. now rewrite roi_sizes, roi_lower in H.
  - apply NoDup_filter, NoDup_ndindex.
  - intros n. pose proof (In_offsets roi n) as H.
    rewrite roi_sizes, roi_lower in H. rewrite H, filter_In, In_ndindex.
    split; [|tauto]. intros Hn. split; [now apply roi_in_lattice | exact Hn].
Qed.

(** The lattice nodes of the window. *)
Lemma lattice_roi_axis d :
  (d < D)%nat ->
  nth d (_lattice op (Some roi)) []
  = map (fun n => (nth d (start (_z op)) 0
                   + inject_Z n
                     * lattice_step (nth d (start (_z op)) 0)
                                    (nth d (stop (_z op)) 0)
                                    (nth d (num (_z op)) 0%Z))%Q)
        (zrange (nth d (z_anchor cl) 0)
                (nth d (z_anchor cl) 0 + nth d (z_num cl) 0)).
Proof.
  intros Hd. unfold _lattice. rewrite nth_map_seq by exact Hd.
  unfold lattice_axis, arange_roi. rewrite (nth_roi d Hd).
  specialize (Hwin d Hd). unfold slice_bound.
  replace (nth d (z_anchor cl) 0 <? 0) with false
    by (symmetry; apply Z.ltb_ge; lia).
  replace (nth d (z_anchor cl) 0 + nth d (z_num cl) 0 <? 0) with false
    by (symmetry; apply Z.ltb_ge; lia).
  rewrite !Z.min_l by lia. reflexivity.
Qed.

Let kernel : list (list (list Q)) :=
  kernel_weights op (_lattice op (Some roi)) (map (row (_x op)) (x_idx cl))
                 (Z.to_nat (nth 1 (shape (_x op)) 0)) (z_num cl).

Lemma kernel_at_eq (j : nat) (d : nat) (i : Z) :
  (j < length (x_idx cl))%nat -> (d < D)%nat ->
  0 <= i < nth d (z_num cl) 0 ->
  kernel_at kernel (Z.of_nat j) d i
  = phi (nth d (_kernel op) no_kernel)
        (node op d (nth d (z_anchor cl) 0 + i)%Z
         - item (_x op) [nth j (x_idx cl) 0%Z; Z.of_nat d])%Q.
Proof.
  intros Hj Hd Hi. unfold kernel_at, kernel_row, kernel, kernel_weights.
  rewrite Nat2Z.id, rank_eq.
  rewrite (nth_indep _ [] (map (fun _ => []) (seq 0 D)))
    by (now rewrite !length_map).
  rewrite map_map.
  set (F := fun g : Z => map _ (seq 0 D)).
  rewrite (nth_indep _ _ (F 0)) by (now rewrite length_map).
  rewrite (map_nth F). unfold F.
  rewrite nth_map_seq by exact Hd.
  rewrite (lattice_roi_axis d Hd), map_map.
  set (G := fun n : Z => phi _ _).
  rewrite app_nth1 by (rewrite length_map, length_zrange; lia).
  rewrite (nth_indep _ 0%Q (G 0)) by (rewrite length_map, length_zrange; lia).
  rewrite (map_nth G), nth_zrange by lia. unfold G.
  rewrite Z2Nat.id by lia.
  specialize (Hwin d Hd).
  rewrite node_eq by (fold D; try exact Hd; lia).
  rewrite nth_row by (rewrite rank_eq; exact Hd).
  reflexivity.
Qed.

Lemma weight_eq (j : Z) (i : list Z) :
  0 <= j < Z.of_nat (length (x_idx cl)) ->
  in_shape (z_num cl) i = true ->
  weight kernel (length (z_num cl)) j i
  = dense_entry op (map2 Z.add (z_anchor cl) i)
                (nth (Z.to_nat j) (x_idx cl) 0).
Proof.
  intros Hj Hi. apply in_shape_nth in Hi. destruct Hi as [Hl Hi].
  unfold weight, dense_entry. rewrite Hln. fold D.
  apply fold_left_ext_in. intros d k Hd. apply in_seq in Hd.
  assert (Hd' : (d < D)%nat) by lia.
  rewrite Hln in Hi. specialize (Hi d Hd').
  rewrite <- (Z2Nat.id j) at 1 by lia.
  rewrite kernel_at_eq by (try exact Hd'; lia).
  unfold node.
  rewrite (nth_map2 Z.add _ _ _ 0 0 0) by (rewrite ?Hla, ?Hl, ?Hln; exact Hd').
  reflexivity.
Qed.

End Cluster.

(* ###################################################################### *)
(** * [_spread] and [_interpolate] on one cluster *)

(** The loop behind [out[..., x_idx] = w]. *)
Lemma assign_last (w : list Z -> Q) (x_idx : list Z) (s : list Z) (g : Z)
  (l : list Z) (o : list Z -> Q) :
  let r := fold_left (fun o j => fun idx =>
                        if last idx 0 =? nth (Z.to_nat j) x_idx 0
                        then w (removelast idx ++ [j]) else o idx) l o in
  (exists j, In j l /\ nth (Z.to_nat j) x_idx 0 = g /\
             r (s ++ [g]) = w (s ++ [j])) \/
  ((forall j, In j l -> nth (Z.to_nat j) x_idx 0 <> g) /\
   r (s ++ [g]) = o (s ++ [g])).
Proof.
  revert o. induction l as [|j l IH]; intros o; cbn [fold_left].
  - right. split; [intros j []|reflexivity].
  - cbv zeta in IH.
    destruct (IH (fun idx => if last idx 0 =? nth (Z.to_nat j) x_idx 0
                             then w (removelast idx ++ [j]) else o idx))
      as [(j' & Hj' & Hg & Hr) | (Hall & Hr)].
    + left. exists j'. repeat split; [now right | exact Hg | exact Hr].
    + rewrite last_last, removelast_last in Hr.
      destruct (Z.eqb_spec g (nth (Z.to_nat j) x_idx 0)) as [E|E].
      * left. exists j. repeat split; [now left | now symmetry | exact Hr].
      * right. split; [|exact Hr]. intros j0 [<-|Hj0]; [congruence|].
        now apply Hall.
Qed.

Section Cluster.

Variable op : UniformSpread.
Hypothesis W : wf_op op.
Variable cl : ClInfo.
Hypothesis Hla : length (z_anchor cl) = codim_rank op.
Hypothesis Hln : length (z_num cl) = codim_rank op.
Hypothesis Hwin : forall d, (d < codim_rank op)%nat ->
  0 <= nth d (z_anchor cl) 0 /\ 0 <= nth d (z_num cl) 0 /\
  nth d (z_anchor cl) 0 + nth d (z_num cl) 0 <= nth d (num (_z op)) 0.

Variables (sh s : list Z).
Hypothesis Hs : in_shape sh s = true.

Lemma stack_facts :
  NoDup (ndindex sh) /\ In s (ndindex sh) /\
  (forall ns, In ns (ndindex sh) -> length ns = length s).
Proof.
  repeat apply conj.
  - apply NoDup_ndindex.
  - now apply In_ndindex.
  - intros ns Hns. apply In_ndindex, in_shape_length in Hns.
    apply in_shape_length in Hs. congruence.
Qed.

Lemma spread_item (w out : NDArray) (n : list Z) :
  removelast (shape w) = sh ->
  shape out = sh ++ codim_shape op ->
  length n = codim_rank op ->
  (item (_spread op w out cl) (s ++ n)
   == item out (s ++ n)
      + Qsum (map (fun g => window_entry op cl n g * item w (s ++ [g]))
                  (x_idx cl)))%Q.
Proof.
  intros Hw Hout Hn. destruct stack_facts as (H1 & H2 & H3).
  pose proof (in_shape_length _ _ Hs) as Hls.
  unfold _spread. cbn [item set_item]. rewrite Hw.
  replace (length (shape out) - length (roi_of cl))%nat with (length s)
    by (rewrite Hout, length_app, (length_roi op cl Hla Hln);
        unfold codim_rank; lia).
  rewrite firstn_length_app, skipn_length_app.
  unfold window_entry.
  destruct (in_roi (roi_of cl) n) eqn:E.
  - apply Qplus_comp; [reflexivity|].
    destruct (window_offset op cl Hla Hln n E) as [Hoff Hback].
    rewrite (f_spread_spec _ _ _ _ s H1 H2 H3 _ _ _ Hoff).
    rewrite Qplus_0_l.
    rewrite (Qsum_ext _
               (fun m => dense_entry op n (nth (Z.to_nat m) (x_idx cl) 0%Z)
                         * item w (s ++ [nth (Z.to_nat m) (x_idx cl) 0%Z]))%Q).
    + rewrite (map_nth_zrange
                 (fun g => dense_entry op n g * item w (s ++ [g]))%Q).
      reflexivity.
    + intros m Hm. apply In_zrange in Hm.
      rewrite (weight_eq op W cl Hla Hln Hwin m _ Hm Hoff), Hback.
      unfold take_last. rewrite removelast_last, last_last. reflexivity.
  - rewrite Qsum_zero; [ring|]. intros g _. ring.
Qed.

Lemma interpolate_item (v out : NDArray) (g : Z) :
  shape v = sh ++ codim_shape op ->
  (In g (x_idx cl) ->
   (item (_interpolate op v out cl) (s ++ [g])
    == Qsum (map (fun n => window_entry op cl n g * item v (s ++ n))
                 (ndindex (codim_shape op))))%Q) /\
  (~ In g (x_idx cl) ->
   item (_interpolate op v out cl) (s ++ [g]) = item out (s ++ [g])).
Proof.
  intros Hv. destruct stack_facts as (H1 & H2 & H3).
  pose proof (in_shape_length _ _ Hs) as Hls.
  unfold _interpolate. cbn [item set_item].
  replace (length (shape v) - length (roi_of cl))%nat with (length sh)
    by (rewrite Hv, length_app, (length_roi op cl Hla Hln);
        unfold codim_rank; lia).
  rewrite Hv, firstn_length_app.
  match goal with
  | |- context [fold_left _ (zrange 0 ?Mq) (item out)] =>
      match goal with
      | |- context [fold_left (fun o j => fun idx =>
                      if _ then ?w _ else _) _ _] =>
          destruct (assign_last w (x_idx cl) s g (zrange 0 Mq) (item out))
            as [(j & Hj & Hg & Hr) | (Hall & Hr)]
      end
  end.
  - split; [|intros Hnot; exfalso; apply Hnot; rewrite <- Hg; apply nth_In;
             apply In_zrange in Hj; lia].
    intros _. cbv zeta in Hr. rewrite Hr. apply In_zrange in Hj.
    rewrite (f_interpolate_spec _ _ _ _ s H1 H2 H3 _ _ j) by lia.
    rewrite Qplus_0_l.
    rewrite (Qsum_ext _
               (fun i => (fun n => dense_entry op n g * item v (s ++ n))
                           (map2 Z.add (z_anchor cl) i))%Q).
    2:{ intros i Hi. apply In_ndindex in Hi.
        rewrite (weight_eq op W cl Hla Hln Hwin j i) by (try exact Hi; lia).
        rewrite Hg, <- Hls, firstn_length_app, skipn_length_app.
        now rewrite (map2_add_comm i). }
    rewrite <- (map_map (fun i => map2 Z.add (z_anchor cl) i)
                        (fun n => dense_entry op n g * item v (s ++ n))%Q).
    rewrite (Qsum_perm _ _ _ (window_indices op W cl Hla Hln Hwin)).
    rewrite Qsum_filter, <- (wf_codim op W).
    apply Qsum_ext. intros n _. unfold window_entry.
    destruct (in_roi (roi_of cl) n); ring.
  - split; [|intros _; exact Hr].
    intros Hin. exfalso. apply (In_nth _ _ 0) in Hin.
    destruct Hin as (k & Hk & Hg). apply (Hall (Z.of_nat k)).
    + apply In_zrange. lia.
    + now rewrite Nat2Z.id.
Qed.

End Cluster.

(* ###################################################################### *)
(** * All clusters: [apply] and [adjoint] *)

Lemma fold_additive_in {A T : Type} (proj : T -> Q) (Inv : T -> Prop)
  (step : T -> A -> T) (delta : A -> Q) (l : list A) :
  (forall t a, In a l -> Inv t -> Inv (step t a)) ->
  (forall t a, In a l -> Inv t -> (proj (step t a) == proj t + delta a)%Q) ->
  forall t, Inv t ->
    (proj (fold_left step l t) == proj t + Qsum (map delta l))%Q.
Proof.
  induction l as [|a l IH]; intros Hinv Hstep t Ht; simpl.
  - ring.
  - rewrite IH.
    + rewrite Hstep by (auto; now left). ring.
    + intros t' a' Ha'. apply Hinv. now right.
    + intros t' a' Ha'. apply Hstep. now right.
    + apply Hinv; [now left | exact Ht].
Qed.

(** The windows of the clusters of a constructed operator are well formed. *)
Lemma cluster_ok op info c :
  wf_op op -> ndi (_x op) = NUMPY -> _cl_info op = Some info -> In c info ->
  length (z_anchor (snd c)) = codim_rank op /\
  length (z_num (snd c)) = codim_rank op /\
  (forall d, (d < codim_rank op)%nat ->
     0 <= nth d (z_anchor (snd c)) 0 /\ 0 <= nth d (z_num (snd c)) 0 /\
     nth d (z_anchor (snd c)) 0 + nth d (z_num (snd c)) 0
     <= nth d (num (_z op)) 0).
Proof.
  intros W Hnp Hinfo Hc.
  destruct (cluster_window op info c W Hnp Hinfo Hc)
    as (Hne & Hmem & Hla & Hln & Hwin).
  repeat apply conj; [exact Hla | exact Hln |].
  intros d Hd. specialize (Hwin d Hd). cbv zeta in Hwin.
  destruct Hwin as [Ea Ee].
  pose proof (wf_axis op W d Hd) as Hax.
  assert (Hs : (0 < support (nth d (_kernel op) no_kernel))%Q).
  { apply (wf_support op W), nth_In. rewrite (wf_len_kernel op W). exact Hd. }
  destruct (column_attained op (snd c) d Hne)
    as [(g_lo & Hlo_in & Elo) (g_hi & Hhi_in & Ehi)].
  assert (Hlohi : (Qmin_list (column op (snd c) d)
                   <= Qmax_list (column op (snd c) d))%Q).
  { destruct (column_bounds op (snd c) d g_lo Hlo_in) as [H1 H2].
    eapply Qle_trans; eassumption. }
  assert (Hlo : (nth d (start (_z op)) 0
                 - support (nth d (_kernel op) no_kernel)
                 <= Qmin_list (column op (snd c) d))%Q).
  { rewrite Elo. destruct (Hmem g_lo Hlo_in) as [_ Hr]. apply (Hr d Hd). }
  assert (Hhi : (Qmax_list (column op (snd c) d)
                 <= nth d (stop (_z op)) 0
                    + support (nth d (_kernel op) no_kernel))%Q).
  { rewrite Ehi. destruct (Hmem g_hi Hhi_in) as [_ Hr]. apply (Hr d Hd). }
  pose proof (window_in_lattice _ _ _ Hax _ _ _ Hs Hlo Hlohi Hhi) as Hin.
  rewrite Ea, Ee. lia.
Qed.

Lemma Qsum_cons (a : Q) (l : list Q) : Qsum (a :: l) = (a + Qsum l)%Q.
Proof. reflexivity. Qed.

Lemma cast_warn_fields op arr :
  ndi (fst (_cast_warn op arr)) = ndi arr /\
  shape (fst (_cast_warn op arr)) = shape arr /\
  item (fst (_cast_warn op arr)) = item arr.
Proof.
  unfold _cast_warn. destruct (Width_eqb (dtype arr) (dtype (_x op))); auto.
Qed.

Lemma spread_shape op w out cl : shape (_spread op w out cl) = shape out.
Proof. reflexivity. Qed.

Lemma pool_starts op :
  workers_ok op -> ThreadPoolExecutor (workers (_kwargs op)) = Ok tt.
Proof.
  unfold workers_ok, ThreadPoolExecutor.
  destruct (workers (_kwargs op)) as [n|]; [|reflexivity].
  intros H. now replace (n <=? 0) with false by (symmetry; apply Z.leb_gt; lia).
Qed.

Lemma pool_fails op n :
  workers (_kwargs op) = Some n -> n <= 0 ->
  ThreadPoolExecutor (workers (_kwargs op)) = Raise ValueError.
Proof.
  intros E H. rewrite E. unfold ThreadPoolExecutor.
  now replace (n <=? 0) with true by (symmetry; apply Z.leb_le; lia).
Qed.

Lemma enforce_fst width func arr :
  fst (enforce_precision width func arr) = fst (func (astype arr width)).
Proof.
  unfold enforce_precision. now destruct (func (astype arr width)).
Qed.

Lemma enforce_Ok width func arr out :
  snd (func (astype arr width)) = Some (Ok out) ->
  snd (enforce_precision width func arr) = Some (Ok (astype out width)).
Proof.
  unfold enforce_precision. destruct (func (astype arr width)) as [warns r].
  cbn [snd]. now intros ->.
Qed.

Lemma enforce_Raise width func arr e :
  snd (func (astype arr width)) = Some (Raise e) ->
  snd (enforce_precision width func arr) = Some (Raise e).
Proof.
  unfold enforce_precision. destruct (func (astype arr width)) as [warns r].
  cbn [snd]. now intros ->.
Qed.

Section Calls.

Variables (op : UniformSpread) (info : list (Z * ClInfo)).
Hypothesis W : wf_op op.
Hypothesis Hnp : ndi (_x op) = NUMPY.
Hypothesis Hinfo : _cl_info op = Some info.
Hypothesis Hwk : workers_ok op.
Variables (sh s : list Z).
Hypothesis Hs : in_shape sh s = true.

Lemma apply_Ok (arr : NDArray) :
  ndi arr = NUMPY -> shape arr = sh ++ dim_shape op ->
  snd (apply_wrapped op arr) = Some (Ok (apply_out op info sh arr)).
Proof.
  intros Ha Hsh. unfold apply_wrapped, apply_out.
  destruct (cast_warn_fields op arr) as (E1 & E2 & _).
  destruct (_cast_warn op arr) as [arr' warns]. cbn [fst snd] in *.
  rewrite E1, Ha, (pool_starts op Hwk), Hinfo, E2, Hsh. cbn [bind].
  unfold dim_rank. rewrite length_app, Nat.add_sub, firstn_length_app.
  reflexivity.
Qed.

Lemma apply_shape (arr : NDArray) :
  shape (apply_out op info sh arr) = sh ++ codim_shape op.
Proof.
  unfold apply_out.
  apply (fold_invariant (fun t => shape t = sh ++ codim_shape op));
    [intros t c Ht; exact Ht | reflexivity].
Qed.

Lemma apply_item (arr : NDArray) (n : list Z) :
  shape arr = sh ++ dim_shape op ->
  length n = codim_rank op ->
  (item (apply_out op info sh arr) (s ++ n)
   == Qsum (map (fun c =>
                   Qsum (map (fun g => window_entry op (snd c) n g
                                       * item arr (s ++ [g]))
                             (x_idx (snd c))))
                info))%Q.
Proof.
  intros Hsh Hn. unfold apply_out.
  destruct (cast_warn_fields op arr) as (_ & E2 & E3).
  rewrite (fold_additive_in
             (fun t => item t (s ++ n))
             (fun t => shape t = sh ++ codim_shape op)
             _ (fun c => Qsum (map (fun g => window_entry op (snd c) n g
                                             * item arr (s ++ [g]))
                                   (x_idx (snd c))))%Q).
  - simpl. ring.
  - intros t c _ Ht. exact Ht.
  - intros t c Hc Ht.
    destruct (cluster_ok op info c W Hnp Hinfo Hc) as (Hla & Hln & Hwin).
    rewrite (spread_item op W (snd c) Hla Hln Hwin sh s Hs _ t n);
      [ | | exact Ht | exact Hn].
    + now rewrite E3.
    + rewrite E2, Hsh, (wf_dim op W). apply removelast_last.
  - reflexivity.
Qed.

Lemma adjoint_Ok (arr : NDArray) :
  ndi arr = NUMPY -> shape arr = sh ++ codim_shape op ->
  snd (adjoint_wrapped op arr) = Some (Ok (adjoint_out op info sh arr)).
Proof.
  intros Ha Hsh. unfold adjoint_wrapped, adjoint_out.
  destruct (cast_warn_fields op arr) as (E1 & E2 & _).
  destruct (_cast_warn op arr) as [arr' warns]. cbn [fst snd] in *.
  rewrite E1, Ha, (pool_starts op Hwk), Hinfo, E2, Hsh. cbn [bind].
  unfold codim_rank. rewrite length_app, Nat.add_sub, firstn_length_app.
  reflexivity.
Qed.

Lemma adjoint_shape (arr : NDArray) :
  shape (adjoint_out op info sh arr) = sh ++ [dim_size op].
Proof.
  unfold adjoint_out.
  apply (fold_invariant (fun t => shape t = sh ++ [dim_size op]));
    [intros t c Ht; exact Ht | reflexivity].
Qed.

Lemma interpolate_fold (v : NDArray) (g : Z) (l : list (Z * ClInfo))
  (out0 : NDArray) :
  shape v = sh ++ codim_shape op ->
  (forall c, In c l -> In c info) ->
  NoDup (members l) ->
  let r := fold_left (fun out c => _interpolate op v out (snd c)) l out0 in
  (In g (members l) ->
   (item r (s ++ [g])
    == Qsum (map (fun c =>
                    if existsb (Z.eqb g) (x_idx (snd c))
                    then Qsum (map (fun n => window_entry op (snd c) n g
                                             * item v (s ++ n))
                                   (ndindex (codim_shape op)))
                    else 0)
                 l))%Q) /\
  (~ In g (members l) -> item r (s ++ [g]) = item out0 (s ++ [g])).
Proof.
  intros Hv. revert out0.
  induction l as [|c l IH]; intros out0 Hsub Hnd; cbn [fold_left]; cbv zeta.
  - split; [intros [] | reflexivity].
  - unfold members in Hnd. cbn [map concat] in Hnd. fold (members l) in Hnd.
    assert (Hnd' : NoDup (members l)) by (now apply NoDup_app_remove_l in Hnd).
    assert (Hdisj : In g (x_idx (snd c)) -> ~ In g (members l)).
    { intros H1 H2. clear - Hnd H1 H2.
      induction (x_idx (snd c)) as [|a r IHr]; [contradiction|].
      simpl in Hnd. inversion Hnd as [|? ? Hna Hnd2]; subst.
      destruct H1 as [->|H1].
      - apply Hna. apply in_or_app. now right.
      - now apply IHr. }
    assert (Hsub' : forall c', In c' l -> In c' info)
      by (intros c' Hc'; apply Hsub; now right).
    assert (Hc : In c info) by (apply Hsub; now left).
    destruct (cluster_ok op info c W Hnp Hinfo Hc) as (Hla & Hln & Hwin).
    destruct (interpolate_item op W (snd c) Hla Hln Hwin sh s Hs v out0 g Hv)
      as [Hin Hout].
    specialize (IH (_interpolate op v out0 (snd c)) Hsub' Hnd').
    cbv zeta in IH. destruct IH as [IH1 IH2].
    assert (Hmem : In g (members (c :: l))
                   <-> In g (x_idx (snd c)) \/ In g (members l)).
    { unfold members. cbn [map concat]. apply in_app_iff. }
    destruct (in_dec Z.eq_dec g (x_idx (snd c))) as [Hg|Hg].
    + split; [|intros Hn; exfalso; apply Hn, Hmem; now left].
      intros _. rewrite (IH2 (Hdisj Hg)), (Hin Hg).
      rewrite map_cons, Qsum_cons.
      replace (existsb (Z.eqb g) (x_idx (snd c))) with true.
      2:{ symmetry. apply existsb_exists. exists g. split; [exact Hg|].
          apply Z.eqb_refl. }
      match goal with
      | |- (_ == _ + Qsum (map ?F l))%Q =>
          assert (Hrest : (Qsum (map F l) == 0)%Q)
      end.
      { apply Qsum_zero. intros c' Hc'.
        destruct (existsb (Z.eqb g) (x_idx (snd c'))) eqn:E; [|reflexivity].
        exfalso. apply (Hdisj Hg). apply existsb_exists in E.
        destruct E as (g' & Hg' & E). apply Z.eqb_eq in E. subst g'.
        unfold members. apply in_concat. exists (x_idx (snd c')).
        split; [|exact Hg'].
        exact (in_map (fun c0 => x_idx (snd c0)) l c' Hc'). }
      rewrite Hrest. ring.
    + assert (E : existsb (Z.eqb g) (x_idx (snd c)) = false).
      { destruct (existsb (Z.eqb g) (x_idx (snd c))) eqn:E; [|reflexivity].
        exfalso. apply Hg. apply existsb_exists in E.
        destruct E as (g' & Hg' & E). apply Z.eqb_eq in E. now subst g'. }
      split.
      * intros Hm. apply Hmem in Hm. destruct Hm as [Hm|Hm]; [contradiction|].
        rewrite (IH1 Hm), map_cons, Qsum_cons, E. ring.
      * intros Hm. rewrite IH2 by (intros H; apply Hm, Hmem; now right).
        exact (Hout Hg).
Qed.

Lemma adjoint_item (arr : NDArray) (g : Z) :
  shape arr = sh ++ codim_shape op ->
  NoDup (members info) ->
  (item (adjoint_out op info sh arr) (s ++ [g])
   == Qsum (map (fun c =>
                   if existsb (Z.eqb g) (x_idx (snd c))
                   then Qsum (map (fun n => window_entry op (snd c) n g
                                            * item arr (s ++ n))
                                  (ndindex (codim_shape op)))
                   else 0)
                info))%Q /\
  (~ In g (members info) -> item (adjoint_out op info sh arr) (s ++ [g]) = 0%Q).
Proof.
  intros Hsh Hnd. unfold adjoint_out.
  destruct (cast_warn_fields op arr) as (_ & E2 & E3).
  destruct (interpolate_fold (fst (_cast_warn op arr)) g info
              (zeros (sh ++ [dim_size op])
                     (dtype (fst (_cast_warn op arr))))
              ltac:(now rewrite E2) ltac:(auto) Hnd) as [H1 H2].
  cbv zeta in H1, H2. rewrite E3 in H1.
  split; [|exact H2].
  destruct (in_dec Z.eq_dec g (members info)) as [Hg|Hg]; [now apply H1|].
  rewrite (H2 Hg). cbn [item zeros]. symmetry. apply Qsum_zero.
  intros c Hc.
  destruct (existsb (Z.eqb g) (x_idx (snd c))) eqn:E; [|reflexivity].
  exfalso. apply Hg. apply existsb_exists in E.
  destruct E as (g' & Hg' & E). apply Z.eqb_eq in E. subst g'.
  unfold members. apply in_concat. exists (x_idx (snd c)).
  split; [|exact Hg'].
  exact (in_map (fun c0 => x_idx (snd c0)) info c Hc).
Qed.

End Calls.

(** The calls as a caller makes them, under [enforce_precision]. *)
Lemma apply_call width op info sh arr :
  _cl_info op = Some info -> workers_ok op ->
  ndi arr = NUMPY -> shape arr = sh ++ dim_shape op ->
  snd (apply width op arr)
  = Some (Ok (astype (apply_out op info sh (astype arr width)) width)).
Proof.
  intros Hinfo Hwk Ha Hsh. unfold apply. apply enforce_Ok.
  exact (apply_Ok op info Hinfo Hwk sh (astype arr width) Ha Hsh).
Qed.

Lemma adjoint_call width op info sh arr :
  _cl_info op = Some info -> workers_ok op ->
  ndi arr = NUMPY -> shape arr = sh ++ codim_shape op ->
  snd (adjoint width op arr)
  = Some (Ok (astype (adjoint_out op info sh (astype arr width)) width)).
Proof.
  intros Hinfo Hwk Ha Hsh. unfold adjoint. apply enforce_Ok.
  exact (adjoint_Ok op info Hinfo Hwk sh (astype arr width) Ha Hsh).
Qed.

Lemma apply_call_item width op info sh s arr n :
  wf_op op -> ndi (_x op) = NUMPY -> _cl_info op = Some info ->
  in_shape sh s = true ->
  shape arr = sh ++ dim_shape op -> length n = codim_rank op ->
  (item (astype (apply_out op info sh (astype arr width)) width) (s ++ n)
   == Qsum (map (fun c =>
                   Qsum (map (fun g => window_entry op (snd c) n g
                                       * item arr (s ++ [g]))
                             (x_idx (snd c))))
                info))%Q.
Proof.
  intros W Hnp Hinfo Hs Hsh Hn.
  exact (apply_item op info W Hnp Hinfo sh s Hs (astype arr width) n Hsh Hn).
Qed.

Lemma adjoint_call_item width op info sh s arr g :
  wf_op op -> ndi (_x op) = NUMPY -> _cl_info op = Some info ->
  in_shape sh s = true ->
  shape arr = sh ++ codim_shape op -> NoDup (members info) ->
  (item (astype (adjoint_out op info sh (astype arr width)) width) (s ++ [g])
   == Qsum (map (fun c =>
                   if existsb (Z.eqb g) (x_idx (snd c))
                   then Qsum (map (fun n => window_entry op (snd c) n g
                                            * item arr (s ++ n))
                                  (ndindex (codim_shape op)))
                   else 0)
                info))%Q /\
  (~ In g (members info) ->
   item (astype (adjoint_out op info sh (astype arr width)) width) (s ++ [g])
   = 0%Q).
Proof.
  intros W Hnp Hinfo Hs Hsh Hnd.
  exact (adjoint_item op info W Hnp Hinfo sh s Hs (astype arr width) g Hsh Hnd).
Qed.

(* ###################################################################### *)
(** * Where the dense entries vanish *)

Lemma in_roi_false roi i :
  length i = length roi -> in_roi roi i = false ->
  exists d, (d < length roi)%nat /\
            ~ (fst (nth d roi (0, 0)) <= nth d i 0 < snd (nth d roi (0, 0))).
Proof.
  revert i. induction roi as [|[a b] roi IH]; intros [|n i]; simpl;
    try discriminate; intros Hl H.
  injection Hl as Hl.
  destruct ((a <=? n) && (n <? b)) eqn:E; simpl in H.
  - destruct (IH i Hl H) as (d & Hd & Hn). exists (S d). split; [lia|exact Hn].
  - exists 0%nat. split; [lia|]. simpl.
    apply andb_false_iff in E. rewrite Z.leb_gt, Z.ltb_ge in E. lia.
Qed.

Lemma all_le_false (a b : list Q) :
  length a = length b -> all_le a b = false ->
  exists d, (d < length a)%nat /\ (nth d b 0 < nth d a 0)%Q.
Proof.
  unfold all_le. revert b. induction a as [|x a IH]; intros [|y b]; simpl;
    try discriminate; intros Hl H.
  injection Hl as Hl.
  destruct (Qle_bool x y) eqn:E; simpl in H.
  - destruct (IH b Hl H) as (d & Hd & Hn). exists (S d). split; [lia|exact Hn].
  - exists 0%nat. split; [lia|]. simpl. apply Qlt_bool_iff.
    unfold Qlt_bool. now rewrite E.
Qed.

Lemma dense_entry_zero op n g d :
  (d < codim_rank op)%nat ->
  (phi (nth d (_kernel op) no_kernel)
       (node op d (nth d n 0%Z) - item (_x op) [g; Z.of_nat d]) == 0)%Q ->
  (dense_entry op n g == 0)%Q.
Proof.
  intros Hd Hz. unfold dense_entry.
  apply (fold_mult_zero
           (fun d => phi (nth d (_kernel op) no_kernel)
                         (node op d (nth d n 0%Z)
                          - item (_x op) [g; Z.of_nat d])%Q)).
  right. exists d. split; [apply in_seq; lia | exact Hz].
Qed.

Section Vanish.

Variable op : UniformSpread.
Hypothesis W : wf_op op.
Hypothesis Hc : compact_kernels op.

(** A point out of reach of the lattice meets no lattice node. *)
Lemma dense_inactive n g :
  in_shape (codim_shape op) n = true -> active op g = false ->
  (dense_entry op n g == 0)%Q.
Proof.
  intros Hn Hg. rewrite (wf_codim op W) in Hn.
  apply in_shape_nth in Hn. destruct Hn as [Hl Hn].
  assert (HlN : length (num (_z op)) = codim_rank op)
    by (unfold codim_rank; now rewrite (wf_codim op W)).
  rewrite HlN in Hn.
  pose proof (wf_rank op W) as HD.
  assert (Hrow : length (row (_x op) g) = codim_rank op)
    by (rewrite length_row; lia).
  assert (Hex : exists d, (d < codim_rank op)%nat /\
            ((item (_x op) [g; Z.of_nat d]
              < nth d (start (_z op)) 0
                - support (nth d (_kernel op) no_kernel))%Q \/
             (nth d (stop (_z op)) 0 + support (nth d (_kernel op) no_kernel)
              < item (_x op) [g; Z.of_nat d])%Q)).
  { unfold active, is_active in Hg. apply andb_false_iff in Hg.
    destruct Hg as [Hg|Hg]; apply all_le_false in Hg;
      try (rewrite length_map2, ?length_map, ?(wf_len_start op W),
             ?(wf_len_stop op W), ?(wf_len_kernel op W), Hrow; lia);
      destruct Hg as (d & Hd & Hlt).
    - rewrite length_map2, length_map, (wf_len_start op W),
        (wf_len_kernel op W), Nat.min_id in Hd.
      rewrite (nth_map2 _ _ _ _ 0%Q 0%Q) in Hlt
        by (rewrite ?length_map, ?(wf_len_start op W), ?(wf_len_kernel op W);
            lia).
      rewrite nth_map_support, nth_row in Hlt by lia.
      exists d. split; [exact Hd | now left].
    - rewrite Hrow in Hd.
      rewrite (nth_map2 _ _ _ _ 0%Q 0%Q) in Hlt
        by (rewrite ?length_map, ?(wf_len_stop op W), ?(wf_len_kernel op W);
            lia).
      rewrite nth_map_support, nth_row in Hlt by lia.
      exists d. split; [exact Hd | now right]. }
  destruct Hex as (d & Hd & Hout).
  apply (dense_entry_zero op n g d Hd).
  specialize (Hn d Hd).
  rewrite (node_eq op d _ Hd Hn).
  pose proof (node_in_lattice _ _ _ (wf_axis op W d Hd) _ Hn) as Hnode.
  apply (Hc d _ Hd). cbv zeta. destruct Hout as [Hout|Hout]; [right | left]; lra.
Qed.

Variable info : list (Z * ClInfo).
Hypothesis Hnp : ndi (_x op) = NUMPY.
Hypothesis Hinfo : _cl_info op = Some info.

(** Outside the window of its cluster a point meets no lattice node. *)
Lemma dense_outside_window c n g :
  In c info -> In g (x_idx (snd c)) ->
  in_shape (codim_shape op) n = true ->
  in_roi (roi_of (snd c)) n = false ->
  (dense_entry op n g == 0)%Q.
Proof.
  intros Hin Hg Hn Hout. rewrite (wf_codim op W) in Hn.
  pose proof (in_shape_length _ _ Hn) as Hl.
  apply in_shape_nth in Hn. destruct Hn as [_ Hn].
  assert (HlN : length (num (_z op)) = codim_rank op)
    by (unfold codim_rank; now rewrite (wf_codim op W)).
  rewrite HlN in Hn, Hl.
  destruct (cluster_window op info c W Hnp Hinfo Hin)
    as (Hne & Hmem & Hla & Hln & Hwin).
  destruct (cluster_ok op info c W Hnp Hinfo Hin) as (_ & _ & Hok).
  apply in_roi_false in Hout; [|now rewrite (length_roi op (snd c) Hla Hln)].
  destruct Hout as (d & Hd & Hnot).
  rewrite (length_roi op (snd c) Hla Hln) in Hd.
  rewrite (nth_roi op (snd c) Hla Hln d Hd) in Hnot. simpl in Hnot.
  apply (dense_entry_zero op n g d Hd).
  specialize (Hn d Hd). specialize (Hwin d Hd). cbv zeta in Hwin.
  destruct Hwin as [Ea Ee].
  rewrite (node_eq op d _ Hd Hn).
  apply (Hc d _ Hd). cbv zeta.
  set (sd := support (nth d (_kernel op) no_kernel)) in *.
  set (zn := (nth d (start (_z op)) 0 + _ * _)%Q).
  destruct (Qlt_le_dec (zn - item (_x op) [g; Z.of_nat d]) (- sd)) as [H1|H1];
    [now left|].
  destruct (Qlt_le_dec sd (zn - item (_x op) [g; Z.of_nat d])) as [H2|H2];
    [now right|].
  exfalso. apply Hnot.
  pose proof (window_covers _ _ _ (wf_axis op W d Hd) sd _ _
                (item (_x op) [g; Z.of_nat d]) (nth d n 0)
                (column_bounds op (snd c) d g Hg) Hn) as Hcov.
  fold zn in Hcov. rewrite Ea, Ee.
  assert (Hz : (item (_x op) [g; Z.of_nat d] - sd <= zn
                <= item (_x op) [g; Z.of_nat d] + sd)%Q) by (split; lra).
  specialize (Hcov Hz). lia.
Qed.

Lemma window_entry_dense c n g :
  In c info -> In g (x_idx (snd c)) ->
  in_shape (codim_shape op) n = true ->
  (window_entry op (snd c) n g == dense_entry op n g)%Q.
Proof.
  intros Hin Hg Hn. unfold window_entry.
  destruct (in_roi (roi_of (snd c)) n) eqn:E; [reflexivity|].
  symmetry. now apply (dense_outside_window c).
Qed.

End Vanish.

(** A point of a partition is counted by one cluster. *)
Lemma Qsum_one_cluster (info : list (Z * ClInfo)) (g : Z) (X : Q) :
  NoDup (members info) -> In g (members info) ->
  (Qsum (map (fun c => if existsb (Z.eqb g) (x_idx (snd c)) then X else 0%Q)
             info) == X)%Q.
Proof.
  induction info as [|c l IH]; intros Hnd Hin; [contradiction|].
  unfold members in Hnd, Hin. cbn [map concat] in Hnd, Hin.
  fold (members l) in Hnd, Hin.
  rewrite map_cons, Qsum_cons.
  destruct (existsb (Z.eqb g) (x_idx (snd c))) eqn:E.
  - apply existsb_exists in E. destruct E as (g' & Hg' & E).
    apply Z.eqb_eq in E. subst g'.
    rewrite Qsum_zero; [ring|]. intros c' Hc'.
    destruct (existsb (Z.eqb g) (x_idx (snd c'))) eqn:E'; [|reflexivity].
    exfalso. apply existsb_exists in E'. destruct E' as (g' & Hg2 & E').
    apply Z.eqb_eq in E'. subst g'.
    assert (Hm : In g (members l)).
    { unfold members. apply in_concat. exists (x_idx (snd c')).
      split; [|exact Hg2].
      exact (in_map (fun c0 => x_idx (snd c0)) l c' Hc'). }
    clear - Hnd Hg' Hm.
    induction (x_idx (snd c)) as [|a r IHr]; [contradiction|].
    simpl in Hnd. inversion Hnd as [|? ? Hna Hnd2]; subst.
    destruct Hg' as [->|Hg'].
    + apply Hna. apply in_or_app. now right.
    + now apply IHr.
  - rewrite IH.
    + ring.
    + now apply NoDup_app_remove_l in Hnd.
    + apply in_app_or in Hin. destruct Hin as [Hin|Hin]; [|exact Hin].
      exfalso. assert (existsb (Z.eqb g) (x_idx (snd c)) = true); [|congruence].
      apply existsb_exists. exists g. split; [exact Hin | apply Z.eqb_refl].
Qed.

(** C6 (as amended).  Every successfully constructed operator's lattice
    satisfies, on every axis: start <= stop, count >= 1, and start == stop
    implies count == 1.  (The converse is not required: an axis with
    count == 1 and start < stop is accepted.) *)
Theorem lattice_invariant x z kernel ew kwargs op :
  __init__ x z kernel ew kwargs = Ok op ->
  codim_shape op = num (_z op) /\
  length (start (_z op)) = codim_rank op /\
  length (stop (_z op)) = codim_rank op /\
  forall d, (d < codim_rank op)%nat ->
    let alpha := nth d (start (_z op)) 0%Q in
    let beta := nth d (stop (_z op)) 0%Q in
    let N := nth d (num (_z op)) 0 in
    (alpha <= beta)%Q /\ 1 <= N /\ ((alpha == beta)%Q -> N = 1).
Proof.
  intros H. apply init_Ok in H. destruct H as [W ->].
  destruct W as (_ & _ & _ & Ha & Hb & Hn & Hax & _).
  unfold built, codim_rank; cbn [codim_shape _z start stop num].
  rewrite !length_canon_ok by assumption.
  repeat apply conj; try reflexivity.
  intros d Hd. destruct (Hax d Hd) as (H1 & H2 & H3).
  cbv zeta. repeat apply conj; [exact H1 | | exact H3].
  match type of H1 with
  | (?a <= ?b)%Q => destruct (Qlt_le_dec a b) as [Hlt|Hle]
  end.
  - now apply H2.
  - rewrite H3; [lia | lra].
Qed.

Lemma lattice_invariant_witness :
  exists op,
    __init__ (vec NUMPY DOUBLE [1#2]%Q) (lattice1 0 4 5) (Scalar tri) true
             no_kwargs = Ok op /\
    ((nth 0 (start (_z op)) 0 <= nth 0 (stop (_z op)) 0)%Q /\
     1 <= nth 0 (num (_z op)) 0).
Proof.
  eexists. split; [vm_compute; reflexivity|].
  match goal with
  | |- context [nth _ (start (_z ?o))] =>
      destruct (lattice_invariant (vec NUMPY DOUBLE [1#2]%Q) (lattice1 0 4 5)
                  (Scalar tri) true no_kwargs o eq_refl)
        as (_ & _ & _ & H)
  end.
  destruct (H 0%nat) as (H1 & H2 & _); [vm_compute; reflexivity|].
  split; assumption.
Defined.

(** C6, counterexample: a lattice axis with count == 1 and start strictly
    less than stop is accepted by the constructor. *)
Lemma lattice_count_one_accepted :
  exists op,
    __init__ (vec NUMPY DOUBLE [1#2]%Q) (lattice1 0 1 1) (Scalar tri) true
             no_kwargs = Ok op /\
    nth 0 (num (_z op)) 0 = 1 /\
    (nth 0 (start (_z op)) 0 < nth 0 (stop (_z op)) 0)%Q.
Proof.
  eexists. split; [vm_compute; reflexivity|].
  split; [reflexivity | vm_compute; reflexivity].
Qed.

(** C7 (as amended).  Construction returns an operator exactly when the
    arguments are well formed, and raises otherwise.  Well-formedness asks
    more than the absence of the listed configuration errors: the points
    array has rank 1 or 2 and holds at least one point; [kernel], [start],
    [stop] and [num] each have one element or one per axis; every kernel
    support is positive; every axis has start <= stop, count 1 when
    start == stop and count >= 1 when start < stop; [max_cluster_size > 0];
    [max_window_ratio >= 3]; and the points are a NUMPY array of single or
    double precision with at least one column, or a DASK array with a single
    chunk along its last axis. *)
Theorem init_raises_iff x z kernel ew kwargs :
  ((exists op, __init__ x z kernel ew kwargs = Ok op) <->
   well_formed x z kernel kwargs) /\
  ((exists e, __init__ x z kernel ew kwargs = Raise e) <->
   ~ well_formed x z kernel kwargs).
Proof.
  pose proof (init_is_ok x z kernel ew kwargs) as H.
  split.
  - rewrite <- H. symmetry. apply is_ok_Ok.
  - rewrite <- H. destruct (__init__ x z kernel ew kwargs) as [op|e]; simpl.
    + split; [intros [e He]; discriminate | intros Hn; now elim Hn].
    + split; [intros _; discriminate | eauto].
Qed.

(** C7, counterexample: a lattice axis with start < stop and count 0 makes
    the constructor raise, although none of the listed configuration errors
    is present. *)
Lemma init_raises_on_zero_count :
  __init__ (vec NUMPY DOUBLE [1#2]%Q) (lattice1 0 1 0) (Scalar tri) true
           no_kwargs = Raise (AssertionError msg_lattice) /\
  ~ spec_malformed (vec NUMPY DOUBLE [1#2]%Q) (lattice1 0 1 0) (Scalar tri)
                   no_kwargs.
Proof.
  split; [vm_compute; reflexivity|].
  unfold spec_malformed.
  change (nth 1 (shape (canon_x (vec NUMPY DOUBLE [1#2]%Q))) 0) with 1.
  intros [(d & Hd & H) | [(k & Hk & H) | [H | H]]].
  - assert (d = 0%nat) by (change (Z.to_nat 1) with 1%nat in Hd; lia). subst d.
    cbv zeta in H. cbn in H. destruct H as [H | [H _]].
    + revert H. vm_compute. discriminate.
    + revert H. vm_compute. discriminate.
  - cbn in Hk. destruct Hk as [<-|[]]. revert H. vm_compute.
    intros H. now apply H.
  - revert H. vm_compute. intros H. now apply H.
  - revert H. vm_compute. discriminate.
Qed.






(** C3.  The cluster metadata built at construction partitions the active
    points: the point indices held by the clusters are free of duplicates,
    they are exactly the indices of the points lying within
    [alpha_d - s_d, beta_d + s_d] on every axis, and every such point
    belongs to one cluster and to no other. *)
Theorem clusters_partition_active x z kernel ew kwargs op info :
  __init__ x z kernel ew kwargs = Ok op ->
  _cl_info op = Some info ->
  NoDup (members info) /\
  (forall m, In m (members info) <-> 0 <= m < dim_size op /\ in_reach op m) /\
  (forall m, 0 <= m < dim_size op -> in_reach op m ->
     exists q, In m (nth q (map (fun c => x_idx (snd c)) info) []) /\
               forall q', In m (nth q' (map (fun c => x_idx (snd c)) info) [])
                          -> q' = q).
Proof.
  intros Hop Hinfo. pose proof (init_wf _ _ _ _ _ _ Hop) as W.
  assert (Hnp : ndi (_x op) = NUMPY).
  { apply init_Ok in Hop. destruct Hop as [_ ->].
    unfold built in Hinfo |- *. cbn [_cl_info _x] in *.
    destruct (ndi (canon_x x)); [reflexivity | discriminate | discriminate]. }
  pose proof (members_active op info W Hinfo Hnp) as HP.
  assert (Hnd : NoDup (members info)).
  { apply (Permutation_NoDup (Permutation_sym HP)).
    apply NoDup_filter, NoDup_zrange. }
  assert (Hin : forall m, In m (members info) <->
                          0 <= m < dim_size op /\ in_reach op m).
  { intros m. rewrite <- (active_iff op m W), <- In_zrange, <- filter_In.
    split; apply Permutation_in; [exact HP | now apply Permutation_sym]. }
  repeat apply conj; [exact Hnd | exact Hin |].
  intros m Hm Hr.
  assert (H : In m (members info)) by (apply Hin; now split).
  unfold members in H. apply in_concat in H. destruct H as (l & Hl & Hml).
  apply (In_nth _ _ []) in Hl. destruct Hl as (q & Hq & <-).
  exists q. split; [exact Hml|].
  intros q' Hq'. now apply (NoDup_concat_unique _ m q' q Hnd).
Qed.

Lemma clusters_partition_active_witness :
  NoDup (members (_build_info (_x op_tri) (_z op_tri) (_kernel op_tri)
                              (_kwargs op_tri))).
Proof.
  apply (clusters_partition_active (vec NUMPY DOUBLE [1#2; 5#2]%Q)
           (lattice1 0 4 5) (Scalar tri) true no_kwargs op_tri
           (_build_info (_x op_tri) (_z op_tri) (_kernel op_tri)
                        (_kwargs op_tri))).
  - vm_compute. reflexivity.
  - reflexivity.
Defined.

(** C5 (as amended).  On every axis, the window of a cluster is computed
    from the kernel-support bounds of its points as lattice indices: the
    anchor is the floor of [(x_lo - s - alpha) * ratio] raised to 0, and the
    last index [anchor + extent - 1] is the ceiling of
    [(x_hi + s - alpha) * ratio] lowered to [N - 1], where [x_lo] and [x_hi]
    are the least and the greatest coordinate of the points of the cluster
    and [ratio] is the inverse of the lattice step.  The window is not empty,
    lies within the lattice, and holds every lattice node that is within the
    kernel support of a point of the cluster. *)
Theorem window_covers_support x z kernel ew kwargs op info c cl :
  __init__ x z kernel ew kwargs = Ok op ->
  _cl_info op = Some info ->
  In (c, cl) info ->
  forall d, (d < codim_rank op)%nat ->
    let sd := support (nth d (_kernel op) no_kernel) in
    let alpha := nth d (start (_z op)) 0%Q in
    let beta := nth d (stop (_z op)) 0%Q in
    let N := nth d (num (_z op)) 0 in
    let a := nth d (z_anchor cl) 0 in
    let e := nth d (z_num cl) 0 in
    let xd := fun g => item (_x op) [g; Z.of_nat d] in
    (exists g_lo g_hi,
        In g_lo (x_idx cl) /\ In g_hi (x_idx cl) /\
        (forall g, In g (x_idx cl) -> (xd g_lo <= xd g <= xd g_hi)%Q) /\
        a = Z.max 0 (Qfloor ((xd g_lo - sd - alpha) * ratio alpha beta N)) /\
        a + e - 1
        = Z.min (Qceiling ((xd g_hi + sd - alpha) * ratio alpha beta N))
                (N - 1)) /\
    (1 < N -> (lattice_step alpha beta N * ratio alpha beta N == 1)%Q) /\
    0 <= a /\ 1 <= e /\ a + e <= N /\
    (forall g n, In g (x_idx cl) -> 0 <= n < N ->
       (xd g - sd <= node op d n <= xd g + sd)%Q -> a <= n < a + e).
Proof.
  intros Hop Hinfo Hc d Hd.
  pose proof (init_wf _ _ _ _ _ _ Hop) as W.
  pose proof (init_numpy _ _ _ _ _ _ _ Hop Hinfo) as Hnp.
  destruct (cluster_window op info (c, cl) W Hnp Hinfo Hc)
    as (Hne & Hmem & _ & _ & Hwin).
  cbn [snd] in *. specialize (Hwin d Hd). cbv zeta in Hwin.
  destruct Hwin as [Ea Ee].
  pose proof (wf_axis op W d Hd) as Hax.
  assert (Hs : (0 < support (nth d (_kernel op) no_kernel))%Q).
  { apply (wf_support op W), nth_In. rewrite (wf_len_kernel op W). exact Hd. }
  destruct (column_attained op cl d Hne)
    as [(g_lo & Hlo_in & Elo) (g_hi & Hhi_in & Ehi)].
  assert (Hreach : forall g, In g (x_idx cl) ->
            (nth d (start (_z op)) 0 - support (nth d (_kernel op) no_kernel)
             <= item (_x op) [g; Z.of_nat d])%Q /\
            (item (_x op) [g; Z.of_nat d]
             <= nth d (stop (_z op)) 0
                + support (nth d (_kernel op) no_kernel))%Q).
  { intros g Hg. destruct (Hmem g Hg) as [_ Hr]. exact (Hr d Hd). }
  assert (Hlohi : (Qmin_list (column op cl d) <= Qmax_list (column op cl d))%Q).
  { destruct (column_bounds op cl d g_lo Hlo_in) as [H1 H2].
    eapply Qle_trans; eassumption. }
  assert (Hlo : (nth d (start (_z op)) 0
                 - support (nth d (_kernel op) no_kernel)
                 <= Qmin_list (column op cl d))%Q)
    by (rewrite Elo; apply Hreach, Hlo_in).
  assert (Hhi : (Qmax_list (column op cl d)
                 <= nth d (stop (_z op)) 0
                    + support (nth d (_kernel op) no_kernel))%Q)
    by (rewrite Ehi; apply Hreach, Hhi_in).
  pose proof (window_in_lattice _ _ _ Hax _ _ _ Hs Hlo Hlohi Hhi) as Hin.
  cbv zeta. rewrite Ea, Ee. repeat apply conj.
  - exists g_lo, g_hi. repeat apply conj; try assumption.
    + intros g Hg. destruct (column_bounds op cl d g Hg) as [H1 H2].
      rewrite <- Elo, <- Ehi. split; assumption.
    + rewrite Elo. reflexivity.
    + rewrite Ehi. unfold UR_idx at 1. lia.
  - intros HN. now apply ratio_step.
  - lia.
  - lia.
  - lia.
  - intros g n Hg Hn Hz. rewrite node_eq in Hz by assumption.
    pose proof (window_covers _ _ _ Hax _ _ _
                  (item (_x op) [g; Z.of_nat d]) n
                  (column_bounds op cl d g Hg) Hn Hz).
    lia.
Qed.

Lemma window_covers_support_witness :
  0 <= nth 0 (z_anchor {| x_idx := [0; 1]; z_anchor := [0]; z_num := [5] |}) 0.
Proof.
  apply (window_covers_support (vec NUMPY DOUBLE [1#2; 5#2]%Q)
           (lattice1 0 4 5) (Scalar tri) true no_kwargs op_tri
           [(0, {| x_idx := [0; 1]; z_anchor := [0]; z_num := [5] |})] 0
           {| x_idx := [0; 1]; z_anchor := [0]; z_num := [5] |}
           ltac:(vm_compute; reflexivity) ltac:(vm_compute; reflexivity)
           ltac:(now left) 0%nat ltac:(vm_compute; lia)).
Defined.

(** C5, counterexample.  For the single point 27/10 with the triangular
    kernel on the lattice 0, 1, 2, 3, 4, the stored window starts at index 1,
    the floor of 17/10, whereas rounding 17/10 gives 2. *)
Lemma window_anchor_not_rounded :
  exists op,
    __init__ (vec NUMPY DOUBLE [27#10]%Q) (lattice1 0 4 5) (Scalar tri) true
             no_kwargs = Ok op /\
    _cl_info op
    = Some [(0, {| x_idx := [0]; z_anchor := [1]; z_num := [4] |})] /\
    spec_window_idx ((27#10) - support tri) 0 4 5 = 2 /\
    spec_window_idx ((27#10) + support tri) 0 4 5 = 4.
Proof.
  eexists. split; [vm_compute; reflexivity|].
  repeat split; vm_compute; reflexivity.
Qed.


Lemma NoDup_concat_block {A : Type} (ls : list (list A)) (l : list A) :
  NoDup (concat ls) -> In l ls -> NoDup l.
Proof.
  induction ls as [|l0 ls IH]; intros Hnd Hin; [contradiction|].
  simpl in Hnd. destruct Hin as [->|Hin].
  - now apply NoDup_app_remove_r in Hnd.
  - apply IH; [now apply NoDup_app_remove_l in Hnd | exact Hin].
Qed.

(** What construction gives for the clusters of a NUMPY operator. *)
Lemma init_clusters x z kernel ew kwargs op info :
  __init__ x z kernel ew kwargs = Ok op ->
  _cl_info op = Some info ->
  wf_op op /\ ndi (_x op) = NUMPY /\ NoDup (members info) /\
  (forall g, In g (members info) <-> 0 <= g < dim_size op /\ active op g = true) /\
  (forall c, In c info -> NoDup (x_idx (snd c)) /\
                          forall g, In g (x_idx (snd c)) ->
                                    In g (members info)).
Proof.
  intros Hop Hinfo. pose proof (init_wf _ _ _ _ _ _ Hop) as W.
  pose proof (init_numpy _ _ _ _ _ _ _ Hop Hinfo) as Hnp.
  pose proof (members_active op info W Hinfo Hnp) as HP.
  assert (Hnd : NoDup (members info)).
  { apply (Permutation_NoDup (Permutation_sym HP)).
    apply NoDup_filter, NoDup_zrange. }
  repeat apply conj; try assumption.
  - intros g. rewrite <- In_zrange, <- filter_In.
    split; apply Permutation_in; [exact HP | now apply Permutation_sym].
  - intros c Hc.
    assert (Hb : In (x_idx (snd c)) (map (fun c0 => x_idx (snd c0)) info))
      by exact (in_map (fun c0 => x_idx (snd c0)) info c Hc).
    split.
    + exact (NoDup_concat_block _ _ Hnd Hb).
    + intros g Hg. unfold members. apply in_concat. eauto.
Qed.




(* ###################################################################### *)
(** * The clustered path against the products of axial kernels *)

(** With kernels that vanish outside their support, [apply] and [adjoint]
    contract their input with the products of axial kernels. *)
Lemma apply_dense x z kernel ew kwargs op info sh s w n :
  __init__ x z kernel ew kwargs = Ok op -> _cl_info op = Some info ->
  compact_kernels op ->
  in_shape sh s = true -> shape w = sh ++ dim_shape op ->
  in_shape (codim_shape op) n = true ->
  (item (apply_out op info sh w) (s ++ n)
   == Qsum (map (fun m => dense_entry op n m * item w (s ++ [m]))
                (zrange 0 (dim_size op))))%Q.
Proof.
  intros Hop Hinfo Hc Hs Hsw Hn.
  destruct (init_clusters _ _ _ _ _ _ _ Hop Hinfo) as (W & Hnp & _).
  pose proof (in_shape_length _ _ Hn) as Hln.
  rewrite (apply_item op info W Hnp Hinfo sh s Hs w n Hsw Hln).
  set (F := fun m => (dense_entry op n m * item w (s ++ [m]))%Q).
  rewrite (Qsum_ext _ (fun c => Qsum (map F (x_idx (snd c))))).
  2:{ intros c Hc'. apply Qsum_ext. intros g Hg. unfold F.
      now rewrite (window_entry_dense op W Hc info Hnp Hinfo c n g Hc' Hg Hn). }
  rewrite <- (map_map (fun c => x_idx (snd c)) (fun l => Qsum (map F l))).
  rewrite <- Qsum_concat. fold (members info).
  rewrite (Qsum_perm F _ _ (members_active op info W Hinfo Hnp)).
  rewrite Qsum_filter. apply Qsum_ext. intros g _.
  destruct (active op g) eqn:E; [reflexivity|].
  unfold F. rewrite (dense_inactive op W Hc n g Hn E). ring.
Qed.

Lemma adjoint_dense x z kernel ew kwargs op info sh s v m :
  __init__ x z kernel ew kwargs = Ok op -> _cl_info op = Some info ->
  compact_kernels op ->
  in_shape sh s = true -> shape v = sh ++ codim_shape op ->
  0 <= m < dim_size op ->
  (item (adjoint_out op info sh v) (s ++ [m])
   == Qsum (map (fun n => dense_entry op n m * item v (s ++ n))
                (ndindex (codim_shape op))))%Q.
Proof.
  intros Hop Hinfo Hc Hs Hsv Hm.
  destruct (init_clusters _ _ _ _ _ _ _ Hop Hinfo)
    as (W & Hnp & Hnd & Hmem & Hblocks).
  destruct (adjoint_item op info W Hnp Hinfo sh s Hs v m Hsv Hnd) as [E _].
  rewrite E.
  set (X := Qsum (map (fun n => dense_entry op n m * item v (s ++ n))%Q
                      (ndindex (codim_shape op)))).
  rewrite (Qsum_ext _ (fun c => if existsb (Z.eqb m) (x_idx (snd c))
                                then X else 0%Q)).
  2:{ intros c Hc'.
      destruct (existsb (Z.eqb m) (x_idx (snd c))) eqn:Ex; [|reflexivity].
      apply existsb_exists in Ex. destruct Ex as (g & Hg & Eg).
      apply Z.eqb_eq in Eg. subst g.
      unfold X. apply Qsum_ext. intros n Hn. apply In_ndindex in Hn.
      now rewrite (window_entry_dense op W Hc info Hnp Hinfo c n m Hc' Hg Hn). }
  destruct (active op m) eqn:Ea.
  - apply Qsum_one_cluster; [exact Hnd|]. apply Hmem. now split.
  - rewrite Qsum_zero.
    + unfold X. symmetry. apply Qsum_zero. intros n Hn.
      apply In_ndindex in Hn.
      rewrite (dense_inactive op W Hc n m Hn Ea). ring.
    + intros c Hc'.
      destruct (existsb (Z.eqb m) (x_idx (snd c))) eqn:Ex; [|reflexivity].
      exfalso. apply existsb_exists in Ex. destruct Ex as (g & Hg & Eg).
      apply Z.eqb_eq in Eg. subst g.
      assert (Hin : In m (members info)) by now apply (Hblocks c Hc').
      apply Hmem in Hin. destruct Hin as [_ Hact]. congruence.
Qed.

Lemma not_in_reach op g :
  wf_op op -> ~ in_reach op g -> active op g = false.
Proof.
  intros W H. destruct (active op g) eqn:E; [|reflexivity].
  exfalso. apply H. now apply active_iff.
Qed.

Lemma members_in_reach x z kernel ew kwargs op info g :
  __init__ x z kernel ew kwargs = Ok op -> _cl_info op = Some info ->
  ~ in_reach op g -> ~ In g (members info).
Proof.
  intros Hop Hinfo Hg Hin.
  destruct (init_clusters _ _ _ _ _ _ _ Hop Hinfo) as (W & _ & _ & Hmem & _).
  apply Hmem in Hin. destruct Hin as [_ Hact].
  rewrite (not_in_reach op g W Hg) in Hact. discriminate.
Qed.

(** C10 (as amended).  On a NUMPY array of lattice values (with any
    leading stacking shape), [adjoint] of an operator built on NUMPY points
    whose [workers] option is [None] or positive returns an array of shape
    (..., M) whose entry at the index of every point out of reach of the
    lattice, a point held by no cluster, is exactly zero. *)
Theorem adjoint_inactive_zero width x z kernel ew kwargs op v sh :
  __init__ x z kernel ew kwargs = Ok op ->
  ndi (_x op) = NUMPY -> workers_ok op -> ndi v = NUMPY ->
  shape v = sh ++ codim_shape op ->
  exists out,
    snd (adjoint width op v) = Some (Ok out) /\
    shape out = sh ++ dim_shape op /\
    forall s g, in_shape sh s = true -> ~ in_reach op g ->
                item out (s ++ [g]) = 0%Q.
Proof.
  intros Hop Hnp Hwk Hv Hsv. pose proof (init_wf _ _ _ _ _ _ Hop) as W.
  destruct (wf_cl_info op W Hnp) as [Hinfo _].
  set (info := _build_info (_x op) (_z op) (_kernel op) (_kwargs op)) in *.
  destruct (init_clusters _ _ _ _ _ _ _ Hop Hinfo) as (_ & _ & Hnd & _ & _).
  exists (astype (adjoint_out op info sh (astype v width)) width).
  split; [exact (adjoint_call width op info sh v Hinfo Hwk Hv Hsv)|].
  split.
  { cbn [astype shape].
    rewrite (adjoint_shape op info sh (astype v width)), (wf_dim op W).
    now rewrite dim_size_eq. }
  intros s g Hs Hg.
  destruct (adjoint_call_item width op info sh s v g W Hnp Hinfo Hs Hsv Hnd)
    as [_ H0].
  apply H0. exact (members_in_reach _ _ _ _ _ _ _ _ Hop Hinfo Hg).
Qed.

(** C10, counterexample.  The constructor accepts [workers=0], and [adjoint]
    then raises on an in-memory array before any slot is written; and on an
    operator constructed on a DASK points array, which holds no cluster map,
    [adjoint] raises on an in-memory array.  Neither call returns an output
    whose slots could be zero. *)
Lemma adjoint_returns_no_output :
  (exists op,
     __init__ (vec NUMPY DOUBLE [1#2; 100]%Q) (lattice1 0 4 5) (Scalar tri)
              true (with_workers 0) = Ok op /\
     ~ in_reach op 1 /\
     snd (adjoint DOUBLE op (vec NUMPY DOUBLE [1; 2; 3; 4; 5]%Q))
     = Some (Raise ValueError)) /\
  (exists op,
     __init__ vec_dask (lattice1 0 4 5) (Scalar tri) true no_kwargs = Ok op /\
     snd (adjoint DOUBLE op (vec NUMPY DOUBLE [1; 2; 3; 4; 5]%Q))
     = Some (Raise (AttributeError "_cl_info"))).
Proof.
  split; eexists; (split; [vm_compute; reflexivity|]).
  - split; [|vm_compute; reflexivity].
    intros Hr. specialize (Hr 0%nat ltac:(vm_compute; lia)).
    cbv zeta in Hr. destruct Hr as [_ Hr]. revert Hr. vm_compute.
    intros H. now apply H.
  - vm_compute. reflexivity.
Qed.

(** C4 (as amended).  A point out of reach of the lattice on some axis is
    held by no cluster, and construction succeeds whatever the coordinates
    of the points; when the [workers] option is [None] or positive, [apply]
    gives equal lattice values on two weight arrays that agree at the points
    within reach, and when no point is within reach the cluster map is empty
    and [apply] returns an array of zeros. *)
Theorem inactive_points_culled width x z kernel ew kwargs op info :
  __init__ x z kernel ew kwargs = Ok op ->
  _cl_info op = Some info ->
  (forall g c, ~ in_reach op g -> In c info -> ~ In g (x_idx (snd c))) /\
  (forall x', ndi x' = ndi x -> dtype x' = dtype x -> shape x' = shape x ->
              chunks x' = chunks x ->
              exists op', __init__ x' z kernel ew kwargs = Ok op') /\
  (workers_ok op ->
   forall sh s n w w',
      ndi w = NUMPY -> ndi w' = NUMPY ->
      shape w = sh ++ dim_shape op -> shape w' = sh ++ dim_shape op ->
      in_shape sh s = true -> length n = codim_rank op ->
      (forall g, in_reach op g -> (item w (s ++ [g]) == item w' (s ++ [g]))%Q) ->
      exists a a',
        snd (apply width op w) = Some (Ok a) /\
        snd (apply width op w') = Some (Ok a') /\
        (item a (s ++ n) == item a' (s ++ n))%Q) /\
  ((forall g, 0 <= g < dim_size op -> ~ in_reach op g) ->
   info = [] /\
   (workers_ok op ->
    forall w, ndi w = NUMPY ->
      exists a, snd (apply width op w) = Some (Ok a) /\
                forall idx, item a idx = 0%Q)).
Proof.
  intros Hop Hinfo.
  destruct (init_clusters _ _ _ _ _ _ _ Hop Hinfo)
    as (W & Hnp & Hnd & Hmem & Hblocks).
  repeat apply conj.
  - intros g c Hg Hc Hin.
    apply (members_in_reach _ _ _ _ _ _ _ _ Hop Hinfo Hg).
    now apply (Hblocks c Hc).
  - intros x' E1 E4 E2 E3.
    assert (Wf : well_formed x z kernel kwargs) by (now apply init_Ok in Hop).
    exists (built x' z kernel ew kwargs). apply init_well_formed.
    unfold well_formed, backend_ok, canon_x, ndim, newaxis in *.
    rewrite E2. destruct (Z.of_nat (length (shape x)) =? 1);
      cbn [shape ndi chunks dtype] in *; rewrite ?E1, ?E2, ?E3, ?E4; exact Wf.
  - intros Hwk sh s n w w' Hw Hw' Hsw Hsw' Hs Hn Hagree.
    exists (astype (apply_out op info sh (astype w width)) width),
           (astype (apply_out op info sh (astype w' width)) width).
    split; [exact (apply_call width op info sh w Hinfo Hwk Hw Hsw)|].
    split; [exact (apply_call width op info sh w' Hinfo Hwk Hw' Hsw')|].
    rewrite (apply_call_item width op info sh s w n W Hnp Hinfo Hs Hsw Hn).
    rewrite (apply_call_item width op info sh s w' n W Hnp Hinfo Hs Hsw' Hn).
    apply Qsum_ext. intros c Hc. apply Qsum_ext. intros g Hg.
    rewrite Hagree; [reflexivity|].
    apply (active_iff op g W). apply Hmem. now apply (Hblocks c Hc).
  - intros Hnone.
    assert (E : info = []).
    { destruct info as [|c l]; [reflexivity|]. exfalso.
      destruct (cluster_window op (c :: l) c W Hnp Hinfo (or_introl eq_refl))
        as (Hne & Hreach & _).
      destruct (x_idx (snd c)) as [|g r] eqn:Ex; [congruence|].
      destruct (Hreach g (or_introl eq_refl)) as [Hg Hr].
      exact (Hnone g Hg Hr). }
    split; [exact E|]. intros Hwk w Hw. subst info.
    unfold apply, enforce_precision, apply_wrapped.
    destruct (cast_warn_fields op (astype w width)) as (E1 & _ & _).
    destruct (_cast_warn op (astype w width)) as [w1 warns].
    cbn [fst snd] in *. cbn [astype ndi] in E1.
    rewrite E1, Hw, (pool_starts op Hwk), Hinfo. cbn [bind snd].
    eexists. split; [reflexivity|].
    intros idx. reflexivity.
Qed.

Lemma inactive_points_culled_witness :
  exists op info,
    __init__ (vec NUMPY DOUBLE [1#2; 100]%Q) (lattice1 0 4 5) (Scalar tri)
             true no_kwargs = Ok op /\
    _cl_info op = Some info /\
    forall c, In c info -> ~ In 1 (x_idx (snd c)).
Proof.
  eexists. eexists. split; [vm_compute; reflexivity|].
  split; [vm_compute; reflexivity|].
  intros c Hc.
  refine (proj1 (inactive_points_culled DOUBLE
                   (vec NUMPY DOUBLE [1#2; 100]%Q) (lattice1 0 4 5)
                   (Scalar tri) true no_kwargs _ _ eq_refl eq_refl)
                1 c _ Hc).
  intros Hr. specialize (Hr 0%nat ltac:(vm_compute; lia)).
  cbv zeta in Hr. destruct Hr as [_ Hr]. revert Hr. vm_compute.
  intros H. now apply H.
Defined.

(** C4, counterexample.  With every point out of reach the cluster map is
    empty, yet [apply] still starts the thread pool: the constructor accepts
    [workers=0], and [apply] then raises instead of returning an array of
    zeros.  And an operator constructed on a DASK points array culls nothing
    at construction, it holds no cluster map, and [apply] raises on a NUMPY
    array. *)
Lemma empty_cluster_map_still_starts_pool :
  (exists op,
     __init__ (vec NUMPY DOUBLE [100; 200]%Q) (lattice1 0 4 5) (Scalar tri)
              true (with_workers 0) = Ok op /\
     _cl_info op = Some [] /\
     snd (apply DOUBLE op (vec NUMPY DOUBLE [1; 1]%Q))
     = Some (Raise ValueError)) /\
  (exists op,
     __init__ vec_dask (lattice1 0 4 5) (Scalar tri) true no_kwargs = Ok op /\
     _cl_info op = None /\
     snd (apply DOUBLE op (vec NUMPY DOUBLE [1; 1]%Q))
     = Some (Raise (AttributeError "_cl_info"))).
Proof.
  split; eexists; (split; [vm_compute; reflexivity|]);
    split; vm_compute; reflexivity.
Qed.

Lemma adjoint_inactive_zero_witness :
  exists op out,
    __init__ (vec NUMPY DOUBLE [1#2; 100]%Q) (lattice1 0 4 5) (Scalar tri)
             true no_kwargs = Ok op /\
    snd (adjoint DOUBLE op (vec NUMPY DOUBLE [1; 2; 3; 4; 5]%Q))
    = Some (Ok out) /\
    shape out = dim_shape op.
Proof.
  eexists.
  match goal with
  | |- exists out, ?I = Ok ?o /\ _ =>
      destruct (adjoint_inactive_zero DOUBLE
                  (vec NUMPY DOUBLE [1#2; 100]%Q) (lattice1 0 4 5)
                  (Scalar tri) true no_kwargs
                  (built (vec NUMPY DOUBLE [1#2; 100]%Q) (lattice1 0 4 5)
                         (Scalar tri) true no_kwargs)
                  (vec NUMPY DOUBLE [1; 2; 3; 4; 5]%Q) []
                  ltac:(vm_compute; reflexivity) eq_refl
                  ltac:(vm_compute; reflexivity) eq_refl eq_refl)
        as (out & H1 & H2 & _)
  end.
  exists out. split; [vm_compute; reflexivity|]. split; assumption.
Defined.





(* ###################################################################### *)
(** * Further properties: [find_bounds] *)

Lemma Qabs_pos_nonzero (v : Q) :
  Qlt_bool 0 (Qabs v) = true -> ~ (v == 0)%Q.
Proof.
  intros H E. apply Qlt_bool_iff in H. rewrite E in H. revert H.
  vm_compute. discriminate.
Qed.

Section FindBoundsTight.

Variable x : list Q.
Let N := Z.of_nat (length x).

Lemma find_bounds_loop_tight (n k : nat) (a : Z) (af : bool) (b : Z)
  (bf : bool) :
  (k + n)%nat = length x ->
  (forall i, 0 <= i < (if af then a else Z.of_nat k) ->
             (nth (Z.to_nat i) x 0 == 0)%Q) ->
  (forall i, (if bf then b else N - Z.of_nat k) <= i < N ->
             (nth (Z.to_nat i) x 0 == 0)%Q) ->
  (if af then 0 <= a < N /\ ~ (nth (Z.to_nat a) x 0 == 0)%Q else a = N) ->
  (if bf then 0 < b <= N /\ ~ (nth (Z.to_nat (b - 1)) x 0 == 0)%Q
   else b = N) ->
  tight_bounds x (find_bounds_loop x N (map Z.of_nat (seq k n)) a af b bf).
Proof.
  revert k a af b bf.
  induction n as [|n IH]; intros k a af b bf Hk Hl Hr Ha Hb.
  - simpl. assert (Hk' : Z.of_nat k = N) by (unfold N; lia).
    unfold tight_bounds. fold N. simpl. destruct af, bf.
    + right. tauto.
    + exfalso. destruct Ha as [Ha1 Ha2]. apply Ha2, Hr. lia.
    + exfalso. destruct Hb as [Hb1 Hb2]. apply Hb2, Hl. lia.
    + left. auto.
  - cbn [seq map find_bounds_loop].
    set (lhs := nth (Z.to_nat (Z.of_nat k)) x 0%Q).
    set (rhs := nth (Z.to_nat (N - 1 - Z.of_nat k)) x 0%Q).
    assert (HkN : Z.of_nat k < N) by (unfold N; lia).
    set (af' := af || Qlt_bool 0 (Qabs lhs)).
    set (bf' := bf || Qlt_bool 0 (Qabs rhs)).
    set (a' := if negb af && Qlt_bool 0 (Qabs lhs) then Z.of_nat k else a).
    set (b' := if negb bf && Qlt_bool 0 (Qabs rhs) then N - Z.of_nat k else b).
    assert (Hl' : forall i, 0 <= i < (if af' then a' else Z.of_nat (S k)) ->
                            (nth (Z.to_nat i) x 0 == 0)%Q).
    { intros i Hi. unfold af', a' in Hi. destruct af; simpl in Hi;
        [now apply Hl|].
      destruct (Qlt_bool 0 (Qabs lhs)) eqn:E; [now apply Hl|].
      destruct (Z.eq_dec i (Z.of_nat k)) as [->|Hne].
      - now apply Qabs_not_pos.
      - apply Hl. lia. }
    assert (Hr' : forall i, (if bf' then b' else N - Z.of_nat (S k)) <= i < N ->
                            (nth (Z.to_nat i) x 0 == 0)%Q).
    { intros i Hi. unfold bf', b' in Hi. destruct bf; simpl in Hi;
        [now apply Hr|].
      destruct (Qlt_bool 0 (Qabs rhs)) eqn:E; [now apply Hr|].
      destruct (Z.eq_dec i (N - 1 - Z.of_nat k)) as [->|Hne].
      - now apply Qabs_not_pos.
      - apply Hr. lia. }
    assert (Ha' : if af' then 0 <= a' < N /\ ~ (nth (Z.to_nat a') x 0 == 0)%Q
                  else a' = N).
    { unfold af', a'. destruct af; simpl; [exact Ha|].
      destruct (Qlt_bool 0 (Qabs lhs)) eqn:E; [|exact Ha].
      split; [lia|]. now apply Qabs_pos_nonzero. }
    assert (Hb' : if bf'
                  then 0 < b' <= N /\ ~ (nth (Z.to_nat (b' - 1)) x 0 == 0)%Q
                  else b' = N).
    { unfold bf', b'. destruct bf; simpl; [exact Hb|].
      destruct (Qlt_bool 0 (Qabs rhs)) eqn:E; [|exact Hb].
      split; [lia|].
      replace (N - Z.of_nat k - 1) with (N - 1 - Z.of_nat k) by lia.
      now apply Qabs_pos_nonzero. }
    assert (Estep :
      (let '(a0, a_found) :=
         if negb af && Qlt_bool 0 (Qabs lhs) then (Z.of_nat k, true)
         else (a, af) in
       let '(b0, b_found) :=
         if negb bf && Qlt_bool 0 (Qabs rhs) then (N - Z.of_nat k, true)
         else (b, bf) in
       if a_found && b_found then (a0, b0)
       else find_bounds_loop x N (map Z.of_nat (seq (S k) n)) a0 a_found
                             b0 b_found)
      = if af' && bf' then (a', b')
        else find_bounds_loop x N (map Z.of_nat (seq (S k) n)) a' af' b' bf').
    { unfold af', bf', a', b'.
      destruct af, bf, (Qlt_bool 0 (Qabs lhs)), (Qlt_bool 0 (Qabs rhs));
        reflexivity. }
    rewrite Estep. clear Estep.
    destruct (af' && bf') eqn:E.
    + apply andb_true_iff in E. destruct E as [E1 E2].
      rewrite E1 in Ha'. rewrite E2 in Hb'.
      unfold tight_bounds. fold N. simpl. right. tauto.
    + apply IH; [lia | exact Hl' | exact Hr' | exact Ha' | exact Hb'].
Qed.

End FindBoundsTight.

(** X1.  [find_bounds] returns indices [a], [b] such that every entry of
    the vector outside [x[a:b]] is zero and the segment is tight: either the
    vector has no non-zero entry and [a = b = N], or [0 <= a < b <= N] and
    both end entries [x[a]] and [x[b-1]] are non-zero. *)
Theorem find_bounds_segment (x : list Q) :
  let N := Z.of_nat (length x) in
  let a := fst (find_bounds x) in
  let b := snd (find_bounds x) in
  (forall i, 0 <= i < N -> ~ (a <= i < b) -> (nth (Z.to_nat i) x 0 == 0)%Q) /\
  ((a = N /\ b = N /\
    forall i, 0 <= i < N -> (nth (Z.to_nat i) x 0 == 0)%Q) \/
   (0 <= a < b /\ b <= N /\
    ~ (nth (Z.to_nat a) x 0 == 0)%Q /\
    ~ (nth (Z.to_nat (b - 1)) x 0 == 0)%Q)).
Proof.
  cbv zeta. pose proof (find_bounds_spec x) as Hz.
  assert (Ht : tight_bounds x (find_bounds x)).
  { unfold find_bounds. rewrite zrange_of_nat.
    apply find_bounds_loop_tight; try reflexivity.
    - intros i Hi. simpl in Hi. lia.
    - intros i Hi. simpl in Hi. lia. }
  split; [exact Hz|].
  destruct Ht as [[Ea Eb] | (Ha & Hb & Hna & Hnb)].
  - left. repeat split; try assumption.
    intros i Hi. apply Hz; [exact Hi | lia].
  - right. repeat split; try lia; try assumption.
    destruct (Z_lt_ge_dec (fst (find_bounds x)) (snd (find_bounds x)))
      as [Hlt|Hge]; [exact Hlt|].
    exfalso. apply Hnb. apply Hz; lia.
Qed.

(* ###################################################################### *)
(** * Further properties: [_as_seq] and [_lattice] *)

Lemma concat_repeat1 {A : Type} (a : A) (n : nat) :
  concat (repeat [a] n) = repeat a n.
Proof. induction n as [|n IH]; simpl; [reflexivity | now rewrite IH]. Qed.

(** X2.  [_as_seq] broadcasts a scalar, or an iterable with one element, to
    [N] copies of it; it returns the elements of an iterable with [N]
    elements unchanged; and it raises an [AssertionError] on an iterable
    whose length is neither 1 nor [N]. *)
Theorem as_seq_broadcast {A : Type} (N : Z) :
  (forall a : A, 0 <= N ->
     _as_seq (Scalar a) N = Ok (repeat a (Z.to_nat N)) /\
     _as_seq (Iterable [a]) N = Ok (repeat a (Z.to_nat N))) /\
  (forall l : list A, Z.of_nat (length l) = N ->
     _as_seq (Iterable l) N = Ok l) /\
  (forall l : list A, length l <> 1%nat -> Z.of_nat (length l) <> N ->
     _as_seq (Iterable l) N = Raise (AssertionError "")).
Proof.
  repeat apply conj.
  - intros a HN. unfold _as_seq. cbn [length Z.of_nat Pos.of_succ_nat Z.eqb Pos.eqb].
    rewrite concat_repeat1, repeat_length.
    replace (Z.of_nat (Z.to_nat N) =? N) with true
      by (symmetry; apply Z.eqb_eq; lia).
    split; reflexivity.
  - intros l Hl. unfold _as_seq.
    destruct (Z.of_nat (length l) =? 1) eqn:E.
    + apply Z.eqb_eq in E. destruct l as [|a [|b l]]; simpl in E; try lia.
      assert (N = 1) by (simpl in Hl; lia). subst N. reflexivity.
    + replace (Z.of_nat (length l) =? N) with true
        by (symmetry; now apply Z.eqb_eq).
      reflexivity.
  - intros l H1 HN. unfold _as_seq.
    replace (Z.of_nat (length l) =? 1) with false
      by (symmetry; apply Z.eqb_neq; lia).
    replace (Z.of_nat (length l) =? N) with false
      by (symmetry; now apply Z.eqb_neq).
    reflexivity.
Qed.

Lemma as_seq_broadcast_witness :
  _as_seq (Scalar 7) 3 = Ok (repeat 7 (Z.to_nat 3)) /\
  _as_seq (Iterable [1; 2]) 3 = Raise (AssertionError "").
Proof.
  split.
  - apply (proj1 (as_seq_broadcast 3) 7). lia.
  - apply (proj2 (proj2 (as_seq_broadcast 3)) [1; 2]); simpl; lia.
Defined.

Lemma zrange_slice (N a b : Z) :
  0 <= a -> a <= N -> b <= N ->
  zrange a b = firstn (Z.to_nat (b - a)) (skipn (Z.to_nat a) (zrange 0 N)).
Proof.
  intros Ha HaN HbN.
  apply (nth_ext _ _ 0 0).
  - rewrite length_firstn, length_skipn, !length_zrange. lia.
  - intros i Hi. rewrite length_zrange in Hi.
    rewrite nth_firstn.
    replace (i <? Z.to_nat (b - a))%nat with true
      by (symmetry; now apply Nat.ltb_lt).
    rewrite nth_skipn, !nth_zrange by lia. lia.
Qed.

Lemma skipn_map' {A B : Type} (f : A -> B) (n : nat) (l : list A) :
  skipn n (map f l) = map f (skipn n l).
Proof.
  revert l. induction n as [|n IH]; intros [|a l]; simpl; auto.
Qed.

Lemma firstn_map' {A B : Type} (f : A -> B) (n : nat) (l : list A) :
  firstn n (map f l) = map f (firstn n l).
Proof.
  revert l. induction n as [|n IH]; intros [|a l]; simpl; auto.
  now rewrite IH.
Qed.

Lemma slice_bound_range (N i : Z) : 0 <= N -> 0 <= slice_bound N i <= N.
Proof.
  intros HN. unfold slice_bound. destruct (i <? 0) eqn:E.
  - apply Z.ltb_lt in E. lia.
  - apply Z.ltb_ge in E. lia.
Qed.

(** X4.  Restricting [_lattice] to a region of interest gives, on every
    axis, the corresponding slice of the full lattice: the nodes of
    [slice(a, b)] are the nodes [a], ..., [b - 1] of the axis. *)
Theorem lattice_roi_is_slice op (roi : list (Z * Z)) d :
  (d < codim_rank op)%nat ->
  0 <= nth d (num (_z op)) 0 ->
  nth d (_lattice op (Some roi)) []
  = py_slice (nth d (_lattice op None) []) (nth d roi (0, 0)).
Proof.
  intros Hd HN. unfold _lattice. rewrite !nth_map_seq by exact Hd.
  unfold lattice_axis, arange_roi, py_slice.
  destruct (nth d roi (0, 0)) as [a b]. cbn [fst snd].
  rewrite length_map, length_zrange, Z.sub_0_r, Z2Nat.id by exact HN.
  set (N := nth d (num (_z op)) 0) in *.
  pose proof (slice_bound_range N a HN) as Ha.
  pose proof (slice_bound_range N b HN) as Hb.
  rewrite skipn_map', firstn_map'. f_equal.
  apply zrange_slice; lia.
Qed.

Lemma lattice_roi_is_slice_witness :
  nth 0 (_lattice op_tri (Some [(1, 3)])) []
  = py_slice (nth 0 (_lattice op_tri None) []) (nth 0 [(1, 3)] (0, 0)).
Proof.
  apply (lattice_roi_is_slice op_tri [(1, 3)] 0%nat); vm_compute;
    [reflexivity | discriminate].
Defined.

(** X3.  The lattice of a constructed operator has one vector of nodes per
    axis; axis [d] has [N_d] nodes, which start at [alpha_d], are spaced by
    the step [(beta_d - alpha_d) / (N_d - 1)], stay within
    [alpha_d, beta_d] and, when there are several, end at [beta_d]. *)
Theorem lattice_nodes x z kernel ew kwargs op :
  __init__ x z kernel ew kwargs = Ok op ->
  length (_lattice op None) = codim_rank op /\
  forall d, (d < codim_rank op)%nat ->
    let alpha := nth d (start (_z op)) 0%Q in
    let beta := nth d (stop (_z op)) 0%Q in
    let N := nth d (num (_z op)) 0 in
    Z.of_nat (length (nth d (_lattice op None) [])) = N /\
    (node op d 0 == alpha)%Q /\
    (1 < N -> (node op d (N - 1) == beta)%Q) /\
    (forall n, 0 <= n < N - 1 ->
       (node op d (n + 1) - node op d n == (beta - alpha) / inject_Z (N - 1))%Q) /\
    (forall n, 0 <= n < N -> (alpha <= node op d n <= beta)%Q).
Proof.
  intros Hop. pose proof (init_wf _ _ _ _ _ _ Hop) as W.
  split; [unfold _lattice; now rewrite length_map, length_seq|].
  intros d Hd. cbv zeta.
  pose proof (wf_axis op W d Hd) as Hax.
  pose proof (axis_count _ _ _ Hax) as HN.
  repeat apply conj.
  - unfold _lattice. rewrite nth_map_seq by exact Hd.
    unfold lattice_axis, arange_roi. rewrite length_map, length_zrange. lia.
  - rewrite node_eq by (try exact Hd; lia).
    change (inject_Z 0) with 0%Q. ring.
  - intros H1. rewrite node_eq by (try exact Hd; lia).
    pose proof (axis_strict _ _ _ Hax H1) as Hlt.
    unfold lattice_step.
    replace (nth d (num (_z op)) 0 =? 1) with false
      by (symmetry; apply Z.eqb_neq; lia).
    assert (HQ : (inject_Z 1 < inject_Z (nth d (num (_z op)) 0%Z))%Q)
      by (rewrite <- Zlt_Qlt; exact H1).
    change (inject_Z 1) with 1%Q in HQ.
    rewrite inject_Z_pred. field. lra.
  - intros n Hn. rewrite !node_eq by (try exact Hd; lia).
    unfold lattice_step.
    replace (nth d (num (_z op)) 0 =? 1) with false
      by (symmetry; apply Z.eqb_neq; lia).
    rewrite inject_Z_plus. change (inject_Z 1) with 1%Q. ring.
  - intros n Hn. rewrite node_eq by (try exact Hd; lia).
    now apply node_in_lattice.
Qed.

Lemma lattice_nodes_witness :
  length (_lattice op_tri None) = codim_rank op_tri.
Proof.
  apply (lattice_nodes (vec NUMPY DOUBLE [1#2; 5#2]%Q) (lattice1 0 4 5)
           (Scalar tri) true no_kwargs op_tri).
  vm_compute. reflexivity.
Defined.

(* ###################################################################### *)
(** * Further properties: the generated kernels *)

Lemma upd_other (a : list Z -> Q) (i j : list Z) (v : Q) :
  j <> i -> upd a i v j = a j.
Proof.
  intros H. unfold upd. destruct (list_eqb j i) eqn:E; [|reflexivity].
  apply list_eqb_eq in E. contradiction.
Qed.

Lemma fold_frame {A : Type} (step : (list Z -> Q) -> A -> list Z -> Q)
  (P : A -> Prop) (idx : list Z) (l : list A) :
  (forall t a, P a -> step t a idx = t idx) ->
  (forall a, In a l -> P a) ->
  forall t, fold_left step l t idx = t idx.
Proof.
  intros Hstep. induction l as [|a l IH]; intros HP t; simpl; [reflexivity|].
  rewrite IH by (intros b Hb; apply HP; now right).
  apply Hstep, HP. now left.
Qed.

(** X5.  [f_spread] adds to every cell [(ns, idx)] of the (Ns, S1,...,SD)
    buffer the sum over all points [m] of the full product of axial weights
    [kernel[m, 0, idx_0] * ... * kernel[m, D-1, idx_{D-1}]] times [w[ns, m]]:
    restricting the loops to the box of non-zero weights loses nothing.  It
    writes no cell outside the buffer. *)
Theorem f_spread_exact (stack : list (list Z)) (M : Z) (S : list Z)
  (kernel : list (list (list Q))) (w out : list Z -> Q) :
  NoDup stack ->
  (forall a b, In a stack -> In b stack -> length a = length b) ->
  (forall s i, In s stack -> in_shape S i = true ->
     (f_spread stack M S w kernel out (s ++ i)
      == out (s ++ i)
         + Qsum (map (fun m => weight kernel (length S) m i * w (s ++ [m]))
                     (zrange 0 M)))%Q) /\
  (forall idx,
     (forall s i, In s stack -> in_shape S i = true -> idx <> s ++ i) ->
     f_spread stack M S w kernel out idx = out idx).
Proof.
  intros Hnd Hlen. split.
  - intros s i Hs Hi.
    exact (f_spread_spec stack M S kernel s Hnd Hs
             (fun ns Hns => Hlen ns s Hns Hs) w out i Hi).
  - intros idx Hout. unfold f_spread.
    apply (fold_frame _ (fun _ => True)); [|auto].
    intros t m _.
    apply (fold_frame _ (fun i => in_shape S i = true)).
    + intros t' i Hi.
      apply (fold_frame _ (fun ns => In ns stack)); [|auto].
      intros t'' ns Hns. apply upd_other. now apply Hout.
    + intros i Hi. apply In_box in Hi.
      exact (box_in_window kernel S m i Hi).
Qed.

Lemma f_spread_exact_witness :
  (f_spread [[]] 2%Z [2%Z] (fun _ => 1) [[[1; 0]]; [[0; 3]]] (fun _ => 0)
            ([] ++ [1%Z])
   == 0 + Qsum (map (fun m => weight [[[1; 0]]; [[0; 3]]] 1 m [1%Z] * 1)
                    (zrange 0 2)))%Q.
Proof.
  apply (proj1 (f_spread_exact [[]] 2 [2] [[[1; 0]]; [[0; 3]]]%Q
                  (fun _ => 1%Q) (fun _ => 0%Q)
                  ltac:(repeat constructor; simpl; tauto)
                  ltac:(simpl; intros a b [<-|[]] [<-|[]]; reflexivity))
               [] [1]).
  - simpl. now left.
  - reflexivity.
Defined.

(** X6.  [f_interpolate] adds to every cell [(ns, m)] of the (Ns, M) buffer
    the sum over all cells [idx] of the window of the full product of axial
    weights of point [m] times [v[ns, idx]]: restricting the loop to the box
    of non-zero weights loses nothing.  It writes no cell outside the
    buffer. *)
Theorem f_interpolate_exact (stack : list (list Z)) (M : Z) (S : list Z)
  (kernel : list (list (list Q))) (v out : list Z -> Q) :
  NoDup stack ->
  (forall a b, In a stack -> In b stack -> length a = length b) ->
  (forall s g, In s stack -> 0 <= g < M ->
     (f_interpolate stack M S v kernel out (s ++ [g])
      == out (s ++ [g])
         + Qsum (map (fun i => weight kernel (length S) g i * v (s ++ i))
                     (ndindex S)))%Q) /\
  (forall idx,
     (forall s g, In s stack -> 0 <= g < M -> idx <> s ++ [g]) ->
     f_interpolate stack M S v kernel out idx = out idx).
Proof.
  intros Hnd Hlen. split.
  - intros s g Hs Hg.
    exact (f_interpolate_spec stack M S kernel s Hnd Hs
             (fun ns Hns => Hlen ns s Hns Hs) v out g Hg).
  - intros idx Hout. unfold f_interpolate.
    apply (fold_frame _ (fun m => 0 <= m < M)).
    + intros t m Hm.
      apply (fold_frame _ (fun _ => True)); [|auto].
      intros t' i _.
      apply (fold_frame _ (fun ns => In ns stack)); [|auto].
      intros t'' ns Hns. apply upd_other. now apply Hout.
    + intros m Hm. apply In_zrange in Hm. lia.
Qed.

Lemma f_interpolate_exact_witness :
  (f_interpolate [[]] 2%Z [2%Z] (fun _ => 1) [[[1; 0]]; [[0; 3]]]
                 (fun _ => 0) ([] ++ [1%Z])
   == 0 + Qsum (map (fun i => weight [[[1; 0]]; [[0; 3]]] 1 1%Z i * 1)
                    (ndindex [2%Z])))%Q.
Proof.
  apply (proj1 (f_interpolate_exact [[]] 2 [2] [[[1; 0]]; [[0; 3]]]%Q
                  (fun _ => 1%Q) (fun _ => 0%Q)
                  ltac:(repeat constructor; simpl; tauto)
                  ltac:(simpl; intros a b [<-|[]] [<-|[]]; reflexivity))
               [] 1).
  - simpl. now left.
  - lia.
Defined.

(* ###################################################################### *)
(** * Further properties: [apply] and [adjoint] *)

Lemma Qsum_lincomb {A : Type} (a b : Q) (f g : A -> Q) (l : list A) :
  (Qsum (map (fun x => a * f x + b * g x) l)
   == a * Qsum (map f l) + b * Qsum (map g l))%Q.
Proof.
  induction l as [|x l IH]; simpl; [ring|]. rewrite IH. ring.
Qed.

Lemma fold_invariant_in {A T : Type} (Inv : T -> Prop) (step : T -> A -> T)
  (l : list A) :
  (forall t a, In a l -> Inv t -> Inv (step t a)) ->
  forall t, Inv t -> Inv (fold_left step l t).
Proof.
  induction l as [|a l IH]; intros Hinv t Ht; simpl; [exact Ht|].
  apply IH.
  - intros t' b Hb. apply Hinv. now right.
  - apply Hinv; [now left | exact Ht].
Qed.

Lemma Width_eqb_eq (a b : Width) : Width_eqb a b = true -> a = b.
Proof. destruct a, b; simpl; congruence. Qed.

Lemma cast_warn_dtype op arr :
  dtype (fst (_cast_warn op arr)) = dtype (_x op).
Proof.
  unfold _cast_warn.
  destruct (Width_eqb (dtype arr) (dtype (_x op))) eqn:E; cbn [fst];
    [now apply Width_eqb_eq | reflexivity].
Qed.

(** X7.  [apply] is linear: for an operator built on NUMPY points whose
    [workers] option is [None] or positive, on the combination
    [a * u + b * v] of two NUMPY weight arrays of shape (..., M) it returns,
    entry by entry, the same combination of what it returns on [u] and on
    [v]. *)
Theorem apply_linear width x z kernel ew kwargs op (a b : Q) (u v : NDArray)
  sh :
  __init__ x z kernel ew kwargs = Ok op ->
  ndi (_x op) = NUMPY -> workers_ok op -> ndi u = NUMPY -> ndi v = NUMPY ->
  shape u = sh ++ dim_shape op -> shape v = sh ++ dim_shape op ->
  exists ou ov o,
    snd (apply width op u) = Some (Ok ou) /\
    snd (apply width op v) = Some (Ok ov) /\
    snd (apply width op (lincomb a u b v)) = Some (Ok o) /\
    forall s n, in_shape sh s = true -> length n = codim_rank op ->
      (item o (s ++ n) == a * item ou (s ++ n) + b * item ov (s ++ n))%Q.
Proof.
  intros Hop Hnp Hwk Hu Hv Hsu Hsv. pose proof (init_wf _ _ _ _ _ _ Hop) as W.
  destruct (wf_cl_info op W Hnp) as [Hinfo _].
  set (info := _build_info (_x op) (_z op) (_kernel op) (_kwargs op)) in *.
  exists (astype (apply_out op info sh (astype u width)) width),
         (astype (apply_out op info sh (astype v width)) width),
         (astype (apply_out op info sh (astype (lincomb a u b v) width)) width).
  split; [exact (apply_call width op info sh u Hinfo Hwk Hu Hsu)|].
  split; [exact (apply_call width op info sh v Hinfo Hwk Hv Hsv)|].
  split; [exact (apply_call width op info sh (lincomb a u b v) Hinfo Hwk Hu
                   Hsu)|].
  intros s n Hs Hn.
  rewrite (apply_call_item width op info sh s u n W Hnp Hinfo Hs Hsu Hn).
  rewrite (apply_call_item width op info sh s v n W Hnp Hinfo Hs Hsv Hn).
  rewrite (apply_call_item width op info sh s (lincomb a u b v) n W Hnp Hinfo
             Hs Hsu Hn).
  rewrite <- Qsum_lincomb. apply Qsum_ext. intros c _.
  rewrite <- Qsum_lincomb. apply Qsum_ext. intros g _.
  cbn [lincomb set_item item]. ring.
Qed.

Lemma apply_linear_witness :
  exists ou ov o,
    snd (apply DOUBLE op_tri (vec NUMPY DOUBLE [1; 0]%Q)) = Some (Ok ou) /\
    snd (apply DOUBLE op_tri (vec NUMPY DOUBLE [0; 1]%Q)) = Some (Ok ov) /\
    snd (apply DOUBLE op_tri (lincomb 2 (vec NUMPY DOUBLE [1; 0]%Q)
                                      3 (vec NUMPY DOUBLE [0; 1]%Q)))
    = Some (Ok o) /\
    forall s n, in_shape [] s = true -> length n = codim_rank op_tri ->
      (item o (s ++ n) == 2 * item ou (s ++ n) + 3 * item ov (s ++ n))%Q.
Proof.
  apply (apply_linear DOUBLE (vec NUMPY DOUBLE [1#2; 5#2]%Q) (lattice1 0 4 5)
           (Scalar tri) true no_kwargs op_tri 2 3
           (vec NUMPY DOUBLE [1; 0]%Q) (vec NUMPY DOUBLE [0; 1]%Q) []);
    vm_compute; reflexivity.
Defined.

(** X8.  [adjoint] is linear: for an operator built on NUMPY points whose
    [workers] option is [None] or positive, on the combination
    [a * u + b * v] of two NUMPY arrays of lattice values of shape
    (..., N1,...,ND) it returns, entry by entry, the same combination of
    what it returns on [u] and on [v]. *)
Theorem adjoint_linear width x z kernel ew kwargs op (a b : Q) (u v : NDArray)
  sh :
  __init__ x z kernel ew kwargs = Ok op ->
  ndi (_x op) = NUMPY -> workers_ok op -> ndi u = NUMPY -> ndi v = NUMPY ->
  shape u = sh ++ codim_shape op -> shape v = sh ++ codim_shape op ->
  exists ou ov o,
    snd (adjoint width op u) = Some (Ok ou) /\
    snd (adjoint width op v) = Some (Ok ov) /\
    snd (adjoint width op (lincomb a u b v)) = Some (Ok o) /\
    forall s g, in_shape sh s = true ->
      (item o (s ++ [g]) == a * item ou (s ++ [g]) + b * item ov (s ++ [g]))%Q.
Proof.
  intros Hop Hnp Hwk Hu Hv Hsu Hsv. pose proof (init_wf _ _ _ _ _ _ Hop) as W.
  destruct (wf_cl_info op W Hnp) as [Hinfo _].
  set (info := _build_info (_x op) (_z op) (_kernel op) (_kwargs op)) in *.
  destruct (init_clusters _ _ _ _ _ _ _ Hop Hinfo) as (_ & _ & Hnd & _ & _).
  exists (astype (adjoint_out op info sh (astype u width)) width),
         (astype (adjoint_out op info sh (astype v width)) width),
         (astype (adjoint_out op info sh (astype (lincomb a u b v) width))
                 width).
  split; [exact (adjoint_call width op info sh u Hinfo Hwk Hu Hsu)|].
  split; [exact (adjoint_call width op info sh v Hinfo Hwk Hv Hsv)|].
  split; [exact (adjoint_call width op info sh (lincomb a u b v) Hinfo Hwk Hu
                   Hsu)|].
  intros s g Hs.
  rewrite (proj1 (adjoint_call_item width op info sh s u g W Hnp Hinfo Hs Hsu
                    Hnd)).
  rewrite (proj1 (adjoint_call_item width op info sh s v g W Hnp Hinfo Hs Hsv
                    Hnd)).
  rewrite (proj1 (adjoint_call_item width op info sh s (lincomb a u b v) g W
                    Hnp Hinfo Hs Hsu Hnd)).
  rewrite <- Qsum_lincomb. apply Qsum_ext. intros c _.
  destruct (existsb (Z.eqb g) (x_idx (snd c))); [|ring].
  rewrite <- Qsum_lincomb. apply Qsum_ext. intros n _.
  cbn [lincomb set_item item]. ring.
Qed.

Lemma adjoint_linear_witness :
  exists ou ov o,
    snd (adjoint DOUBLE op_tri (vec NUMPY DOUBLE [1; 0; 0; 0; 0]%Q))
    = Some (Ok ou) /\
    snd (adjoint DOUBLE op_tri (vec NUMPY DOUBLE [0; 1; 1; 0; 0]%Q))
    = Some (Ok ov) /\
    snd (adjoint DOUBLE op_tri
           (lincomb 2 (vec NUMPY DOUBLE [1; 0; 0; 0; 0]%Q)
                    3 (vec NUMPY DOUBLE [0; 1; 1; 0; 0]%Q)))
    = Some (Ok o) /\
    forall s g, in_shape [] s = true ->
      (item o (s ++ [g]) == 2 * item ou (s ++ [g]) + 3 * item ov (s ++ [g]))%Q.
Proof.
  apply (adjoint_linear DOUBLE (vec NUMPY DOUBLE [1#2; 5#2]%Q)
           (lattice1 0 4 5) (Scalar tri) true no_kwargs op_tri 2 3
           (vec NUMPY DOUBLE [1; 0; 0; 0; 0]%Q)
           (vec NUMPY DOUBLE [0; 1; 1; 0; 0]%Q) []);
    vm_compute; reflexivity.
Defined.

(** X9.  For an operator built on NUMPY points whose [workers] option is
    [None] or positive, [apply] and [adjoint] treat the leading (stacking)
    axes of a NUMPY input independently: the slice at leading index [s] of
    the result is the result on the slice [arr[s]] of the input. *)
Theorem stacked_slices width x z kernel ew kwargs op (w v : NDArray) sh s :
  __init__ x z kernel ew kwargs = Ok op ->
  ndi (_x op) = NUMPY -> workers_ok op -> ndi w = NUMPY -> ndi v = NUMPY ->
  shape w = sh ++ dim_shape op -> shape v = sh ++ codim_shape op ->
  in_shape sh s = true ->
  (exists o o_s,
     snd (apply width op w) = Some (Ok o) /\
     snd (apply width op (take_lead w s)) = Some (Ok o_s) /\
     shape o = sh ++ codim_shape op /\ shape o_s = codim_shape op /\
     forall n, length n = codim_rank op ->
               (item o (s ++ n) == item o_s n)%Q) /\
  (exists o o_s,
     snd (adjoint width op v) = Some (Ok o) /\
     snd (adjoint width op (take_lead v s)) = Some (Ok o_s) /\
     shape o = sh ++ [dim_size op] /\ shape o_s = [dim_size op] /\
     forall g, (item o (s ++ [g]) == item o_s [g])%Q).
Proof.
  intros Hop Hnp Hwk Hw Hv Hsw Hsv Hs.
  pose proof (init_wf _ _ _ _ _ _ Hop) as W.
  destruct (wf_cl_info op W Hnp) as [Hinfo _].
  set (info := _build_info (_x op) (_z op) (_kernel op) (_kwargs op)) in *.
  destruct (init_clusters _ _ _ _ _ _ _ Hop Hinfo) as (_ & _ & Hnd & _ & _).
  pose proof (in_shape_length _ _ Hs) as Hlen.
  assert (Hsw' : shape (take_lead w s) = [] ++ dim_shape op).
  { cbn [take_lead shape]. rewrite Hsw, Hlen. apply skipn_length_app. }
  assert (Hsv' : shape (take_lead v s) = [] ++ codim_shape op).
  { cbn [take_lead shape]. rewrite Hsv, Hlen. apply skipn_length_app. }
  split.
  - exists (astype (apply_out op info sh (astype w width)) width),
           (astype (apply_out op info [] (astype (take_lead w s) width)) width).
    split; [exact (apply_call width op info sh w Hinfo Hwk Hw Hsw)|].
    split; [exact (apply_call width op info [] (take_lead w s) Hinfo Hwk Hw
                     Hsw')|].
    split; [exact (apply_shape op info sh (astype w width))|].
    split; [exact (apply_shape op info [] (astype (take_lead w s) width))|].
    intros n Hn.
    rewrite (apply_call_item width op info sh s w n W Hnp Hinfo Hs Hsw Hn).
    pose proof (apply_call_item width op info [] [] (take_lead w s) n W Hnp
                  Hinfo eq_refl Hsw' Hn) as E.
    cbn [app] in E. rewrite E. reflexivity.
  - exists (astype (adjoint_out op info sh (astype v width)) width),
           (astype (adjoint_out op info [] (astype (take_lead v s) width))
                   width).
    split; [exact (adjoint_call width op info sh v Hinfo Hwk Hv Hsv)|].
    split; [exact (adjoint_call width op info [] (take_lead v s) Hinfo Hwk Hv
                     Hsv')|].
    split; [exact (adjoint_shape op info sh (astype v width))|].
    split; [exact (adjoint_shape op info [] (astype (take_lead v s) width))|].
    intros g.
    rewrite (proj1 (adjoint_call_item width op info sh s v g W Hnp Hinfo Hs
                      Hsv Hnd)).
    pose proof (proj1 (adjoint_call_item width op info [] [] (take_lead v s) g
                         W Hnp Hinfo eq_refl Hsv' Hnd)) as E.
    cbn [app] in E. rewrite E. reflexivity.
Qed.

Lemma stacked_slices_witness :
  exists o o_s,
    snd (apply DOUBLE op_tri (mat NUMPY DOUBLE 2 [[1; 0]; [0; 1]]%Q))
    = Some (Ok o) /\
    snd (apply DOUBLE op_tri
           (take_lead (mat NUMPY DOUBLE 2 [[1; 0]; [0; 1]]%Q) [1]))
    = Some (Ok o_s) /\
    shape o = [2] ++ codim_shape op_tri /\ shape o_s = codim_shape op_tri /\
    forall n, length n = codim_rank op_tri ->
              (item o ([1%Z] ++ n) == item o_s n)%Q.
Proof.
  apply (stacked_slices DOUBLE (vec NUMPY DOUBLE [1#2; 5#2]%Q)
           (lattice1 0 4 5) (Scalar tri) true no_kwargs op_tri
           (mat NUMPY DOUBLE 2 [[1; 0]; [0; 1]]%Q)
           (mat NUMPY DOUBLE 5 [[1; 0; 0; 0; 0]; [0; 1; 0; 0; 0]]%Q)
           [2] [1]); vm_compute; reflexivity.
Defined.

(** X10.  For an operator built on NUMPY points whose [workers] option is
    [None] or positive, [apply] on a NUMPY array leaves at zero every lattice
    node that lies in the window of no cluster. *)
Theorem apply_zero_outside_windows width x z kernel ew kwargs op info w sh :
  __init__ x z kernel ew kwargs = Ok op ->
  _cl_info op = Some info -> workers_ok op ->
  ndi w = NUMPY -> shape w = sh ++ dim_shape op ->
  exists out,
    snd (apply width op w) = Some (Ok out) /\
    forall s n, in_shape sh s = true -> length n = codim_rank op ->
      (forall c, In c info -> in_roi (roi_of (snd c)) n = false) ->
      item out (s ++ n) = 0%Q.
Proof.
  intros Hop Hinfo Hwk Hw Hsw. pose proof (init_wf _ _ _ _ _ _ Hop) as W.
  pose proof (init_numpy _ _ _ _ _ _ _ Hop Hinfo) as Hnp.
  exists (astype (apply_out op info sh (astype w width)) width).
  split; [exact (apply_call width op info sh w Hinfo Hwk Hw Hsw)|].
  intros s n Hs Hn Hout. cbn [astype item]. unfold apply_out.
  apply (fold_invariant_in
           (fun t => shape t = sh ++ codim_shape op /\ item t (s ++ n) = 0%Q));
    [|split; reflexivity].
  intros t c Hc [Hsh H0]. split; [exact Hsh|].
  destruct (cluster_ok op info c W Hnp Hinfo Hc) as (Hla & Hln & _).
  unfold _spread, roi_of. cbn [set_item item].
  rewrite Hsh, length_app, length_map2, Hla, Hln, Nat.min_id.
  unfold codim_rank. rewrite Nat.add_sub.
  rewrite <- (in_shape_length _ _ Hs), skipn_length_app.
  specialize (Hout c Hc). unfold roi_of in Hout. rewrite Hout. exact H0.
Qed.

Lemma apply_zero_outside_windows_witness :
  exists out,
    snd (apply DOUBLE op_tri (vec NUMPY DOUBLE [1; 1]%Q)) = Some (Ok out) /\
    forall s n, in_shape [] s = true -> length n = codim_rank op_tri ->
      (forall c, In c (_build_info (_x op_tri) (_z op_tri) (_kernel op_tri)
                                   (_kwargs op_tri)) ->
                 in_roi (roi_of (snd c)) n = false) ->
      item out (s ++ n) = 0%Q.
Proof.
  apply (apply_zero_outside_windows DOUBLE (vec NUMPY DOUBLE [1#2; 5#2]%Q)
           (lattice1 0 4 5) (Scalar tri) true no_kwargs op_tri
           (_build_info (_x op_tri) (_z op_tri) (_kernel op_tri)
                        (_kwargs op_tri))
           (vec NUMPY DOUBLE [1; 1]%Q) []);
    vm_compute; reflexivity.
Defined.

Lemma init_dask x z kernel ew kwargs op :
  __init__ x z kernel ew kwargs = Ok op -> ndi x = DASK -> _cl_info op = None.
Proof.
  intros Hop Hx. apply init_Ok in Hop. destruct Hop as [_ ->].
  unfold built. cbn [_cl_info].
  replace (ndi (canon_x x)) with DASK; [reflexivity|].
  unfold canon_x. destruct (ndim x =? 1); cbn [newaxis ndi]; congruence.
Qed.

(** X11.  On a NUMPY array, [apply] and [adjoint] start the thread pool
    before they read the cluster map.  With a [workers] option that is not
    positive, which the constructor accepts, both raise a [ValueError],
    whatever the operator.  An operator built on a DASK points array holds
    no cluster map, and with [workers] [None] or positive both raise an
    [AttributeError]. *)
Theorem no_cluster_map_raises width x z kernel ew kwargs op arr :
  __init__ x z kernel ew kwargs = Ok op -> ndi arr = NUMPY ->
  (forall n, workers (_kwargs op) = Some n -> n <= 0 ->
     snd (apply width op arr) = Some (Raise ValueError) /\
     snd (adjoint width op arr) = Some (Raise ValueError)) /\
  (ndi x = DASK ->
   _cl_info op = None /\
   (workers_ok op ->
    snd (apply width op arr) = Some (Raise (AttributeError "_cl_info")) /\
    snd (adjoint width op arr) = Some (Raise (AttributeError "_cl_info")))).
Proof.
  intros Hop Ha.
  assert (Hnd : ndi (fst (_cast_warn op (astype arr width))) = NUMPY).
  { destruct (cast_warn_fields op (astype arr width)) as (E1 & _ & _).
    now rewrite E1. }
  split.
  - intros n Hn Hle.
    unfold apply, adjoint.
    split; apply enforce_Raise;
      unfold apply_wrapped, adjoint_wrapped;
      destruct (_cast_warn op (astype arr width)) as [arr' warns];
      cbn [fst snd] in *; rewrite Hnd, (pool_fails op n Hn Hle); reflexivity.
  - intros Hx. pose proof (init_dask _ _ _ _ _ _ Hop Hx) as Hcl.
    split; [exact Hcl|]. intros Hwk.
    unfold apply, adjoint.
    split; apply enforce_Raise;
      unfold apply_wrapped, adjoint_wrapped;
      destruct (_cast_warn op (astype arr width)) as [arr' warns];
      cbn [fst snd] in *; rewrite Hnd, (pool_starts op Hwk), Hcl; reflexivity.
Qed.

Lemma no_cluster_map_raises_witness :
  snd (apply DOUBLE (built vec_dask (lattice1 0 4 5) (Scalar tri) true
                           no_kwargs)
             (vec NUMPY DOUBLE [1; 1]%Q))
  = Some (Raise (AttributeError "_cl_info")) /\
  snd (apply DOUBLE (built (vec NUMPY DOUBLE [1#2; 5#2]%Q) (lattice1 0 4 5)
                           (Scalar tri) true (with_workers 0))
             (vec NUMPY DOUBLE [1; 1]%Q))
  = Some (Raise ValueError).
Proof.
  split.
  - apply (proj2 (no_cluster_map_raises DOUBLE vec_dask (lattice1 0 4 5)
                    (Scalar tri) true no_kwargs _ (vec NUMPY DOUBLE [1; 1]%Q)
                    ltac:(vm_compute; reflexivity) eq_refl) eq_refl).
    vm_compute. reflexivity.
  - apply (proj1 (no_cluster_map_raises DOUBLE (vec NUMPY DOUBLE [1#2; 5#2]%Q)
                    (lattice1 0 4 5) (Scalar tri) true (with_workers 0) _
                    (vec NUMPY DOUBLE [1; 1]%Q)
                    ltac:(vm_compute; reflexivity) eq_refl) 0);
      [reflexivity | lia].
Defined.

(** X12.  On a NUMPY input, [apply] and [adjoint] of an operator built on
    NUMPY points whose [workers] option is [None] or positive return a NUMPY
    array whose dtype is the precision of the runtime, whatever the dtype of
    the input and the dtype the operator is bound to; the leading axes of the
    input are kept and the core axes are replaced by (N1,...,ND) and (M,)
    respectively. *)
Theorem output_backend_dtype_shape width x z kernel ew kwargs op
  (w v : NDArray) sh :
  __init__ x z kernel ew kwargs = Ok op ->
  ndi (_x op) = NUMPY -> workers_ok op -> ndi w = NUMPY -> ndi v = NUMPY ->
  shape w = sh ++ dim_shape op -> shape v = sh ++ codim_shape op ->
  (exists o, snd (apply width op w) = Some (Ok o) /\
             ndi o = NUMPY /\ dtype o = width /\
             shape o = sh ++ codim_shape op) /\
  (exists o, snd (adjoint width op v) = Some (Ok o) /\
             ndi o = NUMPY /\ dtype o = width /\
             shape o = sh ++ [nth 0 (shape (_x op)) 0]).
Proof.
  intros Hop Hnp Hwk Hw Hv Hsw Hsv. pose proof (init_wf _ _ _ _ _ _ Hop) as W.
  destruct (wf_cl_info op W Hnp) as [Hinfo _].
  set (info := _build_info (_x op) (_z op) (_kernel op) (_kwargs op)) in *.
  split.
  - exists (astype (apply_out op info sh (astype w width)) width).
    split; [exact (apply_call width op info sh w Hinfo Hwk Hw Hsw)|].
    cbn [astype ndi dtype shape].
    split; [|split; [reflexivity|]].
    + unfold apply_out.
      apply (fold_invariant (fun t => ndi t = NUMPY));
        [intros t c Ht; exact Ht | reflexivity].
    + exact (apply_shape op info sh (astype w width)).
  - exists (astype (adjoint_out op info sh (astype v width)) width).
    split; [exact (adjoint_call width op info sh v Hinfo Hwk Hv Hsv)|].
    cbn [astype ndi dtype shape].
    split; [|split; [reflexivity|]].
    + unfold adjoint_out.
      apply (fold_invariant (fun t => ndi t = NUMPY));
        [intros t c Ht; exact Ht | reflexivity].
    + rewrite (adjoint_shape op info sh (astype v width)).
      now rewrite dim_size_eq by exact W.
Qed.

Lemma output_backend_dtype_shape_witness :
  exists o, snd (apply SINGLE op_tri (vec NUMPY DOUBLE [1; 1]%Q))
            = Some (Ok o) /\
            ndi o = NUMPY /\ dtype o = SINGLE /\
            shape o = [] ++ codim_shape op_tri.
Proof.
  apply (output_backend_dtype_shape SINGLE (vec NUMPY DOUBLE [1#2; 5#2]%Q)
           (lattice1 0 4 5) (Scalar tri) true no_kwargs op_tri
           (vec NUMPY DOUBLE [1; 1]%Q)
           (vec NUMPY DOUBLE [0; 0; 0; 0; 0]%Q) []);
    vm_compute; reflexivity.
Defined.

(* ###################################################################### *)
(** * Further properties: the operator of a chunk *)

Lemma canon_iterable {A : Type} (l : list A) (D : Z) :
  Z.of_nat (length l) = D -> canon (Iterable l) D = l.
Proof.
  intros H. unfold canon. cbn [elems].
  destruct (Z.of_nat (length l) =? 1) eqn:E; [|reflexivity].
  apply Z.eqb_eq in E. replace D with 1 by lia. simpl. apply app_nil_r.
Qed.

Lemma slice_bound_id (N i : Z) : 0 <= i <= N -> slice_bound N i = i.
Proof.
  intros H. unfold slice_bound.
  replace (i <? 0) with false by (symmetry; apply Z.ltb_ge; lia). lia.
Qed.

Lemma zrange_last (a b : Z) :
  a < b -> zrange a b = zrange a (b - 1) ++ [b - 1].
Proof.
  intros H. unfold zrange.
  replace (Z.to_nat (b - a)) with (S (Z.to_nat (b - 1 - a))) by lia.
  rewrite seq_S, map_app. cbn [map Nat.add]. do 2 f_equal. lia.
Qed.

Section ChunkAxis.

Variables (alpha beta : Q) (N a b : Z).
Hypothesis Hax : axis_ok alpha beta N.
Hypothesis Hab : 0 <= a < b.
Hypothesis HbN : b <= N.

Let step := lattice_step alpha beta N.
Let l := lattice_axis alpha beta N (Some (a, b)).

Lemma chunk_axis_eq :
  l = map (fun n => (alpha + inject_Z n * step)%Q) (zrange a b).
Proof.
  unfold l, lattice_axis, arange_roi.
  rewrite !slice_bound_id by lia. reflexivity.
Qed.

Lemma chunk_axis_length : Z.of_nat (length l) = b - a.
Proof. rewrite chunk_axis_eq, length_map, length_zrange. lia. Qed.

Lemma chunk_axis_first : nth 0 l 0%Q = (alpha + inject_Z a * step)%Q.
Proof.
  rewrite chunk_axis_eq.
  rewrite (nth_indep _ 0%Q (alpha + inject_Z 0 * step)%Q)
    by (rewrite length_map, length_zrange; lia).
  rewrite (map_nth (fun n => (alpha + inject_Z n * step)%Q)).
  rewrite nth_zrange by lia. do 3 f_equal. lia.
Qed.

Lemma chunk_axis_last : last l 0%Q = (alpha + inject_Z (b - 1) * step)%Q.
Proof.
  rewrite chunk_axis_eq, zrange_last, map_app by lia. cbn [map].
  apply last_last.
Qed.

Lemma step_nonneg : (0 <= step)%Q.
Proof.
  unfold step, lattice_step. destruct (N =? 1) eqn:E; [lra|].
  apply Z.eqb_neq in E. pose proof (axis_count _ _ _ Hax) as H1.
  assert (HN : 1 < N) by lia.
  pose proof (axis_strict _ _ _ Hax HN) as Hlt.
  assert (HQ : (inject_Z 1 < inject_Z N)%Q) by (rewrite <- Zlt_Qlt; exact HN).
  change (inject_Z 1) with 1%Q in HQ.
  rewrite inject_Z_pred. apply Qle_shift_div_l; lra.
Qed.

Lemma step_pos : 1 < N -> (0 < step)%Q.
Proof.
  intros HN. unfold step, lattice_step.
  replace (N =? 1) with false by (symmetry; apply Z.eqb_neq; lia).
  pose proof (axis_strict _ _ _ Hax HN) as Hlt.
  assert (HQ : (inject_Z 1 < inject_Z N)%Q) by (rewrite <- Zlt_Qlt; exact HN).
  change (inject_Z 1) with 1%Q in HQ.
  rewrite inject_Z_pred. apply Qlt_shift_div_l; lra.
Qed.

(** The descriptor of the chunk passes the checks of the constructor. *)
Lemma chunk_axis_ok :
  axis_ok (nth 0 l 0%Q) (last l 0%Q) (Z.of_nat (length l)).
Proof.
  rewrite chunk_axis_first, chunk_axis_last, chunk_axis_length.
  assert (Hq : (inject_Z a <= inject_Z (b - 1))%Q)
    by (rewrite <- Zle_Qle; lia).
  pose proof step_nonneg as H0.
  repeat apply conj.
  - assert ((inject_Z a * step <= inject_Z (b - 1) * step)%Q)
      by (apply Qmult_le_compat_r; assumption).
    lra.
  - intros _. lia.
  - intros E.
    destruct (Z.eq_dec (b - a) 1) as [H1|H1]; [exact H1|]. exfalso.
    assert (HN : 1 < N) by lia.
    pose proof (step_pos HN) as Hs.
    assert (Hq' : (inject_Z a < inject_Z (b - 1))%Q)
      by (rewrite <- Zlt_Qlt; lia).
    assert ((inject_Z a * step < inject_Z (b - 1) * step)%Q)
      by (apply Qmult_lt_compat_r; assumption).
    lra.
Qed.

(** Node [n] of the chunk is node [a + n] of the axis. *)
Lemma chunk_axis_node (n : Z) :
  0 <= n < b - a ->
  (nth 0 l 0 + inject_Z n * lattice_step (nth 0 l 0) (last l 0)
                                          (Z.of_nat (length l))
   == alpha + inject_Z (a + n) * step)%Q.
Proof.
  intros Hn.
  rewrite chunk_axis_first, chunk_axis_last, chunk_axis_length.
  unfold lattice_step at 1.
  destruct (b - a =? 1) eqn:E.
  - apply Z.eqb_eq in E. replace n with 0 by lia.
    rewrite Z.add_0_r. change (inject_Z 0) with 0%Q. ring.
  - apply Z.eqb_neq in E.
    assert (Hq : (inject_Z 1 < inject_Z (b - a))%Q)
      by (rewrite <- Zlt_Qlt; lia).
    change (inject_Z 1) with 1%Q in Hq.
    rewrite inject_Z_plus.
    rewrite (inject_Z_pred (b - a)), (inject_Z_pred b).
    unfold Z.sub in Hq |- *. rewrite inject_Z_plus, inject_Z_opp in Hq |- *.
    field. lra.
Qed.

End ChunkAxis.

Lemma nth_map_default {A B : Type} (g : A -> B) (l : list A) (d : nat)
  (a : A) (b : B) :
  (d < length l)%nat -> nth d (map g l) b = g (nth d l a).
Proof.
  intros H. rewrite (nth_indep _ b (g a)) by (now rewrite length_map).
  apply map_nth.
Qed.

Section Chunk.

Variables (op : UniformSpread) (xc : NDArray) (z_spec : list (Z * Z)) (Mq : Z).
Hypothesis W : wf_op op.
Hypothesis HD : (0 < codim_rank op)%nat.
Hypothesis Hck : chunk_ok op z_spec.
Hypothesis Hnp : ndi xc = NUMPY.
Hypothesis Hsx : shape xc = [Mq; Z.of_nat (codim_rank op)].
Hypothesis Hdt : dtype xc = SINGLE \/ dtype xc = DOUBLE.
Hypothesis HM : 1 <= Mq.

Let D := codim_rank op.
Let lattice := _lattice op (Some z_spec).
Let z' : LatticeArg :=
  {| arg_start := Iterable (map (fun _l => nth 0 _l 0%Q) lattice);
     arg_stop := Iterable (map (fun _l => last _l 0%Q) lattice);
     arg_num := Iterable (map (fun _l => Z.of_nat (length _l)) lattice) |}.
Let sub := built xc z' (Iterable (_kernel op)) (_enable_warnings op)
                 (as_kwargs (_kwargs op)).
Let lo (d : nat) := fst (nth d z_spec (0, 0)).
Let hi (d : nat) := snd (nth d z_spec (0, 0)).
Let axis (d : nat) :=
  lattice_axis (nth d (start (_z op)) 0%Q) (nth d (stop (_z op)) 0%Q)
               (nth d (num (_z op)) 0) (Some (lo d, hi d)).

Lemma length_lattice : length lattice = D.
Proof. unfold lattice, _lattice. now rewrite length_map, length_seq. Qed.

Lemma nth_lattice d : (d < D)%nat -> nth d lattice [] = axis d.
Proof.
  intros Hd. unfold lattice, _lattice, axis, lo, hi.
  rewrite nth_map_seq by exact Hd.
  now destruct (nth d z_spec (0, 0)).
Qed.

Lemma chunk_bounds d :
  (d < D)%nat -> 0 <= lo d < hi d /\ hi d <= nth d (num (_z op)) 0.
Proof.
  intros Hd. destruct (Hck d Hd) as [H1 H2].
  rewrite (wf_codim op W) in H2. unfold lo, hi. lia.
Qed.

Lemma length_axis d : (d < D)%nat -> Z.of_nat (length (axis d)) = hi d - lo d.
Proof.
  intros Hd. destruct (chunk_bounds d Hd) as [H1 H2].
  exact (chunk_axis_length _ _ _ _ _ H1 H2).
Qed.

Lemma chunk_z_eq : chunk_z op z_spec = Some z'.
Proof.
  unfold chunk_z. fold lattice.
  replace (forallb _ lattice) with true; [reflexivity|].
  symmetry. apply forallb_forall. intros l Hl.
  apply (In_nth _ _ []) in Hl. destruct Hl as (d & Hd & <-).
  rewrite length_lattice in Hd. rewrite (nth_lattice d Hd).
  pose proof (length_axis d Hd) as Hlen.
  destruct (chunk_bounds d Hd) as [H1 _].
  apply negb_true_iff, Nat.eqb_neq. lia.
Qed.

Lemma canon_x_chunk : canon_x xc = xc.
Proof. unfold canon_x, ndim. now rewrite Hsx. Qed.

Lemma rank_chunk : nth 1 (shape (canon_x xc)) 0 = Z.of_nat D.
Proof. rewrite canon_x_chunk, Hsx. reflexivity. Qed.

Lemma chunk_well_formed :
  well_formed xc z' (Iterable (_kernel op)) (as_kwargs (_kwargs op)).
Proof.
  unfold well_formed. rewrite rank_chunk. cbv zeta.
  assert (Hlen : forall (B : Type) (g : list Q -> B),
             Z.of_nat (length (map g lattice)) = Z.of_nat D)
    by (intros; now rewrite length_map, length_lattice).
  repeat apply conj.
  - right. unfold ndim. now rewrite Hsx.
  - right. cbn [elems]. now rewrite (wf_len_kernel op W).
  - intros k Hk. rewrite canon_iterable in Hk
      by (now rewrite (wf_len_kernel op W)).
    exact (wf_support op W k Hk).
  - right. apply Hlen.
  - right. apply Hlen.
  - right. apply Hlen.
  - intros d Hd. rewrite Nat2Z.id in Hd. cbn [arg_start arg_stop arg_num z'].
    rewrite !canon_iterable by apply Hlen.
    rewrite (nth_map_default _ lattice d []) by (now rewrite length_lattice).
    rewrite (nth_map_default _ lattice d []) by (now rewrite length_lattice).
    rewrite (nth_map_default _ lattice d []) by (now rewrite length_lattice).
    rewrite (nth_lattice d Hd).
    destruct (chunk_bounds d Hd) as [H1 H2].
    exact (chunk_axis_ok _ _ _ _ _ (wf_axis op W d Hd) H1 H2).
  - exact (wf_cluster_size op W).
  - exact (wf_window_ratio op W).
  - rewrite canon_x_chunk, Hsx. exact HM.
  - unfold backend_ok. rewrite canon_x_chunk, Hnp.
    split; [exact Hdt | unfold D; lia].
Qed.

Lemma sub_init :
  __init__ xc z' (Iterable (_kernel op)) (_enable_warnings op)
           (as_kwargs (_kwargs op)) = Ok sub.
Proof. apply init_well_formed, chunk_well_formed. Qed.

Lemma chunk_op_eq : chunk_op op xc z_spec = Some (Ok sub).
Proof. unfold chunk_op. now rewrite chunk_z_eq, sub_init. Qed.

Lemma sub_x : _x sub = xc.
Proof. unfold sub, built. cbn [_x]. apply canon_x_chunk. Qed.

Lemma sub_kernel : _kernel sub = _kernel op.
Proof.
  unfold sub, built. cbn [_kernel]. rewrite rank_chunk.
  apply canon_iterable. now rewrite (wf_len_kernel op W).
Qed.

Lemma sub_z :
  _z sub = {| start := map (fun _l => nth 0 _l 0%Q) lattice;
              stop := map (fun _l => last _l 0%Q) lattice;
              num := map (fun _l => Z.of_nat (length _l)) lattice |}.
Proof.
  unfold sub, built. cbn [_z arg_start arg_stop arg_num z'].
  rewrite rank_chunk.
  rewrite !canon_iterable by (now rewrite length_map, length_lattice).
  reflexivity.
Qed.

Lemma sub_codim :
  codim_shape sub = map (fun _l => Z.of_nat (length _l)) lattice.
Proof.
  rewrite (wf_codim sub (init_wf _ _ _ _ _ _ sub_init)), sub_z. reflexivity.
Qed.

Lemma sub_rank : codim_rank sub = D.
Proof. unfold codim_rank at 1. now rewrite sub_codim, length_map, length_lattice. Qed.

Lemma sub_chunk_shape : codim_shape sub = chunk_shape op z_spec.
Proof.
  rewrite sub_codim. unfold lattice, _lattice, chunk_shape.
  rewrite map_map. apply map_ext_in. intros d Hd. apply in_seq in Hd.
  assert (Hd' : (d < D)%nat) by (unfold D; lia).
  pose proof (length_axis d Hd') as H. unfold axis, lo, hi in H.
  destruct (nth d z_spec (0, 0)) as [a b]. exact H.
Qed.

Lemma sub_dim : dim_shape sub = [Mq] /\ dim_size sub = Mq.
Proof.
  pose proof (init_wf _ _ _ _ _ _ sub_init) as W'.
  rewrite (dim_size_eq sub W'), (wf_dim sub W'), sub_x, Hsx. split; reflexivity.
Qed.

Lemma sub_node d n :
  (d < D)%nat -> 0 <= n < hi d - lo d ->
  (node sub d n == node op d (lo d + n))%Q.
Proof.
  intros Hd Hn. destruct (chunk_bounds d Hd) as [H1 H2].
  assert (Hd' : (d < codim_rank sub)%nat) by (now rewrite sub_rank).
  assert (Hnum : nth d (num (_z sub)) 0 = Z.of_nat (length (axis d))).
  { rewrite sub_z. cbn [num].
    rewrite (nth_map_default _ lattice d []) by (now rewrite length_lattice).
    now rewrite (nth_lattice d Hd). }
  rewrite (node_eq sub d n Hd') by (rewrite Hnum, (length_axis d Hd); exact Hn).
  rewrite (node_eq op d (lo d + n) Hd) by lia.
  rewrite Hnum. rewrite sub_z. cbn [start stop].
  rewrite (nth_map_default _ lattice d []) by (now rewrite length_lattice).
  rewrite (nth_map_default _ lattice d []) by (now rewrite length_lattice).
  rewrite (nth_lattice d Hd).
  exact (chunk_axis_node _ _ _ _ _ H1 H2 n Hn).
Qed.

Lemma chunk_facts :
  chunk_op op xc z_spec = Some (Ok sub) /\
  __init__ xc z' (Iterable (_kernel op)) (_enable_warnings op)
           (as_kwargs (_kwargs op)) = Ok sub /\
  _x sub = xc /\ _kernel sub = _kernel op /\
  dim_shape sub = [Mq] /\ dim_size sub = Mq /\
  codim_shape sub = chunk_shape op z_spec /\
  codim_rank sub = codim_rank op /\
  workers (_kwargs sub) = workers (_kwargs op) /\
  forall d n, (d < codim_rank op)%nat -> 0 <= n < hi d - lo d ->
    (node sub d n == node op d (lo d + n))%Q.
Proof.
  repeat apply conj.
  - exact chunk_op_eq.
  - exact sub_init.
  - exact sub_x.
  - exact sub_kernel.
  - exact (proj1 sub_dim).
  - exact (proj2 sub_dim).
  - exact sub_chunk_shape.
  - exact sub_rank.
  - reflexivity.
  - exact sub_node.
Qed.

End Chunk.

Lemma fold_mult_ext (f g : nat -> Q) (l : list nat) (a a' : Q) :
  (a == a')%Q -> (forall d, In d l -> (f d == g d)%Q) ->
  (fold_left (fun A d => A * f d) l a
   == fold_left (fun A d => A * g d) l a')%Q.
Proof.
  revert a a'. induction l as [|d l IH]; intros a a' Ha H; simpl;
    [exact Ha|].
  apply IH.
  - rewrite Ha, (H d) by (now left). reflexivity.
  - intros e He. apply H. now right.
Qed.

Lemma item_newaxes (k : nat) (v : NDArray) (idx : list Z) :
  shape (Nat.iter k newaxis v) = shape v ++ repeat 1 k /\
  ndi (Nat.iter k newaxis v) = ndi v /\
  item (Nat.iter k newaxis v) (idx ++ repeat 0 k) = item v idx.
Proof.
  induction k as [|k IH].
  - cbn [Nat.iter nat_rect repeat]. now rewrite !app_nil_r.
  - destruct IH as (Hs & Hn & Hi).
    change (Nat.iter (S k) newaxis v) with (newaxis (Nat.iter k newaxis v)).
    cbn [newaxis shape ndi item].
    rewrite Hs, Hn. repeat apply conj; [|reflexivity|].
    + rewrite <- app_assoc. f_equal.
      change [1] with (repeat 1 1).
      rewrite <- repeat_app. now rewrite Nat.add_1_r.
    + replace (S k) with (k + 1)%nat by lia.
      rewrite repeat_app, app_assoc. cbn [repeat].
      rewrite removelast_last. exact Hi.
Qed.

Lemma nth_chunk_shape op z_spec d :
  (d < codim_rank op)%nat ->
  nth d (chunk_shape op z_spec) 0
  = snd (nth d z_spec (0, 0)) - fst (nth d z_spec (0, 0)).
Proof. intros Hd. unfold chunk_shape. now rewrite nth_map_seq. Qed.

Lemma length_chunk_shape op z_spec :
  length (chunk_shape op z_spec) = codim_rank op.
Proof. unfold chunk_shape. now rewrite length_map, length_seq. Qed.

(** The operator of a chunk: its existence, what it holds, its products of
    axial kernels. *)
Lemma chunk_operator x z kernel ew kwargs op xc z_spec Mq :
  __init__ x z kernel ew kwargs = Ok op ->
  (0 < codim_rank op)%nat -> chunk_ok op z_spec ->
  ndi xc = NUMPY -> dtype xc = SINGLE \/ dtype xc = DOUBLE ->
  shape xc = [Mq; Z.of_nat (codim_rank op)] -> 1 <= Mq ->
  exists z' sub,
    chunk_op op xc z_spec = Some (Ok sub) /\
    __init__ xc z' (Iterable (_kernel op)) (_enable_warnings op)
             (as_kwargs (_kwargs op)) = Ok sub /\
    _x sub = xc /\ _kernel sub = _kernel op /\
    dim_shape sub = [Mq] /\ dim_size sub = Mq /\
    codim_shape sub = chunk_shape op z_spec /\
    codim_rank sub = codim_rank op /\
    workers (_kwargs sub) = workers (_kwargs op) /\
    (forall d n, (d < codim_rank op)%nat ->
       0 <= n < nth d (chunk_shape op z_spec) 0 ->
       (node sub d n == node op d (fst (nth d z_spec (0%Z, 0%Z)) + n))%Q) /\
    (extensional_kernels op ->
     forall n m, in_shape (chunk_shape op z_spec) n = true ->
       (dense_entry sub n m == chunk_entry op xc z_spec n m)%Q).
Proof.
  intros Hop HD Hck Hnp Hdt Hsx HM. pose proof (init_wf _ _ _ _ _ _ Hop) as W.
  pose proof (chunk_facts op xc z_spec Mq W HD Hck Hnp Hsx Hdt HM) as F.
  cbv zeta in F.
  match type of F with
  | (_ = Some (Ok ?t)) /\ _ => set (sub := t) in *
  end.
  destruct F as (E1 & E2 & E3 & E4 & E5 & E6 & E7 & E8 & Ew & E9).
  eexists. exists sub.
  split; [exact E1|]. split; [exact E2|].
  split; [exact E3|]. split; [exact E4|]. split; [exact E5|].
  split; [exact E6|]. split; [exact E7|]. split; [exact E8|].
  split; [exact Ew|].
  assert (Hnode : forall d n, (d < codim_rank op)%nat ->
            0 <= n < nth d (chunk_shape op z_spec) 0 ->
            (node sub d n == node op d (fst (nth d z_spec (0%Z, 0%Z)) + n))%Q).
  { intros d n Hd Hn. rewrite nth_chunk_shape in Hn by exact Hd.
    exact (E9 d n Hd Hn). }
  split; [exact Hnode|].
  intros Hext n m Hn. unfold dense_entry, chunk_entry.
  rewrite E8, E4, E3.
  apply fold_mult_ext; [reflexivity|].
  intros d Hd. apply in_seq in Hd.
  assert (Hd' : (d < codim_rank op)%nat) by lia.
  apply Hext; [exact Hd'|].
  apply in_shape_nth in Hn. destruct Hn as [_ Hn].
  rewrite length_chunk_shape in Hn.
  fold (node sub d (nth d n 0)).
  rewrite (Hnode d _ Hd' (Hn d Hd')). reflexivity.
Qed.

Lemma tri_compact : compact_kernels op_tri.
Proof.
  intros d t Hd. assert (d = 0%nat) by (vm_compute in Hd; lia). subst d.
  change (nth 0 (_kernel op_tri) no_kernel) with tri. cbv zeta.
  cbn [tri phi support]. intros H.
  assert (Habs : (1 < Qabs t)%Q).
  { apply Qabs_case; intros Ht; lra. }
  apply Q.max_l. lra.
Qed.

Lemma tri_extensional : extensional_kernels op_tri.
Proof.
  intros d t t' Hd E. assert (d = 0%nat) by (vm_compute in Hd; lia). subst d.
  change (nth 0 (_kernel op_tri) no_kernel) with tri.
  cbn [tri phi]. now rewrite E.
Qed.

Lemma tri_chunk_ok : chunk_ok op_tri [(1, 3)].
Proof.
  intros d Hd. assert (d = 0%nat) by (vm_compute in Hd; lia). subst d.
  change (codim_shape op_tri) with [5]. simpl. lia.
Qed.

(** X13.  [_blockwise_spread] and [_blockwise_interpolate] rebuild, for a
    chunk of the lattice that holds a node on every axis and a NUMPY block
    of at least one point in single or double precision, an operator from
    the first node, the last node and the number of nodes of the chunk.
    Its construction succeeds; it holds the points of the block and the
    kernels of the parent; and its lattice is the chunk: node [n] of the
    rebuilt lattice is node [start + n] of the parent's. *)
Theorem chunk_operator_lattice x z kernel ew kwargs op xc z_spec Mq :
  __init__ x z kernel ew kwargs = Ok op ->
  (0 < codim_rank op)%nat -> chunk_ok op z_spec ->
  ndi xc = NUMPY -> dtype xc = SINGLE \/ dtype xc = DOUBLE ->
  shape xc = [Mq; Z.of_nat (codim_rank op)] -> 1 <= Mq ->
  exists sub,
    chunk_op op xc z_spec = Some (Ok sub) /\
    _x sub = xc /\ _kernel sub = _kernel op /\
    dim_shape sub = [Mq] /\ codim_shape sub = chunk_shape op z_spec /\
    forall d n, (d < codim_rank op)%nat ->
      0 <= n < nth d (chunk_shape op z_spec) 0 ->
      (node sub d n == node op d (fst (nth d z_spec (0%Z, 0%Z)) + n))%Q.
Proof.
  intros Hop HD Hck Hnp Hdt Hsx HM.
  destruct (chunk_operator _ _ _ _ _ _ _ _ _ Hop HD Hck Hnp Hdt Hsx HM)
    as (z' & sub & E1 & _ & E3 & E4 & E5 & _ & E7 & _ & _ & E9 & _).
  exists sub. repeat apply conj; assumption.
Qed.

Lemma chunk_operator_lattice_witness :
  exists sub,
    chunk_op op_tri (mat NUMPY DOUBLE 1 [[1#2]; [5#2]]%Q) [(1, 3)]
    = Some (Ok sub) /\
    _x sub = mat NUMPY DOUBLE 1 [[1#2]; [5#2]]%Q /\
    _kernel sub = _kernel op_tri /\
    dim_shape sub = [2] /\ codim_shape sub = chunk_shape op_tri [(1, 3)] /\
    forall d n, (d < codim_rank op_tri)%nat ->
      0 <= n < nth d (chunk_shape op_tri [(1, 3)]) 0 ->
      (node sub d n
       == node op_tri d (fst (nth d [(1%Z, 3%Z)] (0%Z, 0%Z)) + n))%Q.
Proof.
  apply (chunk_operator_lattice (vec NUMPY DOUBLE [1#2; 5#2]%Q)
           (lattice1 0 4 5) (Scalar tri) true no_kwargs op_tri
           (mat NUMPY DOUBLE 1 [[1#2]; [5#2]]%Q) [(1, 3)] 2).
  - vm_compute. reflexivity.
  - vm_compute. lia.
  - exact tri_chunk_ok.
  - reflexivity.
  - now right.
  - reflexivity.
  - lia.
Defined.

(** X14.  On a NUMPY block of at least one point in single or double
    precision and a NUMPY block of weights, for an operator whose [workers]
    option is [None] or positive, [_blockwise_spread] returns the lattice
    values of the chunk with a trailing axis of size 1: at node [n] of the
    chunk, the sum over the points of the block of the product of the axial
    kernels between node [start + n] of the parent's lattice and the point,
    times the weight of the point. *)
Theorem blockwise_spread_block width x z kernel ew kwargs op xc w z_spec Mq
  sh :
  __init__ x z kernel ew kwargs = Ok op ->
  (0 < codim_rank op)%nat -> chunk_ok op z_spec -> workers_ok op ->
  compact_kernels op -> extensional_kernels op ->
  ndi xc = NUMPY -> dtype xc = SINGLE \/ dtype xc = DOUBLE ->
  shape xc = [Mq; Z.of_nat (codim_rank op)] -> 1 <= Mq ->
  ndi w = NUMPY -> shape w = sh ++ [Mq] ->
  exists warns v,
    _blockwise_spread width op xc w z_spec
    = Some (Ok (warns, Some (Ok v))) /\
    shape v = sh ++ chunk_shape op z_spec ++ [1] /\
    forall s n, in_shape sh s = true ->
      in_shape (chunk_shape op z_spec) n = true ->
      (item v (s ++ n ++ [0%Z])
       == Qsum (map (fun m => chunk_entry op xc z_spec n m * item w (s ++ [m]))
                    (zrange 0 Mq)))%Q.
Proof.
  intros Hop HD Hck Hwk Hc Hext Hnp Hdt Hsx HM Hw Hsw.
  destruct (chunk_operator _ _ _ _ _ _ _ _ _ Hop HD Hck Hnp Hdt Hsx HM)
    as (z' & sub & E1 & E2 & E3 & E4 & E5 & E6 & E7 & E8 & Ew & _ & E10).
  specialize (E10 Hext).
  pose proof (init_wf _ _ _ _ _ _ E2) as W'.
  assert (Hnp' : ndi (_x sub) = NUMPY) by (now rewrite E3).
  destruct (wf_cl_info sub W' Hnp') as [Hinfo _].
  set (info := _build_info (_x sub) (_z sub) (_kernel sub) (_kwargs sub)) in *.
  assert (Hc' : compact_kernels sub).
  { unfold compact_kernels. rewrite E8, E4. exact Hc. }
  assert (Hwk' : workers_ok sub).
  { unfold workers_ok. rewrite Ew. exact Hwk. }
  assert (Hsw' : shape w = sh ++ dim_shape sub) by (now rewrite E5).
  pose proof (apply_call width sub info sh w Hinfo Hwk' Hw Hsw') as Hap.
  unfold _blockwise_spread. rewrite E1. cbn [bind].
  destruct (apply width sub w) as [warns r]. cbn [snd] in Hap. subst r.
  exists warns,
    (newaxis (astype (apply_out sub info sh (astype w width)) width)).
  split; [reflexivity|]. split.
  - cbn [newaxis astype shape].
    rewrite (apply_shape sub info sh (astype w width)), E7.
    now rewrite app_assoc.
  - intros s n Hs Hn. cbn [newaxis astype item].
    rewrite app_assoc, removelast_last.
    rewrite <- E7 in Hn.
    rewrite (apply_dense _ _ _ _ _ _ info sh s (astype w width) n
               E2 Hinfo Hc' Hs Hsw' Hn).
    rewrite E6. apply Qsum_ext. intros m _.
    rewrite E7 in Hn. now rewrite (E10 n m Hn).
Qed.

Lemma blockwise_spread_block_witness :
  exists warns v,
    _blockwise_spread DOUBLE op_tri (mat NUMPY DOUBLE 1 [[1#2]; [5#2]]%Q)
                      (vec NUMPY DOUBLE [1; 1]%Q) [(1, 3)]
    = Some (Ok (warns, Some (Ok v))) /\
    shape v = [] ++ chunk_shape op_tri [(1, 3)] ++ [1].
Proof.
  destruct (blockwise_spread_block DOUBLE (vec NUMPY DOUBLE [1#2; 5#2]%Q)
              (lattice1 0 4 5) (Scalar tri) true no_kwargs op_tri
              (mat NUMPY DOUBLE 1 [[1#2]; [5#2]]%Q)
              (vec NUMPY DOUBLE [1; 1]%Q) [(1, 3)] 2 [])
    as (warns & v & H1 & H2 & _).
  - vm_compute. reflexivity.
  - vm_compute. lia.
  - exact tri_chunk_ok.
  - vm_compute. reflexivity.
  - exact tri_compact.
  - exact tri_extensional.
  - reflexivity.
  - now right.
  - reflexivity.
  - lia.
  - reflexivity.
  - reflexivity.
  - exists warns, v. split; assumption.
Defined.

(** X15.  On a NUMPY block of at least one point in single or double
    precision and the NUMPY lattice values of a chunk, for an operator whose
    [workers] option is [None] or positive, [_blockwise_interpolate] returns
    one value per point of the block, with one trailing axis of size 1 per
    lattice axis: for point [g], the sum over the nodes [n] of the chunk of
    the product of the axial kernels between node [start + n] of the
    parent's lattice and the point, times the value at the node. *)
Theorem blockwise_interpolate_block width x z kernel ew kwargs op xc v z_spec
  Mq sh :
  __init__ x z kernel ew kwargs = Ok op ->
  (0 < codim_rank op)%nat -> chunk_ok op z_spec -> workers_ok op ->
  compact_kernels op -> extensional_kernels op ->
  ndi xc = NUMPY -> dtype xc = SINGLE \/ dtype xc = DOUBLE ->
  shape xc = [Mq; Z.of_nat (codim_rank op)] -> 1 <= Mq ->
  ndi v = NUMPY -> shape v = sh ++ chunk_shape op z_spec ->
  exists warns w,
    _blockwise_interpolate width op xc v z_spec
    = Some (Ok (warns, Some (Ok w))) /\
    shape w = sh ++ [Mq] ++ repeat 1 (codim_rank op) /\
    forall s g, in_shape sh s = true -> 0 <= g < Mq ->
      (item w (s ++ [g] ++ repeat 0%Z (codim_rank op))
       == Qsum (map (fun n => chunk_entry op xc z_spec n g * item v (s ++ n))
                    (ndindex (chunk_shape op z_spec))))%Q.
Proof.
  intros Hop HD Hck Hwk Hc Hext Hnp Hdt Hsx HM Hv Hsv.
  destruct (chunk_operator _ _ _ _ _ _ _ _ _ Hop HD Hck Hnp Hdt Hsx HM)
    as (z' & sub & E1 & E2 & E3 & E4 & E5 & E6 & E7 & E8 & Ew & _ & E10).
  specialize (E10 Hext).
  pose proof (init_wf _ _ _ _ _ _ E2) as W'.
  assert (Hnp' : ndi (_x sub) = NUMPY) by (now rewrite E3).
  destruct (wf_cl_info sub W' Hnp') as [Hinfo _].
  set (info := _build_info (_x sub) (_z sub) (_kernel sub) (_kwargs sub)) in *.
  assert (Hc' : compact_kernels sub).
  { unfold compact_kernels. rewrite E8, E4. exact Hc. }
  assert (Hwk' : workers_ok sub).
  { unfold workers_ok. rewrite Ew. exact Hwk. }
  assert (Hsv' : shape v = sh ++ codim_shape sub) by (now rewrite E7).
  pose proof (adjoint_call width sub info sh v Hinfo Hwk' Hv Hsv') as Had.
  unfold _blockwise_interpolate. rewrite E1. cbn [bind].
  destruct (adjoint width sub v) as [warns r]. cbn [snd] in Had. subst r.
  exists warns,
    (Nat.iter (codim_rank op) newaxis
       (astype (adjoint_out sub info sh (astype v width)) width)).
  split; [reflexivity|]. split.
  - rewrite (proj1 (item_newaxes _ _ [])). cbn [astype shape].
    rewrite (adjoint_shape sub info sh (astype v width)), E6.
    now rewrite <- app_assoc.
  - intros s g Hs Hg. rewrite app_assoc.
    rewrite (proj2 (proj2 (item_newaxes (codim_rank op)
                             (astype (adjoint_out sub info sh
                                        (astype v width)) width)
                             (s ++ [g])))).
    cbn [astype item].
    rewrite <- E6 in Hg.
    rewrite (adjoint_dense _ _ _ _ _ _ info sh s (astype v width) g
               E2 Hinfo Hc' Hs Hsv' Hg).
    rewrite E7. apply Qsum_ext. intros n Hn. apply In_ndindex in Hn.
    now rewrite (E10 n g Hn).
Qed.

Lemma blockwise_interpolate_block_witness :
  exists warns w,
    _blockwise_interpolate DOUBLE op_tri
                           (mat NUMPY DOUBLE 1 [[1#2]; [5#2]]%Q)
                           (vec NUMPY DOUBLE [1; 1]%Q) [(1, 3)]
    = Some (Ok (warns, Some (Ok w))) /\
    shape w = [] ++ [2] ++ repeat 1 (codim_rank op_tri).
Proof.
  destruct (blockwise_interpolate_block DOUBLE
              (vec NUMPY DOUBLE [1#2; 5#2]%Q)
              (lattice1 0 4 5) (Scalar tri) true no_kwargs op_tri
              (mat NUMPY DOUBLE 1 [[1#2]; [5#2]]%Q)
              (vec NUMPY DOUBLE [1; 1]%Q) [(1, 3)] 2 [])
    as (warns & w & H1 & H2 & _).
  - vm_compute. reflexivity.
  - vm_compute. lia.
  - exact tri_chunk_ok.
  - vm_compute. reflexivity.
  - exact tri_compact.
  - exact tri_extensional.
  - reflexivity.
  - now right.
  - reflexivity.
  - lia.
  - reflexivity.
  - reflexivity.
  - exists warns, w. split; assumption.
Defined.

(* ###################################################################### *)
(** * Further properties: the bounds of the chunks *)

Lemma Zsum_cons (a : Z) (l : list Z) : Zsum (a :: l) = a + Zsum l.
Proof. reflexivity. Qed.

Lemma nth_cumsum_from (l : list Z) (acc : Z) (k : nat) :
  (k < length l)%nat ->
  nth k (cumsum_from acc l) 0 = acc + Zsum (firstn (S k) l).
Proof.
  revert acc k. induction l as [|a l IH]; intros acc k Hk; [simpl in Hk; lia|].
  rewrite firstn_cons, Zsum_cons.
  destruct k as [|k].
  - rewrite firstn_O. simpl. lia.
  - simpl in Hk. cbn [cumsum_from nth].
    rewrite IH by lia. lia.
Qed.

Lemma nth_bounds (chks : list Z) (k : nat) :
  (k <= length chks)%nat ->
  nth k (cumsum (0 :: chks)) 0 = Zsum (firstn k chks).
Proof.
  intros Hk. unfold cumsum. cbn [cumsum_from].
  destruct k as [|k]; [reflexivity|]. cbn [nth].
  rewrite nth_cumsum_from by lia. lia.
Qed.

Lemma Zsum_firstn_S (l : list Z) (k : nat) :
  (k < length l)%nat ->
  Zsum (firstn (S k) l) = Zsum (firstn k l) + nth k l 0.
Proof.
  revert k. induction l as [|a l IH]; intros k Hk; [simpl in Hk; lia|].
  rewrite firstn_cons, Zsum_cons.
  destruct k as [|k].
  - rewrite !firstn_O. simpl. lia.
  - simpl in Hk. rewrite firstn_cons, Zsum_cons. cbn [nth].
    rewrite IH by lia. lia.
Qed.

Lemma Zsum_firstn_bounds (l : list Z) (k : nat) :
  (forall c, In c l -> 0 < c) -> 0 <= Zsum (firstn k l) <= Zsum l.
Proof.
  revert k. induction l as [|a l IH]; intros k Hpos.
  - rewrite firstn_nil. simpl. lia.
  - pose proof (Hpos a (or_introl eq_refl)) as Ha.
    rewrite Zsum_cons.
    destruct k as [|k].
    + rewrite firstn_O.
      specialize (IH 0%nat (fun c Hc => Hpos c (or_intror Hc))).
      rewrite firstn_O in IH. simpl in *. lia.
    + rewrite firstn_cons, Zsum_cons.
      specialize (IH k (fun c Hc => Hpos c (or_intror Hc))). lia.
Qed.

(** A loop of assignments whose value depends on the index alone. *)
Lemma fold_assign (F : list Z -> Z) (l : list (list Z)) (t : list Z -> Z)
  (idx : list Z) :
  fold_left (fun t i => fun j => if list_eqb j i then F i else t j) l t idx
  = if existsb (list_eqb idx) l then F idx else t idx.
Proof.
  revert t. induction l as [|a l IH]; intros t; [reflexivity|].
  cbn [fold_left existsb]. rewrite IH.
  destruct (existsb (list_eqb idx) l); [now rewrite orb_true_r|].
  rewrite orb_false_r.
  destruct (list_eqb idx a) eqn:E; [|reflexivity].
  apply list_eqb_eq in E. now subst.
Qed.

Lemma in_shape_app (a b x y : list Z) :
  in_shape a x = true -> in_shape b y = true ->
  in_shape (a ++ b) (x ++ y) = true.
Proof.
  revert x. induction a as [|n a IH]; intros [|i x]; simpl;
    try discriminate; [auto|].
  rewrite !andb_true_iff. intros [H1 H2] Hy. split; [exact H1|]. now apply IH.
Qed.

Lemma in_shape_bcount (z_chunks : list (list Z)) (c_idx : list Z) (d : nat) :
  in_shape (z_bcount z_chunks) c_idx = true ->
  (d < length z_chunks)%nat ->
  (Z.to_nat (nth d c_idx 0%Z) < length (nth d z_chunks []))%nat /\
  0 <= nth d c_idx 0.
Proof.
  intros H Hd. apply in_shape_nth in H. destruct H as [_ H].
  unfold z_bcount in H. rewrite length_map in H. specialize (H d Hd).
  rewrite (nth_map_default (fun chks => Z.of_nat (length chks)) z_chunks d [])
    in H by exact Hd.
  lia.
Qed.

(** The entries of [z_spec], once the loop has run. *)
Lemma z_spec_entry (D : nat) (z_chunks : list (list Z)) (c_idx : list Z)
  (d : nat) (i : Z) :
  length z_chunks = D -> in_shape (z_bcount z_chunks) c_idx = true ->
  (d < D)%nat -> 0 <= i < 2 ->
  z_spec D z_chunks (c_idx ++ [Z.of_nat d; i])
  = Zsum (firstn (Z.to_nat (nth d c_idx 0 + i)) (nth d z_chunks [])).
Proof.
  intros HD Hc Hd Hi. unfold z_spec. cbv zeta.
  rewrite (fold_assign
             (fun idx =>
                nth (Z.to_nat (nth (Z.to_nat (nth (length idx - 2) idx 0))
                                   (firstn (length idx - 2) idx) 0
                               + nth (length idx - 1) idx 0))
                    (nth (Z.to_nat (nth (length idx - 2) idx 0))
                         (z_bounds z_chunks) []) 0)).
  assert (Hin : existsb (list_eqb (c_idx ++ [Z.of_nat d; i]))
                  (ndindex (z_bcount z_chunks ++ [Z.of_nat D; 2])) = true).
  { apply existsb_exists. exists (c_idx ++ [Z.of_nat d; i]).
    split; [|apply list_eqb_refl].
    apply In_ndindex, in_shape_app; [exact Hc|].
    simpl. rewrite !andb_true_iff, !Z.leb_le, !Z.ltb_lt. lia. }
  rewrite Hin.
  pose proof (in_shape_length _ _ Hc) as Hlen.
  unfold z_bcount in Hlen. rewrite length_map in Hlen.
  rewrite length_app. cbn [length].
  replace (length c_idx + 2 - 2)%nat with (length c_idx) by lia.
  replace (length c_idx + 2 - 1)%nat with (S (length c_idx)) by lia.
  rewrite firstn_length_app.
  rewrite (app_nth2 c_idx) by lia. rewrite Nat.sub_diag. cbn [nth].
  rewrite (app_nth2 c_idx) by lia.
  replace (S (length c_idx) - length c_idx)%nat with 1%nat by lia.
  cbn [nth]. rewrite Nat2Z.id.
  unfold z_bounds.
  rewrite (nth_map_default (fun chks => cumsum (0 :: chks)) z_chunks d [])
    by lia.
  destruct (in_shape_bcount z_chunks c_idx d Hc ltac:(lia)) as [Hk H0].
  apply nth_bounds. lia.
Qed.

(** X16.  On a DASK input, [apply] and [adjoint] turn the chunk sizes of the
    lattice axes into bounds: the block of [z_spec] at block index [c_idx]
    holds, on axis [d], the sum of the sizes of the chunks before chunk
    [c_idx[d]] and that sum plus the size of the chunk.  The chunks so
    bounded follow one another from node 0 to node [N_d]; each holds at
    least one node and lies within the lattice, as the operator of a chunk
    requires. *)
Theorem z_spec_tiling op (z_chunks : list (list Z)) (c_idx : list Z) :
  chunks_ok op z_chunks ->
  in_shape (z_bcount z_chunks) c_idx = true ->
  let blk := z_spec_block (z_spec (codim_rank op) z_chunks) (codim_rank op)
                          c_idx in
  chunk_ok op blk /\
  forall d, (d < codim_rank op)%nat ->
    let chks := nth d z_chunks [] in
    let c := Z.to_nat (nth d c_idx 0) in
    fst (nth d blk (0, 0)) = Zsum (firstn c chks) /\
    snd (nth d blk (0, 0)) = Zsum (firstn c chks) + nth c chks 0 /\
    (c = 0%nat -> fst (nth d blk (0, 0)) = 0) /\
    (S c = length chks -> snd (nth d blk (0, 0)) = nth d (codim_shape op) 0).
Proof.
  intros [HD Hch] Hc. cbv zeta.
  assert (Hrow : forall d, (d < codim_rank op)%nat ->
            nth d (z_spec_block (z_spec (codim_rank op) z_chunks)
                                (codim_rank op) c_idx) (0, 0)
            = (Zsum (firstn (Z.to_nat (nth d c_idx 0)) (nth d z_chunks [])),
               Zsum (firstn (Z.to_nat (nth d c_idx 0)) (nth d z_chunks []))
               + nth (Z.to_nat (nth d c_idx 0)) (nth d z_chunks []) 0)).
  { intros d Hd. unfold z_spec_block. rewrite nth_map_seq by exact Hd.
    destruct (in_shape_bcount z_chunks c_idx d Hc ltac:(lia)) as [Hk H0].
    rewrite !(z_spec_entry (codim_rank op) z_chunks c_idx d) by (auto; lia).
    rewrite Z.add_0_r.
    replace (Z.to_nat (nth d c_idx 0 + 1)) with (S (Z.to_nat (nth d c_idx 0)))
      by lia.
    now rewrite Zsum_firstn_S by exact Hk. }
  split.
  - intros d Hd. rewrite (Hrow d Hd). cbn [fst snd].
    destruct (Hch d Hd) as [Hpos Hsum].
    destruct (in_shape_bcount z_chunks c_idx d Hc ltac:(lia)) as [Hk H0].
    pose proof (Zsum_firstn_bounds (nth d z_chunks [])
                  (Z.to_nat (nth d c_idx 0)) Hpos) as B1.
    pose proof (Zsum_firstn_bounds (nth d z_chunks [])
                  (S (Z.to_nat (nth d c_idx 0))) Hpos) as B2.
    rewrite Zsum_firstn_S in B2 by exact Hk.
    pose proof (Hpos _ (nth_In _ 0 Hk)). lia.
  - intros d Hd. rewrite (Hrow d Hd). cbn [fst snd].
    destruct (Hch d Hd) as [Hpos Hsum].
    destruct (in_shape_bcount z_chunks c_idx d Hc ltac:(lia)) as [Hk H0].
    repeat apply conj; try reflexivity.
    + intros ->. reflexivity.
    + intros E. rewrite <- Zsum_firstn_S by exact Hk.
      rewrite E, firstn_all. exact Hsum.
Qed.

Lemma z_spec_tiling_witness :
  chunk_ok op_tri (z_spec_block (z_spec (codim_rank op_tri) [[2; 3]])
                                (codim_rank op_tri) [1]).
Proof.
  apply (z_spec_tiling op_tri [[2; 3]] [1]).
  - split; [reflexivity|].
    intros d Hd. assert (d = 0%nat) by (vm_compute in Hd; lia). subst d.
    split; [|reflexivity].
    simpl. intros c [<-|[<-|[]]]; lia.
  - reflexivity.
Defined.
